(** * Travelling-salesman tours: exhaustive search and spanning-tree heuristic

    A shallow embedding of [CheapestTour.c] and [HeuristicTour.c] together
    with the properties of the two engines.

    - C [int] is a 32-bit two's-complement integer: values are [Z] and every
      arithmetic result that can leave the range is passed through [wrap].
    - Arrays obtained from [malloc] are lists; a read or write outside the
      allocated range is a fault.  Cells that were never written hold no
      value ([None]); using such a cell as an index is a fault.
    - Loops are folds in a small error monad. *)


From Stdlib Require Import ZArith List Lia Bool Arith Permutation Sorted.
Import ListNotations.
Open Scope Z_scope.

(** ** Machine integers *)

Definition wrap (z : Z) : Z := (z + 2 ^ 31) mod 2 ^ 32 - 2 ^ 31.
Definition int_add (a b : Z) : Z := wrap (a + b).
Definition int_mul (a b : Z) : Z := wrap (a * b).
(* C division truncates towards zero *)
Definition int_div (a b : Z) : Z := wrap (Z.quot a b).
Definition in_int (z : Z) : Prop := - 2 ^ 31 <= z < 2 ^ 31.

(** ** Faults and the error monad *)

Inductive fault : Set := OutOfBounds | Uninitialised | OutOfFuel.

Inductive res (A : Type) : Type :=
| Ok (a : A)
| Err (f : fault).
Arguments Ok {A} a.
Arguments Err {A} f.

Definition bind {A B} (m : res A) (k : A -> res B) : res B :=
  match m with
  | Ok a => k a
  | Err f => Err f
  end.

Notation "x <- m ;; k" := (bind m (fun x => k))
  (at level 61, m at next level, right associativity).
Notation "' pat <- m ;; k" := (bind m (fun x => match x with pat => k end))
  (at level 61, pat pattern, m at next level, right associativity).

(** ** Arrays *)

Fixpoint upd {A} (i : nat) (x : A) (l : list A) : list A :=
  match l, i with
  | [], _ => []
  | _ :: t, O => x :: t
  | h :: t, S i' => h :: upd i' x t
  end.

(* a[i] *)
Definition rd {A} (a : list A) (i : Z) : res A :=
  if i <? 0 then Err OutOfBounds
  else match nth_error a (Z.to_nat i) with
       | Some x => Ok x
       | None => Err OutOfBounds
       end.

(* a[i] = x *)
Definition wr {A} (a : list A) (i : Z) (x : A) : res (list A) :=
  if (0 <=? i) && (i <? Z.of_nat (length a))
  then Ok (upd (Z.to_nat i) x a)
  else Err OutOfBounds.

(* m[i][j] *)
Definition rd2 {A} (m : list (list A)) (i j : Z) : res A :=
  row <- rd m i ;; rd row j.

(* m[i][j] = x *)
Definition wr2 {A} (m : list (list A)) (i j : Z) (x : A) : res (list (list A)) :=
  row <- rd m i ;; row' <- wr row j x ;; wr m i row'.

(* the value of a cell, which must have been written before *)
Definition val {A} (c : option A) : res A :=
  match c with
  | Some v => Ok v
  | None => Err Uninitialised
  end.

(* for (j = lo; <cnt more rounds>; j++) body *)
Fixpoint for_loop {S} (cnt : nat) (j : Z) (body : Z -> S -> res S) (s : S) : res S :=
  match cnt with
  | O => Ok s
  | Datatypes.S c => s' <- body j s ;; for_loop c (j + 1) body s'
  end.

(* for (j = lo; j < hi; j++) body *)
Definition for_range {S} (lo hi : Z) (body : Z -> S -> res S) (s : S) : res S :=
  for_loop (Z.to_nat (hi - lo)) lo body s.

(* for (v = head; v != NULL; v = v->next) body *)
Fixpoint for_list {A S} (l : list A) (body : A -> S -> res S) (s : S) : res S :=
  match l with
  | [] => Ok s
  | x :: t => s' <- body x s ;; for_list t body s'
  end.

(** ** Constants and the result structure shared by the two programs *)

Definition LEFT : Z := -1.
Definition RIGHT : Z := 1.
Definition INFINITE : Z := 0.
Definition UNVISITED : Z := 0.
Definition VISITED : Z := 1.
Definition UNCONNECTED : Z := 0.
Definition CONNECTED : Z := 1.

Record result : Type := mkResult {
  cost : Z;
  tour : list (option Z);
  tour_size : Z
}.

(** ** CheapestTour.c *)

Fixpoint factorial_loop (cnt : nat) (i result : Z) : Z :=
  match cnt with
  | O => result
  | S c => factorial_loop c (i + 1) (int_mul result i)
  end.

(* result = 1; for (i=2; i<=n; i++) result = result * i; *)
Definition factorial (n : Z) : Z := factorial_loop (Z.to_nat (n - 1)) 2 1.

(* cost of the tour held in p, lines 128-132 *)
Definition tour_cost (nr_cities : Z) (cities : list (list Z)) (p : list Z) : res Z :=
  for_range 0 nr_cities (fun j cost =>
    let next_city := if j <? nr_cities - 1 then j + 1 else 0 in
    a <- rd p j ;;
    b <- rd p next_city ;;
    c <- rd2 cities a b ;;
    Ok (int_add cost c)) 0.

(* "new shortest tour?", lines 135-140 *)
Definition update_best (nr_cities c : Z) (p : list Z) (r : result) : res result :=
  if (c <? r.(cost)) || (r.(cost) =? INFINITE) then
    t <- for_range 0 nr_cities (fun j t => x <- rd p j ;; wr t j (Some x)) r.(tour) ;;
    Ok (mkResult c t r.(tour_size))
  else Ok r.

(* search for the largest mobile integer, lines 143-152; the pair is
   (largestMobile, largestMobileIndex) *)
Definition find_mobile (nr_cities : Z) (p d : list Z) (stale : option Z)
  : res (Z * option Z) :=
  for_range 1 nr_cities (fun j st =>
    let '(largestMobile, largestMobileIndex) := st in
    dj <- rd d j ;;
    if negb ((j =? 1) && (dj =? LEFT)) && negb ((j =? nr_cities - 1) && (dj =? RIGHT)) then
      pj <- rd p j ;;
      pn <- rd p (j + dj) ;;
      if (pj >? pn) && (pj >? largestMobile) then Ok (pj, Some j) else Ok st
    else Ok st) (0, stale).

(* the two swaps, lines 155-162 *)
Definition swap_mobile (p d : list Z) (largestMobileIndex : option Z)
  : res (list Z * list Z) :=
  i <- val largestMobileIndex ;;
  temp <- rd p i ;;
  di <- rd d i ;;
  x <- rd p (i + di) ;;
  p1 <- wr p i x ;;
  p2 <- wr p1 (i + di) temp ;;
  temp <- rd d (i + di) ;;
  d1 <- wr d (i + di) di ;;
  d2 <- wr d1 i temp ;;
  Ok (p2, d2).

(* reversal of the direction of the larger integers, lines 165-169 *)
Definition flip_larger (nr_cities : Z) (p d : list Z) (largestMobile : Z) : res (list Z) :=
  for_range 1 nr_cities (fun j d =>
    pj <- rd p j ;;
    if pj >? largestMobile then
      dj <- rd d j ;;
      wr d j (if dj =? LEFT then RIGHT else LEFT)
    else Ok d) d.

(* the permutation, the directions and the (persisting) index variable *)
Definition perm_state : Type := (list Z * list Z * option Z)%type.

(* lines 142-169 *)
Definition next_perm (nr_cities : Z) (st : perm_state) : res perm_state :=
  let '(p, d, stale) := st in
  '(largestMobile, largestMobileIndex) <- find_mobile nr_cities p d stale ;;
  '(p', d') <- swap_mobile p d largestMobileIndex ;;
  d'' <- flip_larger nr_cities p' d' largestMobile ;;
  Ok (p', d'', largestMobileIndex).

(* p[i] = i; d[i] = LEFT, lines 121-124 *)
Fixpoint init_loop (cnt : nat) (i : Z) : list Z * list Z :=
  match cnt with
  | O => ([], [])
  | S c => let (p, d) := init_loop c (i + 1) in (i :: p, LEFT :: d)
  end.

Definition init_perm (nr_cities : Z) : perm_state :=
  let (p, d) := init_loop (Z.to_nat nr_cities) 0 in (p, d, None).

(* body of the enumeration loop, lines 127-169 *)
Definition search_step (nr_cities : Z) (cities : list (list Z))
  (st : result * perm_state) : res (result * perm_state) :=
  let '(r, ps) := st in
  let '(p, _, _) := ps in
  c <- tour_cost nr_cities cities p ;;
  r' <- update_best nr_cities c p r ;;
  ps' <- next_perm nr_cities ps ;;
  Ok (r', ps').

Definition nr_perm (nr_cities : Z) : Z := int_div (factorial (nr_cities - 1)) 2.

Definition getOptimalTour (nr_cities : Z) (cities : list (list Z)) : res result :=
  let r0 := mkResult INFINITE (repeat None (Z.to_nat (nr_cities + 1))) (nr_cities + 1) in
  '(r, _) <- for_range 0 (nr_perm nr_cities)
               (fun _ st => search_step nr_cities cities st)
               (r0, init_perm nr_cities) ;;
  first <- rd r.(tour) 0 ;;
  t <- wr r.(tour) (r.(tour_size) - 1) first ;;
  Ok (mkResult r.(cost) t r.(tour_size)).

(** ** HeuristicTour.c *)

Record edge : Type := mkEdge {
  city1 : option Z;
  city2 : option Z;
  weight : Z
}.

(* for (found=FALSE, vp2=v_head; vp2!=NULL; vp2=vp2->next)
     if (vp2->city == j) found = TRUE;                       lines 209-212 *)
Definition found_in (v : list Z) (j : Z) : bool :=
  fold_left (fun found c => if c =? j then true else found) v false.

(* the two scanning loops of one round of Prim's algorithm, lines 197-225;
   the state is (v_new->city, e) *)
Definition prim_scan (nr_cities : Z) (cities : list (list Z)) (v : list Z)
  : res (option Z * edge) :=
  for_list v (fun vp1 st =>
    for_range 0 nr_cities (fun j st =>
      let '(_, e) := st in
      w <- rd2 cities vp1 j ;;
      if w =? INFINITE then Ok st
      else if negb (found_in v j) && ((e.(weight) =? INFINITE) || (w <? e.(weight)))
           then Ok (Some j, mkEdge (Some vp1) (Some j) w)
           else Ok st) st)
    (None, mkEdge None None INFINITE).

(* one round: scan, append the vertex, mark the edge, lines 192-234.
   When the scan finds no edge, v_new->city, e.city1 and e.city2 are still
   unassigned when lines 228-234 use them; the source does not fix what the
   program does with such values, and the model stops there with the fault
   Uninitialised.  A result Ok of this function is a round that found an
   edge. *)
Definition prim_round (nr_cities : Z) (cities : list (list Z))
  (st : list Z * list (list Z)) : res (list Z * list (list Z)) :=
  let '(v, mst) := st in
  '(v_new, e) <- prim_scan nr_cities cities v ;;
  c <- val v_new ;;
  c1 <- val e.(city1) ;;
  c2 <- val e.(city2) ;;
  mst1 <- wr2 mst c1 c2 CONNECTED ;;
  mst2 <- wr2 mst1 c2 c1 CONNECTED ;;
  Ok (v ++ [c], mst2).

(* the loop of lines 185-235, started from the list holding vertex 0 *)
Definition prim_loop (nr_cities : Z) (cities : list (list Z)) (mst0 : list (list Z))
  : res (list Z * list (list Z)) :=
  for_range 1 nr_cities (fun _ st => prim_round nr_cities cities st) ([0], mst0).

(* lines 93-140; the state is the visited array and the trail list *)
Fixpoint dfs (fuel : nat) (node nr_cities : Z) (g : list (list Z))
  (st : list Z * list Z) : res (list Z * list Z) :=
  match fuel with
  | O => Err OutOfFuel
  | S fuel' =>
    let '(visited, trail) := st in
    visited1 <- wr visited node VISITED ;;
    for_range 0 nr_cities (fun i st =>
      let '(visited, trail) := st in
      gi <- rd2 g node i ;;
      if gi =? CONNECTED then
        vi <- rd visited i ;;
        if vi =? UNVISITED then
          '(visited', trail') <- dfs fuel' i nr_cities g (visited, trail) ;;
          Ok (visited', trail' ++ [node])
        else Ok st
      else Ok st) (visited1, trail ++ [node])
  end.

(* the state of the short-cutting loop: visited, res.tour, i, res.cost *)
Definition cut_state : Type := (list Z * list (option Z) * Z * Z)%type.

(* lines 253-265, v running over the trail list *)
Fixpoint shortcut (cities : list (list Z)) (walk : list Z) (st : cut_state)
  : res cut_state :=
  match walk with
  | [] => Ok st
  | c :: rest =>
    let '(visited, tour, i, cost) := st in
    vc <- rd visited c ;;
    if (vc =? UNVISITED) || (match rest with [] => true | _ => false end) then
      visited' <- wr visited c VISITED ;;
      tour' <- wr tour i (Some c) ;;
      cost' <- (if i >? 0 then
                  a <- (x <- rd tour' (i - 1) ;; val x) ;;
                  b <- (x <- rd tour' i ;; val x) ;;
                  w <- rd2 cities a b ;;
                  Ok (int_add cost w)
                else Ok cost) ;;
      shortcut cities rest (visited', tour', i + 1, cost')
    else shortcut cities rest st
  end.

Definition getHeuristicTour (nr_cities : Z) (cities : list (list Z)) : res result :=
  let n := Z.to_nat nr_cities in
  let mst0 := repeat (repeat UNVISITED n) n in
  let visited0 := repeat UNVISITED n in
  let tour0 := repeat None (Z.to_nat (nr_cities + 1)) in
  '(_, mst) <- prim_loop nr_cities cities mst0 ;;
  '(_, walk) <- dfs (S n) 0 nr_cities mst (visited0, []) ;;
  '(_, tour, _, cost) <- shortcut cities walk (visited0, tour0, 0, INFINITE) ;;
  Ok (mkResult cost tour (nr_cities + 1)).

(** ** The directed-integer enumeration, on lists of (value, direction) *)

Abbreviation elt := (Z * Z)%type (only parsing).

Definition vals (l : list elt) : list Z := map fst l.

(* is the integer [v] with direction [d] mobile, given the value on its left
   (if any) and the elements on its right *)
Definition is_mobile (prev : option Z) (v d : Z) (rest : list elt) : bool :=
  if d =? LEFT then match prev with Some u => v >? u | None => false end
  else match rest with (w, _) :: _ => v >? w | [] => false end.

Fixpoint mobiles (prev : option Z) (l : list elt) : list Z :=
  match l with
  | [] => []
  | (v, d) :: rest =>
    (if is_mobile prev v d rest then [v] else []) ++ mobiles (Some v) rest
  end.

Definition lmax (l : list Z) : Z := fold_right Z.max 0 l.

(* exchange the integer [m] with the neighbour it looks at *)
Fixpoint move (m : Z) (l : list elt) : list elt :=
  match l with
  | a :: ((b :: rest) as t) =>
    if (fst b =? m) && (snd b =? LEFT) then b :: a :: rest
    else if (fst a =? m) && negb (snd a =? LEFT) then b :: a :: rest
    else a :: move m t
  | _ => l
  end.

Definition flip (m : Z) (l : list elt) : list elt :=
  map (fun e : elt => if fst e >? m then (fst e, if snd e =? LEFT then RIGHT else LEFT) else e) l.

Definition astep (l : list elt) : list elt :=
  let m := lmax (mobiles None l) in flip m (move m l).

Definition ins {A} (pos : nat) (x : A) (s : list A) : list A :=
  firstn pos s ++ x :: skipn pos s.

(* the [t]-th arrangement of the integers 1..N: the largest integer sweeps
   through the [t / N]-th arrangement of the others, leftwards on even
   rounds and rightwards on odd ones *)
Fixpoint sjt (N t : nat) : list elt :=
  match N with
  | O => []
  | S N' =>
    let k := (t / N)%nat in
    let r := (t mod N)%nat in
    if Nat.even k then ins (N' - r) (Z.of_nat N, LEFT) (sjt N' k)
    else ins r (Z.of_nat N, RIGHT) (sjt N' k)
  end.

(* the relative order of the integers 1 and 2 in an arrangement *)
Definition low12 (l : list Z) : list Z := filter (fun v => v <=? 2) l.

(** ** The arrays of getOptimalTour hold an arrangement *)

Definition dirs (l : list elt) : list Z := map snd l.

(* the arrays p and d for the arrangement l of the cities 1..n-1 *)
Definition p_of (l : list elt) : list Z := 0 :: vals l.
Definition d_of (l : list elt) : list Z := LEFT :: dirs l.

(* the search loop of find_mobile, by recursion on the arrangement *)
Fixpoint scan (prev : option Z) (suf : list elt) (j : Z) (st : Z * option Z)
  : Z * option Z :=
  match suf with
  | [] => st
  | (v, d) :: rest =>
    scan (Some v) rest (j + 1)
      (if is_mobile prev v d rest && (v >? fst st) then (v, Some j) else st)
  end.

Definition last_val (pre : list elt) : option Z := last (map Some (vals pre)) None.

Definition dirs_ok (l : list elt) : Prop :=
  forall e, In e l -> snd e = LEFT \/ snd e = RIGHT.

(** ** The enumeration loop of getOptimalTour *)

(* p, d and the index variable at the start of round i (rounds count from 0) *)
Definition perm_at (nr_cities : Z) (i : nat) : res perm_state :=
  for_loop i 0 (fun _ st => next_perm nr_cities st) (init_perm nr_cities).

(* the factorial over Z, for the sizes where [fact] itself cannot be run *)
Fixpoint zfact (n : nat) : Z :=
  match n with
  | O => 1
  | S n' => Z.of_nat n * zfact n'
  end.

(** ** Distance matrices, paths and cycles *)

(* an n x n matrix *)
Definition matrix (n : Z) (m : list (list Z)) : Prop :=
  Z.of_nat (length m) = n /\ forall row, In row m -> Z.of_nat (length row) = n.

(* the entry (a, b) *)
Definition dist (m : list (list Z)) (a b : Z) : Z :=
  nth (Z.to_nat b) (nth (Z.to_nat a) m []) 0.

Definition symmetric (n : Z) (m : list (list Z)) : Prop :=
  forall i j, 0 <= i < n -> 0 <= j < n -> dist m i j = dist m j i.

Definition nonnegative (n : Z) (m : list (list Z)) : Prop :=
  forall i j, 0 <= i < n -> 0 <= j < n -> 0 <= dist m i j.

(* sum of the distances between consecutive cities of a sequence *)
Fixpoint path_cost (m : list (list Z)) (l : list Z) : Z :=
  match l with
  | a :: ((b :: _) as t) => dist m a b + path_cost m t
  | _ => 0
  end.

(* the same, with the edge from the last city back to the first *)
Definition cycle_cost (m : list (list Z)) (c : list Z) : Z :=
  path_cost m (c ++ firstn 1 c).

(* the cities 1 .. n-1 in some order; [0 :: pi] is then a Hamiltonian cycle
   that starts (and, closing the cycle, ends) at city 0 *)
Definition cities_perm (n : Z) (pi : list Z) : Prop :=
  Permutation pi (map Z.of_nat (seq 1 (Z.to_nat (n - 1)))).

(* the tour examined in round i of the enumeration loop *)
Definition examined (nr_cities : Z) (i : Z) : res (list Z) :=
  '(p, _, _) <- perm_at nr_cities (Z.to_nat i) ;; Ok p.

(* index of the first minimum of f over 0 .. T-1 *)
Fixpoint argmin (f : nat -> Z) (T : nat) : nat :=
  match T with
  | O => O
  | S T' => let k := argmin f T' in if f T' <? f k then T' else k
  end.

Definition positive_off_diagonal (n : Z) (m : list (list Z)) : Prop :=
  forall i j, 0 <= i < n -> 0 <= j < n -> i <> j -> 0 < dist m i j.

(* n distances always add up to an int *)
Definition fits_int (n : Z) (m : list (list Z)) : Prop :=
  forall i j, 0 <= i < n -> 0 <= j < n -> n * dist m i j < 2 ^ 31.

(* every cycle through all cities is examined in exactly one round, in one
   of its two directions *)
Definition each_cycle_once (n : Z) : Prop :=
  forall pi, cities_perm n pi ->
    exists i, 0 <= i < nr_perm n /\
      (examined n i = Ok (0 :: pi) \/ examined n i = Ok (0 :: rev pi)) /\
      forall i', 0 <= i' < nr_perm n ->
        examined n i' = Ok (0 :: pi) \/ examined n i' = Ok (0 :: rev pi) -> i' = i.

(* a symmetric matrix with a tour of cost zero, and one for which the two
   engines disagree *)
Definition cities_zero4 : list (list Z) :=
  [[0; 0; 1; 0]; [0; 0; 0; 1]; [1; 0; 0; 0]; [0; 1; 0; 0]].

Definition cities_zero5 : list (list Z) :=
  [[0; 1; 0; 0; 100]; [1; 0; 0; 100; 0]; [0; 0; 0; 1; 1]; [0; 100; 1; 0; 0];
   [100; 0; 1; 0; 0]].

Definition cities4 : list (list Z) :=
  [[0; 10; 15; 20]; [10; 0; 35; 25]; [15; 35; 0; 30]; [20; 25; 30; 0]].

(** ** Graphs on the cities 0 .. n-1 *)

(* vertices reached from a along the relation E *)
Inductive reach (E : Z -> Z -> Prop) (a : Z) : Z -> Prop :=
| reach_refl : reach E a a
| reach_step b c : reach E a b -> E b c -> reach E a c.

(* connected: there is a first city, and every city is reached from it *)
Definition connected (n : Z) (E : Z -> Z -> Prop) : Prop :=
  0 < n /\ forall v, 0 <= v < n -> reach E 0 v.

(* the graph of a distance matrix: zero means "no edge" *)
Definition has_edge (n : Z) (cities : list (list Z)) (u v : Z) : Prop :=
  0 <= u < n /\ 0 <= v < n /\ dist cities u v <> INFINITE.

(* the graph of an adjacency matrix *)
Definition joined (n : Z) (g : list (list Z)) (u v : Z) : Prop :=
  0 <= u < n /\ 0 <= v < n /\ dist g u v = CONNECTED.

Definition zrange (n : Z) : list Z := map Z.of_nat (seq 0 (Z.to_nat n)).

(* the pairs (u, v) with 0 <= u < v < n *)
Definition all_pairs (n : Z) : list (Z * Z) :=
  filter (fun e => fst e <? snd e) (list_prod (zrange n) (zrange n)).

(* the undirected edges marked in an adjacency matrix *)
Definition edge_list (n : Z) (g : list (list Z)) : list (Z * Z) :=
  filter (fun e => dist g (fst e) (snd e) =? CONNECTED) (all_pairs n).

(* total weight of a list of edges *)
Definition total_weight (cities : list (list Z)) (es : list (Z * Z)) : Z :=
  fold_right (fun e acc => dist cities (fst e) (snd e) + acc) 0 es.

(* adjacency along a list of undirected edges *)
Definition ladj (es : list (Z * Z)) (a b : Z) : Prop := In (a, b) es \/ In (b, a) es.

Definition ladjb (es : list (Z * Z)) (a b : Z) : bool :=
  existsb (fun e => ((fst e =? a) && (snd e =? b)) || ((fst e =? b) && (snd e =? a))) es.

(* a spanning tree of the graph of [cities]: n - 1 distinct edges of the
   graph, each written (u, v) with u < v, that connect all n cities *)
Definition spanning_tree (n : Z) (cities : list (list Z)) (T : list (Z * Z)) : Prop :=
  NoDup T /\
  (forall u v, In (u, v) T -> 0 <= u < v /\ v < n /\ dist cities u v <> INFINITE) /\
  Z.of_nat (length T) = n - 1 /\
  connected n (ladj T).

Definition norm (a b : Z) : Z * Z := if a <? b then (a, b) else (b, a).

(** ** The Prim-style loop of getHeuristicTour *)

(* an edge of the graph from a vertex of v to a city outside v *)
Definition crossing (n : Z) (cities : list (list Z)) (v : list Z) (a b : Z) : Prop :=
  In a v /\ 0 <= b < n /\ ~ In b v /\ dist cities a b <> INFINITE.

(* what the scan holds after the pairs in Scanned: the lightest crossing
   edge among them, or nothing if there is none *)
Definition best_so_far (n : Z) (cities : list (list Z)) (v : list Z)
  (Scanned : Z -> Z -> Prop) (st : option Z * edge) : Prop :=
  match st with
  | (None, e) =>
    e = mkEdge None None INFINITE /\
    forall a b, Scanned a b -> ~ crossing n cities v a b
  | (Some c2, e) =>
    exists c1, e = mkEdge (Some c1) (Some c2) (dist cities c1 c2) /\
               crossing n cities v c1 c2 /\
               forall a b, Scanned a b -> crossing n cities v a b ->
                           dist cities c1 c2 <= dist cities a b
  end.

(* the all-zero n x n matrix the loop starts from *)
Definition mst_init (nr_cities : Z) : list (list Z) :=
  repeat (repeat UNVISITED (Z.to_nat nr_cities)) (Z.to_nat nr_cities).

(* what holds when round i of the loop starts: v lists i distinct cities,
   mst marks the i - 1 edges es, which join the cities of v and lie in a
   spanning tree at most as heavy as any given one *)
Definition prim_inv (n : Z) (cities : list (list Z)) (i : Z)
  (st : list Z * list (list Z)) (es : list (Z * Z)) : Prop :=
  let '(v, mst) := st in
  NoDup v /\ (forall x, In x v -> 0 <= x < n) /\ Z.of_nat (length v) = i /\ In 0 v /\
  matrix n mst /\
  (forall a b, 0 <= a < n -> 0 <= b < n ->
               dist mst a b = if ladjb es a b then CONNECTED else UNCONNECTED) /\
  NoDup es /\
  (forall a b, In (a, b) es ->
               a < b /\ In a v /\ In b v /\ dist cities a b <> INFINITE) /\
  Z.of_nat (length es) = i - 1 /\
  (forall x, In x v -> reach (ladj es) 0 x) /\
  (forall M', spanning_tree n cities M' ->
              exists M, spanning_tree n cities M /\ incl es M /\
                        total_weight cities M <= total_weight cities M').

(** ** The depth-first walk *)

Set Warnings "-register-all".

(* the tree of calls of dfs: a vertex and the calls made from its loop *)
Inductive rtree : Type :=
| Node (v : Z) (children : list rtree).

Definition root (t : rtree) : Z := match t with Node v _ => v end.

(* the walk over a tree: an entry when a vertex is entered, and an entry for
   the vertex again after each of its children's subtrees *)
Fixpoint euler (t : rtree) : list Z :=
  match t with
  | Node v cs => v :: flat_map (fun c => euler c ++ [v]) cs
  end.

Fixpoint nodes (t : rtree) : list Z :=
  match t with
  | Node v cs => v :: flat_map nodes cs
  end.

(* every child is a neighbour of its parent in g, and the children of a
   vertex come in increasing order of their index *)
Inductive dfs_tree (n : Z) (g : list (list Z)) : rtree -> Prop :=
| dfs_tree_node v cs :
    Forall (dfs_tree n g) cs ->
    (forall c, In c cs -> joined n g v (root c)) ->
    StronglySorted Z.lt (map root cs) ->
    dfs_tree n g (Node v cs).

Definition unvis (visited : list Z) (x : Z) : Prop := rd visited x = Ok UNVISITED.

(* an adjacency matrix that marks a spanning tree of the n cities *)
Definition tree_matrix (n : Z) (g : list (list Z)) : Prop :=
  matrix n g /\ symmetric n g /\
  Z.of_nat (length (edge_list n g)) = n - 1 /\
  connected n (joined n g).

(** ** The short-cutting loop *)

(* the first occurrence of each city, in order; [seen] are the cities kept
   before *)
Fixpoint firsts (seen : list Z) (walk : list Z) : list Z :=
  match walk with
  | [] => []
  | c :: rest =>
    if existsb (Z.eqb c) seen then firsts seen rest else c :: firsts (c :: seen) rest
  end.

(* the same, except that the final element of the walk is always kept *)
Fixpoint keep (seen : list Z) (walk : list Z) : list Z :=
  match walk with
  | [] => []
  | c :: rest =>
    if negb (existsb (Z.eqb c) seen) || (match rest with [] => true | _ => false end)
    then c :: keep (c :: seen) rest
    else keep seen rest
  end.

(* an adjacency matrix marking the star around city 0 *)
Definition star4 : list (list Z) :=
  [[0; 1; 1; 1]; [1; 0; 0; 0]; [1; 0; 0; 0]; [1; 0; 0; 0]].

(* two cities joined by the one edge of their tree, and distances between
   them whose sum leaves the range of an int *)
Definition pair2 : list (list Z) := [[0; 1]; [1; 0]].

Definition cities_far2 : list (list Z) := [[0; 1073741824]; [1073741824; 0]].

(** ** The heuristic tour against the tree and against every tour *)

(* the triangle inequality on the cities 0 .. n-1 *)
Definition triangle (n : Z) (m : list (list Z)) : Prop :=
  forall a b c, 0 <= a < n -> 0 <= b < n -> 0 <= c < n ->
                dist m a c <= dist m a b + dist m b c.

(* the parent-child edges of a tree of calls, as pairs (u, v) with u < v *)
Fixpoint tree_edges (t : rtree) : list (Z * Z) :=
  match t with
  | Node v cs => flat_map (fun c => norm v (root c) :: tree_edges c) cs
  end.

(* the edges between consecutive cities of a sequence, as pairs (u, v) with
   u < v *)
Fixpoint path_edges (l : list Z) : list (Z * Z) :=
  match l with
  | a :: ((b :: _) as t) => norm a b :: path_edges t
  | _ => []
  end.

(* four cities on a line, one unit apart *)
Definition cities_line4 : list (list Z) :=
  [[0; 1; 2; 3]; [1; 0; 1; 2]; [2; 1; 0; 1]; [3; 2; 1; 0]].

(** ** loadCitiesFromFile (the same function in both programs) *)

(* What one call fscanf(fp, "%d", &val) does.  The content of the file
   enters the function only through these calls and through feof: an open
   file is given as the list of the outcomes of the successive calls; the
   list ends with the call after which feof(fp) holds. *)
Inductive fscanf_result : Type :=
| Matched (z : Z)   (* a number was read: returns 1, val is assigned *)
| NoMatch           (* the input is not a number: returns 0; val is left and
                       nothing is consumed, so that every later call meets
                       the same input and feof(fp) never holds *)
| AtEof.            (* nothing is left to read: returns EOF, which is not 0;
                       val is left *)

(* cities, val, i, j; val and the cells of cities hold no value until
   they are assigned *)
Definition load_state : Type :=
  (list (list (option Z)) * option Z * Z * Z)%type.

(* how a round of the loop ends: the loop goes on, or is left by break *)
Inductive flow : Type :=
| Next (st : load_state)
| Break (st : load_state).

(* one round of the while loop, lines 57-68 *)
Definition load_step (nr_cities : Z) (s : fscanf_result) (st : load_state) : res flow :=
  let '(cities, val, i, j) := st in
  match s with
  | NoMatch => Ok (Next st)
  | _ =>
    let val := match s with Matched z => Some z | _ => val end in
    match (if j =? nr_cities
           then if i + 1 >=? nr_cities then None else Some (i + 1, 0)
           else Some (i, j)) with
    | None => Ok (Break (cities, val, i + 1, 0))
    | Some (i, j) =>
      cities' <- wr2 cities i j val ;;
      Ok (Next (cities', val, i, j + 1))
    end
  end.

(* how the while loop ends: it is left, by feof or by break, or it is never
   left *)
Inductive load_end : Type :=
| Leaves (st : load_state)
| Spins.

(* while (!feof(fp)) ..., lines 56-69.  A round in which fscanf returns 0
   changes nothing, neither the variables nor what is left of the file: the
   same round follows for ever. *)
Fixpoint load_loop (nr_cities : Z) (calls : list fscanf_result) (st : load_state)
  : res load_end :=
  match calls with
  | [] => Ok (Leaves st)
  | NoMatch :: _ => Ok Spins
  | s :: rest =>
    f <- load_step nr_cities s st ;;
    match f with
    | Next st' => load_loop nr_cities rest st'
    | Break st' => Ok (Leaves st')
    end
  end.

(* what a call of loadCitiesFromFile comes to: the NULL pointer, the array,
   or no return at all *)
Inductive loaded : Type :=
| Null
| Array (cities : list (list (option Z)))
| NoReturn.

(* lines 33-74; the file is None when fopen fails *)
Definition loadCitiesFromFile (nr_cities : Z) (file : option (list fscanf_result))
  : res loaded :=
  match file with
  | None => Ok Null
  | Some calls =>
    let n := Z.to_nat nr_cities in
    r <- load_loop nr_cities calls (repeat (repeat None n) n, None, 0, 0) ;;
    match r with
    | Leaves (cities, _, _, _) => Ok (Array cities)
    | Spins => Ok NoReturn
    end
  end.


(* the array in which the full rows [rows] and the first cells [cur] of the
   next row are assigned, and nothing else *)
Definition layout (n : nat) (rows : list (list Z)) (cur : list Z)
  : list (list (option Z)) :=
  map (map Some) rows
  ++ (map Some cur ++ repeat None (n - length cur))
  :: repeat (repeat None n) (n - length rows - 1).

(** ** The order in which the scan of the Prim-style loop looks at edges *)

(* the pair (cell i of the vertex list, city b) is looked at before the
   pair (cell k, city j) *)
Definition scanned_before (k : nat) (j : Z) (i : nat) (b : Z) : Prop :=
  (i < k)%nat \/ (i = k /\ b < j).

(* what the scan holds when it is about to look at (cell k, city j): the
   lightest crossing edge among the pairs looked at, and of those the one
   looked at first *)
Definition first_lightest (n : Z) (cities : list (list Z)) (v : list Z)
  (k : nat) (j : Z) (st : option Z * edge) : Prop :=
  match st with
  | (None, e) =>
    e = mkEdge None None INFINITE /\
    forall i a b, nth_error v i = Some a -> scanned_before k j i b ->
                  ~ crossing n cities v a b
  | (Some c2, e) =>
    exists k1 c1,
      nth_error v k1 = Some c1 /\
      e = mkEdge (Some c1) (Some c2) (dist cities c1 c2) /\
      crossing n cities v c1 c2 /\ scanned_before k j k1 c2 /\
      forall i a b, nth_error v i = Some a -> scanned_before k j i b ->
                    crossing n cities v a b ->
                    dist cities c1 c2 <= dist cities a b /\
                    (scanned_before k1 c2 i b -> dist cities c1 c2 < dist cities a b)
  end.

(** * Properties *)

(** ** Basic facts: machine integers, arrays, loops *)

Lemma wrap_id z : in_int z -> wrap z = z.
Proof.
  unfold in_int, wrap. intros H.
  rewrite Z.mod_small by lia. lia.
Qed.

Lemma wrap_in_int z : in_int (wrap z).
Proof.
  unfold in_int, wrap.
  pose proof (Z.mod_pos_bound (z + 2 ^ 31) (2 ^ 32) ltac:(lia)). lia.
Qed.

Lemma bind_Ok {A B} (m : res A) (k : A -> res B) b :
  bind m k = Ok b -> exists a, m = Ok a /\ k a = Ok b.
Proof. destruct m; simpl; [eauto | discriminate]. Qed.

Lemma length_upd {A} i (x : A) l : length (upd i x l) = length l.
Proof.
  revert i. induction l as [|h t IH]; intros [|i]; simpl; auto.
Qed.

Lemma nth_error_upd_eq {A} i (x : A) l :
  (i < length l)%nat -> nth_error (upd i x l) i = Some x.
Proof.
  revert i. induction l as [|h t IH]; intros [|i] H; simpl in *; try lia; auto.
  apply IH. lia.
Qed.

Lemma nth_error_upd_ne {A} i j (x : A) l :
  i <> j -> nth_error (upd i x l) j = nth_error l j.
Proof.
  revert i j. induction l as [|h t IH]; intros [|i] [|j] H; simpl; auto; try congruence.
Qed.

Lemma upd_app_here {A} (l1 l2 : list A) x y :
  upd (length l1) x (l1 ++ y :: l2) = l1 ++ x :: l2.
Proof. induction l1; simpl; congruence. Qed.

Lemma map_upd {A B} (f : A -> B) i x l : map f (upd i x l) = upd i (f x) (map f l).
Proof.
  revert i. induction l as [|h t IH]; intros [|i]; simpl; auto. now rewrite IH.
Qed.

Lemma rd_nat {A} (a : list A) (k : nat) :
  rd a (Z.of_nat k) = match nth_error a k with Some x => Ok x | None => Err OutOfBounds end.
Proof.
  unfold rd. destruct (Z.ltb_spec (Z.of_nat k) 0); [lia|].
  now rewrite Nat2Z.id.
Qed.

Lemma rd_Ok_iff {A} (a : list A) i x :
  rd a i = Ok x <-> 0 <= i /\ nth_error a (Z.to_nat i) = Some x.
Proof.
  unfold rd. destruct (Z.ltb_spec i 0).
  - split; [discriminate | lia].
  - destruct (nth_error a (Z.to_nat i)); split; intros; try discriminate;
      try (split; [lia | congruence]).
    + destruct H0 as [_ H0]. congruence.
    + destruct H0; discriminate.
Qed.

Lemma rd_bounds {A} (a : list A) i x :
  rd a i = Ok x -> 0 <= i < Z.of_nat (length a).
Proof.
  intros H. apply rd_Ok_iff in H. destruct H as [H0 H].
  assert (Z.to_nat i < length a)%nat by (apply nth_error_Some; congruence). lia.
Qed.

Lemma rd_in_range {A} (a : list A) i :
  0 <= i < Z.of_nat (length a) -> exists x, rd a i = Ok x.
Proof.
  intros H. destruct (nth_error a (Z.to_nat i)) eqn:E.
  - exists a0. apply rd_Ok_iff. split; [lia | auto].
  - apply nth_error_None in E. lia.
Qed.

Lemma rd_cons {A} (h : A) t i : 0 < i -> rd (h :: t) i = rd t (i - 1).
Proof.
  intros H. unfold rd.
  destruct (Z.ltb_spec i 0); [lia|]. destruct (Z.ltb_spec (i - 1) 0); [lia|].
  replace (Z.to_nat i) with (S (Z.to_nat (i - 1))) by lia. reflexivity.
Qed.

Lemma rd_app_here {A} (l1 l2 : list A) x :
  rd (l1 ++ x :: l2) (Z.of_nat (length l1)) = Ok x.
Proof.
  rewrite rd_nat, nth_error_app2 by lia. now rewrite Nat.sub_diag.
Qed.

Lemma wr_Ok {A} (a : list A) i x :
  0 <= i < Z.of_nat (length a) -> wr a i x = Ok (upd (Z.to_nat i) x a).
Proof.
  intros H. unfold wr.
  destruct (Z.leb_spec 0 i); [|lia]. destruct (Z.ltb_spec i (Z.of_nat (length a))); [|lia].
  reflexivity.
Qed.

Lemma wr_Ok_inv {A} (a : list A) i x a' :
  wr a i x = Ok a' -> 0 <= i < Z.of_nat (length a) /\ a' = upd (Z.to_nat i) x a.
Proof.
  unfold wr.
  destruct (Z.leb_spec 0 i); destruct (Z.ltb_spec i (Z.of_nat (length a))); simpl;
    intros E; inversion E; subst; split; auto; lia.
Qed.

Lemma wr_length {A} (a : list A) i x a' : wr a i x = Ok a' -> length a' = length a.
Proof. intros H. apply wr_Ok_inv in H. destruct H as [_ ->]. apply length_upd. Qed.

Lemma rd_wr_eq {A} (a : list A) i x a' : wr a i x = Ok a' -> rd a' i = Ok x.
Proof.
  intros H. apply wr_Ok_inv in H. destruct H as [Hi ->].
  apply rd_Ok_iff. split; [lia|]. apply nth_error_upd_eq. lia.
Qed.

Lemma rd_wr_ne {A} (a : list A) i j x a' :
  wr a i x = Ok a' -> i <> j -> rd a' j = rd a j.
Proof.
  intros H Hne. apply wr_Ok_inv in H. destruct H as [Hi ->].
  unfold rd. destruct (Z.ltb_spec j 0); auto.
  rewrite nth_error_upd_ne by lia. reflexivity.
Qed.

(** Loops *)

Lemma for_loop_snoc {S} cnt j (body : Z -> S -> res S) s :
  for_loop (Datatypes.S cnt) j body s
  = (s' <- for_loop cnt j body s ;; body (j + Z.of_nat cnt) s').
Proof.
  revert j s. induction cnt as [|c IH]; intros j s.
  - simpl. replace (j + 0) with j by lia. destruct (body j s); reflexivity.
  - change (for_loop (Datatypes.S (Datatypes.S c)) j body s)
      with (s' <- body j s ;; for_loop (Datatypes.S c) (j + 1) body s').
    change (for_loop (Datatypes.S c) j body s)
      with (s' <- body j s ;; for_loop c (j + 1) body s').
    destruct (body j s) as [s1|f]; cbn [bind]; [|reflexivity].
    rewrite IH.
    replace (j + 1 + Z.of_nat c) with (j + Z.of_nat (Datatypes.S c)) by lia. reflexivity.
Qed.

Lemma for_loop_ext {S} cnt j (body body' : Z -> S -> res S) s :
  (forall i s, j <= i < j + Z.of_nat cnt -> body i s = body' i s) ->
  for_loop cnt j body s = for_loop cnt j body' s.
Proof.
  revert j s. induction cnt as [|c IH]; intros j s H; simpl; auto.
  rewrite H by lia. destruct (body' j s); simpl; auto.
  apply IH. intros. apply H. lia.
Qed.

(* an invariant carried through a loop whose body never faults under it *)
Lemma for_loop_inv {S} (I : Z -> S -> Prop) cnt j (body : Z -> S -> res S) s :
  I j s ->
  (forall i s, j <= i < j + Z.of_nat cnt -> I i s ->
               exists s', body i s = Ok s' /\ I (i + 1) s') ->
  exists s', for_loop cnt j body s = Ok s' /\ I (j + Z.of_nat cnt) s'.
Proof.
  revert j s. induction cnt as [|c IH]; intros j s H0 Hstep.
  - exists s. simpl. replace (j + 0) with j by lia. split; [reflexivity | assumption].
  - cbn [for_loop]. destruct (Hstep j s ltac:(lia) H0) as [s1 [E1 I1]].
    rewrite E1. cbn [bind].
    assert (Hstep' : forall i s, j + 1 <= i < j + 1 + Z.of_nat c -> I i s ->
                          exists s', body i s = Ok s' /\ I (i + 1) s')
      by (intros; apply Hstep; auto; lia).
    destruct (IH (j + 1) s1 I1 Hstep') as [s' [E' I']].
    exists s'. split; auto.
    replace (j + Z.of_nat (Datatypes.S c)) with (j + 1 + Z.of_nat c) by lia. auto.
Qed.

Lemma for_range_inv {S} (I : Z -> S -> Prop) lo hi (body : Z -> S -> res S) s :
  lo <= hi ->
  I lo s ->
  (forall i s, lo <= i < hi -> I i s -> exists s', body i s = Ok s' /\ I (i + 1) s') ->
  exists s', for_range lo hi body s = Ok s' /\ I hi s'.
Proof.
  intros Hle H0 Hstep. unfold for_range.
  assert (Hstep' : forall i s, lo <= i < lo + Z.of_nat (Z.to_nat (hi - lo)) -> I i s ->
                        exists s', body i s = Ok s' /\ I (i + 1) s')
    by (intros; apply Hstep; auto; lia).
  destruct (for_loop_inv I (Z.to_nat (hi - lo)) lo body s H0 Hstep') as [s' [E I']].
  exists s'. split; auto.
  replace (lo + Z.of_nat (Z.to_nat (hi - lo))) with hi in I' by lia. auto.
Qed.

Lemma for_range_empty {S} lo hi (body : Z -> S -> res S) s :
  hi <= lo -> for_range lo hi body s = Ok s.
Proof.
  intros H. unfold for_range. replace (Z.to_nat (hi - lo)) with O by lia. reflexivity.
Qed.

Lemma for_range_first {S} lo hi (body : Z -> S -> res S) s :
  lo < hi -> for_range lo hi body s = (s' <- body lo s ;; for_range (lo + 1) hi body s').
Proof.
  intros H. unfold for_range.
  replace (Z.to_nat (hi - lo)) with (Datatypes.S (Z.to_nat (hi - (lo + 1)))) by lia.
  reflexivity.
Qed.

Lemma for_range_last {S} lo hi (body : Z -> S -> res S) s :
  lo < hi -> for_range lo hi body s = (s' <- for_range lo (hi - 1) body s ;; body (hi - 1) s').
Proof.
  intros H. unfold for_range.
  replace (Z.to_nat (hi - lo)) with (Datatypes.S (Z.to_nat (hi - 1 - lo))) by lia.
  rewrite for_loop_snoc.
  replace (lo + Z.of_nat (Z.to_nat (hi - 1 - lo))) with (hi - 1) by lia. reflexivity.
Qed.

Lemma ins_length {A} pos (x : A) s : length (ins pos x s) = S (length s).
Proof.
  unfold ins. rewrite length_app. simpl.
  rewrite <- (firstn_skipn pos s) at 3. rewrite length_app. lia.
Qed.

Lemma ins_perm {A} pos (x : A) s : Permutation (ins pos x s) (x :: s).
Proof.
  unfold ins. symmetry. rewrite <- (firstn_skipn pos s) at 1.
  apply Permutation_middle.
Qed.

Lemma ins_app {A} (l1 l2 : list A) x : ins (length l1) x (l1 ++ l2) = l1 ++ x :: l2.
Proof.
  unfold ins. rewrite firstn_app, skipn_app, Nat.sub_diag, firstn_all, skipn_all.
  simpl. now rewrite app_nil_r.
Qed.

Lemma ins_0 {A} (x : A) s : ins 0 x s = x :: s.
Proof. reflexivity. Qed.

Lemma ins_end {A} (x : A) s : ins (length s) x s = s ++ [x].
Proof. unfold ins. now rewrite firstn_all, skipn_all. Qed.

Lemma ins_at_end {A} p (x : A) s : length s = p -> ins p x s = s ++ [x].
Proof. intros <-. apply ins_end. Qed.

Lemma map_ins {A B} (f : A -> B) pos x s : map f (ins pos x s) = ins pos (f x) (map f s).
Proof. unfold ins. now rewrite map_app, firstn_map, skipn_map. Qed.

Lemma split_at {A} (s : list A) i :
  (i < length s)%nat -> exists pre a post, s = pre ++ a :: post /\ length pre = i.
Proof.
  intros H. destruct (nth_error s i) eqn:E.
  - apply nth_error_split in E. destruct E as [l1 [l2 [E1 E2]]]. eauto.
  - apply nth_error_None in E. lia.
Qed.

(** *** The largest mobile integer *)

Lemma lmax_nonneg l : 0 <= lmax l.
Proof. induction l; simpl; lia. Qed.

Lemma lmax_ge l m : In m l -> m <= lmax l.
Proof.
  induction l as [|a l IH]; simpl; [tauto|]. intros [->|H]; [lia|]. specialize (IH H). lia.
Qed.

Lemma lmax_le l b : 0 <= b -> (forall x, In x l -> x <= b) -> lmax l <= b.
Proof.
  intros Hb. induction l as [|a l IH]; simpl; intros H; [lia|].
  assert (a <= b) by (apply H; auto). assert (lmax l <= b) by (apply IH; auto). lia.
Qed.

Lemma lmax_in l : l <> [] -> (forall x, In x l -> 0 < x) -> In (lmax l) l.
Proof.
  induction l as [|a l IH]; [congruence|]. intros _ Hpos. simpl.
  destruct l as [|b l'].
  - left. simpl. assert (0 < a) by (apply Hpos; simpl; auto). lia.
  - destruct (Z.max_spec a (lmax (b :: l'))) as [[_ E]|[_ E]]; rewrite E.
    + right. apply IH; [discriminate|]. intros; apply Hpos; simpl; auto.
    + auto.
Qed.

Lemma mobiles_vals prev l m : In m (mobiles prev l) -> In m (vals l).
Proof.
  revert prev. induction l as [|[v d] rest IH]; simpl; intros prev H; auto.
  apply in_app_or in H. destruct H as [H|H].
  - destruct (is_mobile prev v d rest); simpl in H; tauto.
  - right. eapply IH; eauto.
Qed.

Lemma mobiles_app_left prev pre u du v post :
  u < v -> In v (mobiles prev (pre ++ (u, du) :: (v, LEFT) :: post)).
Proof.
  intros Huv. revert prev. induction pre as [|[a da] pre IH]; intros prev.
  - simpl. apply in_or_app. right. apply in_or_app. left.
    unfold is_mobile. simpl. destruct (Z.gtb_spec v u); [simpl; auto | lia].
  - simpl. apply in_or_app. right. apply IH.
Qed.

Lemma mobiles_app_right prev pre v d w dw post :
  d <> LEFT -> w < v -> In v (mobiles prev (pre ++ (v, d) :: (w, dw) :: post)).
Proof.
  intros Hd Hwv. revert prev. induction pre as [|[a da] pre IH]; intros prev.
  - simpl. apply in_or_app. left.
    unfold is_mobile. destruct (Z.eqb_spec d LEFT); [congruence|].
    destruct (Z.gtb_spec v w); [simpl; auto | lia].
  - simpl. apply in_or_app. right. apply IH.
Qed.

(* an integer larger than all others, put at the left end and looking left,
   changes nothing for the others *)
Lemma mobiles_cons_big N s :
  (forall v, In v (vals s) -> v < N) ->
  mobiles None ((N, LEFT) :: s) = mobiles None s.
Proof.
  intros Hs. simpl. destruct s as [|[v d] rest]; [reflexivity|].
  simpl. f_equal. unfold is_mobile. destruct (d =? LEFT); auto.
  assert (v < N) by (apply Hs; simpl; auto).
  destruct (Z.gtb_spec v N); [lia | reflexivity].
Qed.

Lemma mobiles_snoc_big prev N d s :
  d <> LEFT ->
  (forall v, In v (vals s) -> v < N) ->
  mobiles prev (s ++ [(N, d)]) = mobiles prev s.
Proof.
  intros Hd. revert prev. induction s as [|[v dv] rest IH]; intros prev Hs.
  - simpl. unfold is_mobile. destruct (Z.eqb_spec d LEFT); [congruence | reflexivity].
  - simpl. rewrite IH by (intros; apply Hs; simpl; auto). f_equal.
    unfold is_mobile. destruct (dv =? LEFT); auto.
    destruct rest as [|[w dw] rest']; simpl; auto.
    assert (v < N) by (apply Hs; simpl; auto).
    destruct (Z.gtb_spec v N); [lia | reflexivity].
Qed.

Lemma mobile_not_stuck_left m rest :
  NoDup (vals ((m, LEFT) :: rest)) -> ~ In m (mobiles None ((m, LEFT) :: rest)).
Proof.
  intros Hnd H. simpl in H. unfold is_mobile in H. simpl in H.
  apply mobiles_vals in H. simpl in Hnd. inversion Hnd; auto.
Qed.

Lemma mobiles_last_stuck prev s m d :
  d <> LEFT -> forall x, In x (mobiles prev (s ++ [(m, d)])) -> In x (vals s).
Proof.
  intros Hd. revert prev. induction s as [|[v dv] rest IH]; intros prev x H.
  - simpl in H. unfold is_mobile in H. destruct (Z.eqb_spec d LEFT); [congruence|].
    simpl in H. tauto.
  - simpl in H. apply in_app_or in H. destruct H as [H|H].
    + destruct (is_mobile prev v dv (rest ++ [(m, d)])); simpl in H; [|tauto].
      destruct H; [subst; simpl; auto | tauto].
    + right. eapply IH; eauto.
Qed.

(** *** Moving an integer *)

Lemma move_eq m a b rest :
  move m (a :: b :: rest)
  = if (fst b =? m) && (snd b =? LEFT) then b :: a :: rest
    else if (fst a =? m) && negb (snd a =? LEFT) then b :: a :: rest
    else a :: move m (b :: rest).
Proof. reflexivity. Qed.

Lemma move_decomp m pre a b post :
  ~ In m (vals pre) ->
  (fst b = m /\ snd b = LEFT /\ fst a <> m) \/ (fst a = m /\ snd a <> LEFT /\ fst b <> m) ->
  move m (pre ++ a :: b :: post) = pre ++ b :: a :: post.
Proof.
  intros Hpre Hab. induction pre as [|c pre IH].
  - simpl. destruct Hab as [(E1 & E2 & E3)|(E1 & E2 & E3)].
    + rewrite E1, E2, Z.eqb_refl. reflexivity.
    + destruct (Z.eqb_spec (fst b) m); [congruence|]. simpl.
      rewrite E1, Z.eqb_refl. destruct (Z.eqb_spec (snd a) LEFT); [congruence|]. reflexivity.
  - simpl in Hpre. apply Decidable.not_or in Hpre. destruct Hpre as [Hc Hpre].
    specialize (IH Hpre).
    change ((c :: pre) ++ a :: b :: post) with (c :: (pre ++ a :: b :: post)).
    destruct (pre ++ a :: b :: post) as [|e rest] eqn:E.
    + destruct pre; discriminate.
    + rewrite move_eq.
      assert (He : (fst e =? m) && (snd e =? LEFT) = false).
      { destruct pre as [|c' pre'].
        - simpl in E. inversion E; subst e rest.
          destruct Hab as [(E1 & E2 & E3)|(E1 & E2 & E3)].
          + destruct (Z.eqb_spec (fst a) m); [congruence | reflexivity].
          + destruct (Z.eqb_spec (snd a) LEFT); [congruence | apply andb_false_r].
        - simpl in E. inversion E; subst e rest. simpl in Hpre.
          destruct (Z.eqb_spec (fst c') m); [tauto | reflexivity]. }
      rewrite He. destruct (Z.eqb_spec (fst c) m); [congruence|]. cbn [andb].
      rewrite IH. reflexivity.
Qed.

Lemma move_cons m x s :
  fst x <> m ->
  (forall e rest, s = e :: rest -> ~ (fst e = m /\ snd e = LEFT)) ->
  move m (x :: s) = x :: move m s.
Proof.
  intros Hx Hs. destruct s as [|e rest]; [reflexivity|].
  rewrite move_eq.
  assert (He : (fst e =? m) && (snd e =? LEFT) = false).
  { specialize (Hs e rest eq_refl).
    destruct (Z.eqb_spec (fst e) m); destruct (Z.eqb_spec (snd e) LEFT); simpl; auto; tauto. }
  rewrite He. destruct (Z.eqb_spec (fst x) m); [congruence|]. reflexivity.
Qed.

Lemma move_snoc m x s :
  fst x <> m ->
  (forall s' e, s = s' ++ [e] -> ~ (fst e = m /\ snd e <> LEFT)) ->
  move m (s ++ [x]) = move m s ++ [x].
Proof.
  intros Hx. induction s as [|a s IH]; intros Hs; [reflexivity|].
  destruct s as [|b rest].
  - simpl. destruct (Z.eqb_spec (fst x) m); [congruence|]. simpl.
    specialize (Hs [] a eq_refl).
    destruct (Z.eqb_spec (fst a) m); destruct (Z.eqb_spec (snd a) LEFT); simpl; auto; tauto.
  - change ((a :: b :: rest) ++ [x]) with (a :: b :: (rest ++ [x])).
    rewrite (move_eq m a b (rest ++ [x])), (move_eq m a b rest).
    change (b :: rest ++ [x]) with ((b :: rest) ++ [x]). rewrite IH.
    + destruct ((fst b =? m) && (snd b =? LEFT)); [reflexivity|].
      destruct ((fst a =? m) && negb (snd a =? LEFT)); reflexivity.
    + intros s' e E. apply (Hs (a :: s') e). rewrite E. reflexivity.
Qed.

Lemma move_length m l : length (move m l) = length l.
Proof.
  remember (length l) as n eqn:E. revert l E.
  induction n as [|n IH]; intros l E.
  - destruct l; [reflexivity | discriminate].
  - destruct l as [|a [|b rest]]; [discriminate | simpl in *; lia |].
    rewrite move_eq.
    destruct ((fst b =? m) && (snd b =? LEFT)); [simpl in *; lia|].
    destruct ((fst a =? m) && negb (snd a =? LEFT)); [simpl in *; lia|].
    simpl in E. cbn [length]. rewrite (IH (b :: rest)); simpl; lia.
Qed.

Lemma move_perm m l : Permutation (move m l) l.
Proof.
  remember (length l) as n eqn:E. revert l E.
  induction n as [|n IH]; intros l E.
  - destruct l; [reflexivity | discriminate].
  - destruct l as [|a [|b rest]]; [discriminate | reflexivity |].
    rewrite move_eq.
    destruct ((fst b =? m) && (snd b =? LEFT)); [apply perm_swap|].
    destruct ((fst a =? m) && negb (snd a =? LEFT)); [apply perm_swap|].
    apply perm_skip. apply IH. simpl in *. lia.
Qed.

(** *** Reversing directions *)

Lemma flip_id m l : (forall v, In v (vals l) -> v <= m) -> flip m l = l.
Proof.
  intros H. unfold flip. rewrite <- (map_id l) at 2. apply map_ext_in.
  intros e He. assert (fst e <= m) by (apply H; unfold vals; apply in_map; auto).
  destruct (Z.gtb_spec (fst e) m); [lia | reflexivity].
Qed.

Lemma vals_flip m l : vals (flip m l) = vals l.
Proof.
  unfold vals, flip. rewrite map_map. apply map_ext. intros e.
  destruct (fst e >? m); reflexivity.
Qed.

Lemma flip_length m l : length (flip m l) = length l.
Proof. unfold flip. apply length_map. Qed.

Lemma astep_length l : length (astep l) = length l.
Proof. unfold astep. now rewrite flip_length, move_length. Qed.

Lemma astep_vals_perm l : Permutation (vals (astep l)) (vals l).
Proof.
  unfold astep. rewrite vals_flip. unfold vals. apply Permutation_map, move_perm.
Qed.

(** *** One step when the largest integer can move *)

Section Largest.

Variable N : Z.
Variable s_pre s_post : list elt.
Hypothesis pre_small : forall v, In v (vals s_pre) -> 0 < v < N.
Hypothesis post_small : forall v, In v (vals s_post) -> 0 < v < N.

Lemma astep_largest_left a :
  0 < fst a < N ->
  astep (s_pre ++ a :: (N, LEFT) :: s_post) = s_pre ++ (N, LEFT) :: a :: s_post.
Proof.
  intros Ha. unfold astep.
  assert (Hv : forall v, In v (vals (s_pre ++ a :: (N, LEFT) :: s_post)) -> 0 < v <= N).
  { intros v. unfold vals. rewrite map_app. simpl. rewrite in_app_iff. simpl.
    intros [H|[H|[H|H]]].
    - apply pre_small in H. lia.
    - lia.
    - lia.
    - apply post_small in H. lia. }
  assert (Hm : lmax (mobiles None (s_pre ++ a :: (N, LEFT) :: s_post)) = N).
  { apply Z.le_antisymm.
    - apply lmax_le; [lia|]. intros x Hx. apply mobiles_vals in Hx. apply Hv in Hx. lia.
    - apply lmax_ge. destruct a as [u du]. apply mobiles_app_left. simpl in Ha. lia. }
  rewrite Hm. rewrite move_decomp.
  - apply flip_id. intros v Hin.
    assert (0 < v <= N); [|lia]. apply Hv.
    unfold vals in *. rewrite map_app in *. simpl in *. rewrite in_app_iff in *. simpl in *.
    tauto.
  - intros H. apply pre_small in H. lia.
  - left. simpl. repeat split; lia.
Qed.

Lemma astep_largest_right b :
  0 < fst b < N ->
  astep (s_pre ++ (N, RIGHT) :: b :: s_post) = s_pre ++ b :: (N, RIGHT) :: s_post.
Proof.
  intros Hb. unfold astep.
  assert (Hv : forall v, In v (vals (s_pre ++ (N, RIGHT) :: b :: s_post)) -> 0 < v <= N).
  { intros v. unfold vals. rewrite map_app. simpl. rewrite in_app_iff. simpl.
    intros [H|[H|[H|H]]].
    - apply pre_small in H. lia.
    - lia.
    - lia.
    - apply post_small in H. lia. }
  assert (Hm : lmax (mobiles None (s_pre ++ (N, RIGHT) :: b :: s_post)) = N).
  { apply Z.le_antisymm.
    - apply lmax_le; [lia|]. intros x Hx. apply mobiles_vals in Hx. apply Hv in Hx. lia.
    - apply lmax_ge. destruct b as [w dw]. apply mobiles_app_right; [discriminate|].
      simpl in Hb. lia. }
  rewrite Hm. rewrite move_decomp.
  - apply flip_id. intros v Hin.
    assert (0 < v <= N); [|lia]. apply Hv.
    unfold vals in *. rewrite map_app in *. simpl in *. rewrite in_app_iff in *. simpl in *.
    tauto.
  - intros H. apply pre_small in H. lia.
  - right. simpl. repeat split; try lia. discriminate.
Qed.

End Largest.

(** *** One step when the largest integer is stuck at an end *)

Section Stuck.

Variable N : Z.
Variable s : list elt.
Hypothesis small : forall v, In v (vals s) -> 0 < v < N.
Hypothesis distinct : NoDup (vals s).
Hypothesis has_mobile : mobiles None s <> [].

Lemma lmax_mobile : In (lmax (mobiles None s)) (mobiles None s).
Proof.
  apply lmax_in; auto. intros x Hx. apply mobiles_vals in Hx. apply small in Hx. lia.
Qed.

Lemma lmax_small : 0 < lmax (mobiles None s) < N.
Proof. apply small. eapply mobiles_vals. apply lmax_mobile. Qed.

Lemma astep_stuck_left : astep ((N, LEFT) :: s) = (N, RIGHT) :: astep s.
Proof.
  unfold astep. rewrite mobiles_cons_big by (intros v Hv; apply small in Hv; lia).
  pose proof lmax_mobile as Hin. pose proof lmax_small as Hlt.
  set (m := lmax (mobiles None s)) in *.
  rewrite move_cons.
  - unfold flip. simpl. destruct (Z.gtb_spec N m); [reflexivity | lia].
  - simpl. lia.
  - intros [v d] rest E [E1 E2]. simpl in E1, E2. subst v d.
    apply (mobile_not_stuck_left m rest); rewrite <- E; auto.
Qed.

Lemma astep_stuck_right : astep (s ++ [(N, RIGHT)]) = astep s ++ [(N, LEFT)].
Proof.
  unfold astep.
  rewrite mobiles_snoc_big by (try discriminate; intros v Hv; apply small in Hv; lia).
  pose proof lmax_mobile as Hin. pose proof lmax_small as Hlt.
  set (m := lmax (mobiles None s)) in *.
  rewrite move_snoc.
  - unfold flip. rewrite map_app. simpl. destruct (Z.gtb_spec N m); [reflexivity | lia].
  - simpl. lia.
  - intros s' [v d] E [E1 E2]. simpl in E1, E2. subst v.
    rewrite E in Hin. apply mobiles_last_stuck in Hin; auto.
    rewrite E in distinct. unfold vals in distinct. rewrite map_app in distinct.
    simpl in distinct. apply NoDup_remove_2 in distinct. rewrite app_nil_r in distinct.
    auto.
Qed.

End Stuck.

(** *** Shape of the arrangements *)

Lemma sjt_length N t : length (sjt N t) = N.
Proof.
  revert t. induction N as [|N' IH]; intros t; [reflexivity|].
  cbn [sjt]. destruct (Nat.even (t / S N')); rewrite ins_length, IH; reflexivity.
Qed.

Lemma sjt_vals_perm N t : Permutation (vals (sjt N t)) (map Z.of_nat (seq 1 N)).
Proof.
  revert t. induction N as [|N' IH]; intros t; [reflexivity|].
  rewrite seq_S, map_app. simpl map at 2.
  rewrite <- Permutation_cons_append.
  cbn [sjt]. unfold vals in *.
  destruct (Nat.even (t / S N')); rewrite map_ins, ins_perm; simpl fst;
    apply perm_skip, IH.
Qed.

Lemma sjt_vals_range N t v : In v (vals (sjt N t)) -> 0 < v <= Z.of_nat N.
Proof.
  intros H. eapply Permutation_in in H; [|apply sjt_vals_perm].
  apply in_map_iff in H. destruct H as [x [<- Hx]]. apply in_seq in Hx. lia.
Qed.

Lemma sjt_NoDup N t : NoDup (vals (sjt N t)).
Proof.
  eapply Permutation_NoDup; [symmetry; apply sjt_vals_perm|].
  apply Finite.Injective_map_NoDup; [|apply seq_NoDup].
  intros x y. apply Nat2Z.inj.
Qed.

Lemma sjt_dirs N t e : In e (sjt N t) -> snd e = LEFT \/ snd e = RIGHT.
Proof.
  revert t e. induction N as [|N' IH]; intros t e; [simpl; tauto|].
  cbn [sjt]. intros H.
  assert (H' : exists d k, (d = LEFT \/ d = RIGHT) /\
                           In e ((Z.of_nat (S N'), d) :: sjt N' k)).
  { destruct (Nat.even (t / S N')); eapply Permutation_in in H; try apply ins_perm; eauto. }
  destruct H' as [d [k [Hd [<-|Hin]]]]; simpl; eauto.
Qed.

Lemma sjt_0 N : sjt N 0 = map (fun i => (Z.of_nat i, LEFT)) (seq 1 N).
Proof.
  induction N as [|N' IH]; [reflexivity|].
  cbn [sjt]. rewrite Nat.Div0.div_0_l, Nat.Div0.mod_0_l. cbn [Nat.even].
  rewrite Nat.sub_0_r, IH, seq_S, map_app.
  rewrite <- (length_seq N' 1) at 1. rewrite <- (length_map (fun i => (Z.of_nat i, LEFT))).
  rewrite ins_end. reflexivity.
Qed.

(** *** The enumeration follows the recursive description *)

Lemma sjt_S N' t :
  sjt (S N') t
  = if Nat.even (t / S N')
    then ins (N' - t mod S N') (Z.of_nat (S N'), LEFT) (sjt N' (t / S N'))
    else ins (t mod S N') (Z.of_nat (S N'), RIGHT) (sjt N' (t / S N')).
Proof. reflexivity. Qed.

Lemma fact_pos n : (0 < fact n)%nat.
Proof. pose proof (fact_neq_0 n). lia. Qed.

Theorem sjt_step N t :
  (t + 1 < fact N)%nat ->
  mobiles None (sjt N t) <> [] /\ astep (sjt N t) = sjt N (S t).
Proof.
  revert t. induction N as [|N' IH]; intros t Ht; [simpl in Ht; lia|].
  set (n := S N') in *.
  assert (Hn : (n <> 0)%nat) by (unfold n; lia).
  pose proof (Nat.div_mod_eq t n) as Ediv.
  pose proof (Nat.mod_upper_bound t n Hn) as Hr.
  set (k := (t / n)%nat) in *. set (r := (t mod n)%nat) in *.
  assert (Hfact : fact n = (n * fact N')%nat) by reflexivity.
  assert (Hk : (k < fact N')%nat) by (unfold n in *; nia).
  pose proof (sjt_length N' k) as Hlen.
  assert (Hsmall : forall v, In v (vals (sjt N' k)) -> 0 < v < Z.of_nat n).
  { intros v Hv. apply sjt_vals_range in Hv. unfold n. lia. }
  pose proof (sjt_NoDup N' k) as Hnd.
  unfold n. rewrite !sjt_S. fold n. fold k. fold r.
  destruct (Nat.eq_dec r N') as [Er|Er].
  - (* the largest integer is stuck: the others make a step *)
    assert (Ek' : (S t / n = S k)%nat).
    { symmetry. apply (Nat.div_unique (S t) n (S k) 0); unfold n in *; lia. }
    assert (Er' : (S t mod n = 0)%nat).
    { symmetry. apply (Nat.mod_unique (S t) n (S k) 0); unfold n in *; lia. }
    rewrite Ek', Er'. rewrite Nat.even_succ, <- Nat.negb_even.
    assert (Hk' : (k + 1 < fact N')%nat) by (unfold n in *; nia).
    destruct (IH k Hk') as [Hmob Hstep].
    destruct (Nat.even k); cbn [negb].
    + rewrite Er, Nat.sub_diag, ins_0. split.
      * rewrite mobiles_cons_big by (intros v Hv; apply Hsmall in Hv; lia). auto.
      * rewrite (astep_stuck_left _ _ Hsmall Hnd Hmob), Hstep. reflexivity.
    + rewrite !(ins_at_end r) by lia. split.
      * rewrite mobiles_snoc_big
          by (try discriminate; intros v Hv; apply Hsmall in Hv; lia). auto.
      * rewrite (astep_stuck_right _ _ Hsmall Hnd Hmob), Hstep.
        rewrite ins_at_end by (rewrite sjt_length; lia). reflexivity.
  - (* the largest integer moves *)
    assert (Ek' : (S t / n = k)%nat).
    { symmetry. apply (Nat.div_unique (S t) n k (S r)); unfold n in *; lia. }
    assert (Er' : (S t mod n = S r)%nat).
    { symmetry. apply (Nat.mod_unique (S t) n k (S r)); unfold n in *; lia. }
    rewrite Ek', Er'.
    destruct (Nat.even k).
    + (* leftwards, from position N' - r to N' - r - 1 *)
      destruct (split_at (sjt N' k) (N' - S r)) as [pre [a [post [E Epre]]]];
        [unfold n in *; lia|].
      assert (E1 : ins (N' - r) (Z.of_nat n, LEFT) (sjt N' k)
                   = pre ++ a :: (Z.of_nat n, LEFT) :: post).
      { rewrite E. replace (N' - r)%nat with (length (pre ++ [a]))
          by (rewrite length_app; simpl; unfold n in *; lia).
        replace (pre ++ a :: post) with ((pre ++ [a]) ++ post)
          by (rewrite <- app_assoc; reflexivity).
        rewrite ins_app, <- app_assoc. reflexivity. }
      assert (E2 : ins (N' - S r) (Z.of_nat n, LEFT) (sjt N' k)
                   = pre ++ (Z.of_nat n, LEFT) :: a :: post).
      { rewrite E, <- Epre. apply ins_app. }
      rewrite E1, E2.
      assert (Hpre : forall v, In v (vals pre) -> 0 < v < Z.of_nat n).
      { intros v Hv. apply Hsmall. rewrite E. unfold vals in *. rewrite map_app.
        apply in_or_app. auto. }
      assert (Hpost : forall v, In v (vals post) -> 0 < v < Z.of_nat n).
      { intros v Hv. apply Hsmall. rewrite E. unfold vals in *. rewrite map_app.
        apply in_or_app. right. simpl. auto. }
      assert (Ha : 0 < fst a < Z.of_nat n).
      { apply Hsmall. rewrite E. unfold vals. rewrite map_app.
        apply in_or_app. right. simpl. auto. }
      split.
      * intros Hnil. destruct a as [u du].
        pose proof (mobiles_app_left None pre u du (Z.of_nat n) post ltac:(simpl in Ha; lia)) as Hin.
        rewrite Hnil in Hin. destruct Hin.
      * apply astep_largest_left; auto.
    + (* rightwards, from position r to r + 1 *)
      destruct (split_at (sjt N' k) r) as [pre [b [post [E Epre]]]];
        [unfold n in *; lia|].
      assert (E1 : ins r (Z.of_nat n, RIGHT) (sjt N' k)
                   = pre ++ (Z.of_nat n, RIGHT) :: b :: post).
      { rewrite E, <- Epre. apply ins_app. }
      assert (E2 : ins (S r) (Z.of_nat n, RIGHT) (sjt N' k)
                   = pre ++ b :: (Z.of_nat n, RIGHT) :: post).
      { rewrite E. replace (S r) with (length (pre ++ [b]))
          by (rewrite length_app; simpl; lia).
        replace (pre ++ b :: post) with ((pre ++ [b]) ++ post)
          by (rewrite <- app_assoc; reflexivity).
        rewrite ins_app, <- app_assoc. reflexivity. }
      rewrite E1, E2.
      assert (Hpre : forall v, In v (vals pre) -> 0 < v < Z.of_nat n).
      { intros v Hv. apply Hsmall. rewrite E. unfold vals in *. rewrite map_app.
        apply in_or_app. auto. }
      assert (Hpost : forall v, In v (vals post) -> 0 < v < Z.of_nat n).
      { intros v Hv. apply Hsmall. rewrite E. unfold vals in *. rewrite map_app.
        apply in_or_app. right. simpl. auto. }
      assert (Hb : 0 < fst b < Z.of_nat n).
      { apply Hsmall. rewrite E. unfold vals. rewrite map_app.
        apply in_or_app. right. simpl. auto. }
      split.
      * intros Hnil. destruct b as [w dw].
        pose proof (mobiles_app_right None pre (Z.of_nat n) RIGHT w dw post
                      ltac:(discriminate) ltac:(simpl in Hb; lia)) as Hin.
        rewrite Hnil in Hin. destruct Hin.
      * apply astep_largest_right; auto.
Qed.

Corollary sjt_iter N t :
  (t < fact N)%nat -> Nat.iter t astep (sjt N 0) = sjt N t.
Proof.
  induction t as [|t IH]; intros Ht; [reflexivity|].
  simpl. rewrite IH by lia. apply sjt_step. lia.
Qed.

(** *** Every arrangement is reached exactly once *)

Lemma app_pivot_inj {A} (x : A) l1 l2 l1' l2' :
  ~ In x l1 -> ~ In x l1' ->
  l1 ++ x :: l2 = l1' ++ x :: l2' -> l1 = l1' /\ l2 = l2'.
Proof.
  revert l1'. induction l1 as [|a l1 IH]; intros [|a' l1'] H1 H2 E; simpl in *.
  - inversion E. auto.
  - inversion E; subst. tauto.
  - inversion E; subst. tauto.
  - inversion E; subst. destruct (IH l1') as [-> ->]; auto.
Qed.

Lemma ins_inj {A} (x : A) p q s s' :
  ~ In x s -> ~ In x s' -> (p <= length s)%nat -> (q <= length s')%nat ->
  ins p x s = ins q x s' -> p = q /\ s = s'.
Proof.
  intros Hs Hs' Hp Hq E. unfold ins in E.
  apply app_pivot_inj in E.
  - destruct E as [E1 E2].
    assert (p = q).
    { apply (f_equal (@length A)) in E1. rewrite !length_firstn in E1. lia. }
    split; auto. subst q.
    rewrite <- (firstn_skipn p s), <- (firstn_skipn p s'). congruence.
  - intros H. apply Hs. rewrite <- (firstn_skipn p s). apply in_or_app. auto.
  - intros H. apply Hs'. rewrite <- (firstn_skipn q s'). apply in_or_app. auto.
Qed.

Lemma sjt_top_fresh N' k : ~ In (Z.of_nat (S N')) (vals (sjt N' k)).
Proof. intros H. apply sjt_vals_range in H. lia. Qed.

Lemma vals_sjt_S N' t :
  vals (sjt (S N') t)
  = ins (if Nat.even (t / S N') then N' - t mod S N' else t mod S N')%nat
        (Z.of_nat (S N')) (vals (sjt N' (t / S N'))).
Proof.
  rewrite sjt_S. unfold vals.
  destruct (Nat.even (t / S N')); rewrite map_ins; reflexivity.
Qed.

Theorem sjt_injective N t1 t2 :
  (t1 < fact N)%nat -> (t2 < fact N)%nat ->
  vals (sjt N t1) = vals (sjt N t2) -> t1 = t2.
Proof.
  revert t1 t2. induction N as [|N' IH]; intros t1 t2 H1 H2 E; [simpl in *; lia|].
  rewrite !vals_sjt_S in E.
  pose proof (Nat.div_mod_eq t1 (S N')) as D1.
  pose proof (Nat.div_mod_eq t2 (S N')) as D2.
  pose proof (Nat.mod_upper_bound t1 (S N') ltac:(lia)) as R1.
  pose proof (Nat.mod_upper_bound t2 (S N') ltac:(lia)) as R2.
  assert (Hf : fact (S N') = (S N' * fact N')%nat) by reflexivity.
  set (k1 := (t1 / S N')%nat) in *. set (k2 := (t2 / S N')%nat) in *.
  set (r1 := (t1 mod S N')%nat) in *. set (r2 := (t2 mod S N')%nat) in *.
  assert (K1 : (k1 < fact N')%nat) by nia.
  assert (K2 : (k2 < fact N')%nat) by nia.
  apply ins_inj in E; try apply sjt_top_fresh;
    try (unfold vals; rewrite length_map, sjt_length;
         match goal with |- context [Nat.even ?k] => destruct (Nat.even k) end; lia).
  destruct E as [Ep Es]. apply IH in Es; auto.
  rewrite Es in Ep. destruct (Nat.even k2); nia.
Qed.

Theorem sjt_surjective N pi :
  Permutation pi (map Z.of_nat (seq 1 N)) ->
  exists t, (t < fact N)%nat /\ vals (sjt N t) = pi.
Proof.
  revert pi. induction N as [|N' IH]; intros pi Hp.
  - simpl in Hp. symmetry in Hp. apply Permutation_nil in Hp. subst.
    exists 0%nat. simpl. auto.
  - rewrite seq_S, map_app in Hp. simpl map in Hp at 2.
    rewrite <- Permutation_cons_append in Hp.
    set (x := Z.of_nat (S N')) in *.
    assert (Hin : In x pi) by (eapply Permutation_in; [symmetry; eauto | simpl; auto]).
    apply in_split in Hin. destruct Hin as [l1 [l2 ->]].
    symmetry in Hp. apply Permutation_cons_app_inv in Hp. symmetry in Hp.
    destruct (IH _ Hp) as [k [Hk Ek]].
    assert (Hlen : (length l1 <= N')%nat).
    { apply (f_equal (@length Z)) in Ek. unfold vals in Ek.
      rewrite length_map, sjt_length, length_app in Ek. lia. }
    set (r := if Nat.even k then (N' - length l1)%nat else length l1).
    assert (Hr : (r < S N')%nat) by (unfold r; destruct (Nat.even k); lia).
    exists (S N' * k + r)%nat.
    assert (Ediv : ((S N' * k + r) / S N' = k)%nat).
    { symmetry. apply (Nat.div_unique _ (S N') k r); lia. }
    assert (Emod : ((S N' * k + r) mod S N' = r)%nat).
    { symmetry. apply (Nat.mod_unique _ (S N') k r); lia. }
    split.
    + change (fact (S N')) with (S N' * fact N')%nat. nia.
    + rewrite vals_sjt_S, Ediv, Emod, Ek. fold x.
      replace (if Nat.even k then (N' - r)%nat else r) with (length l1)
        by (unfold r; destruct (Nat.even k); lia).
      apply ins_app.
Qed.

(** *** The first half of the enumeration: 1 stands before 2 *)

Lemma low12_ins pos x s : 2 < x -> low12 (ins pos x s) = low12 s.
Proof.
  intros Hx. unfold low12, ins. rewrite filter_app. simpl.
  destruct (Z.leb_spec x 2); [lia|]. rewrite <- filter_app, firstn_skipn. reflexivity.
Qed.

Lemma fact_even n : (2 <= n)%nat -> fact n = (2 * (fact n / 2))%nat.
Proof.
  intros H. induction n as [|n IH]; [lia|].
  destruct (Nat.eq_dec n 1) as [->|Hn]; [reflexivity|].
  specialize (IH ltac:(lia)).
  change (fact (S n)) with (S n * fact n)%nat.
  rewrite IH at 1 2.
  replace (S n * (2 * (fact n / 2)))%nat with ((S n * (fact n / 2)) * 2)%nat by lia.
  rewrite Nat.div_mul by lia. lia.
Qed.

Theorem sjt_first_half N t :
  (2 <= N)%nat -> (t < fact N)%nat ->
  low12 (vals (sjt N t)) = if (t <? fact N / 2)%nat then [1; 2] else [2; 1].
Proof.
  revert t. induction N as [|N' IH]; intros t HN Ht; [lia|].
  destruct (Nat.eq_dec N' 1) as [->|HN'].
  - change (fact 2) with 2%nat in *.
    assert (t = 0 \/ t = 1)%nat as [-> | ->] by lia; reflexivity.
  - assert (HN2 : (2 <= N')%nat) by lia.
    rewrite vals_sjt_S, low12_ins by lia.
    pose proof (Nat.div_mod_eq t (S N')) as D.
    pose proof (Nat.mod_upper_bound t (S N') ltac:(lia)) as R.
    assert (Hf : fact (S N') = (S N' * fact N')%nat) by reflexivity.
    pose proof (fact_even N' HN2) as Hev.
    set (k := (t / S N')%nat) in *. set (M := (fact N' / 2)%nat) in *.
    rewrite IH by (auto; nia).
    assert (Hhalf : (fact (S N') / 2 = S N' * M)%nat).
    { rewrite Hf, Hev. replace (S N' * (2 * M))%nat with ((S N' * M) * 2)%nat by lia.
      apply Nat.div_mul. lia. }
    rewrite Hhalf.
    destruct (Nat.ltb_spec k M); destruct (Nat.ltb_spec t (S N' * M)); auto; nia.
Qed.

Lemma low12_rev l : low12 (rev l) = rev (low12 l).
Proof. unfold low12. apply filter_rev. Qed.

Lemma rd_app_at {A} (l1 l2 : list A) x i :
  i = Z.of_nat (length l1) -> rd (l1 ++ x :: l2) i = Ok x.
Proof. intros ->. apply rd_app_here. Qed.

Lemma rd_app_next {A} (l1 l2 : list A) a x i :
  i = Z.of_nat (length l1) + 1 -> rd (l1 ++ a :: x :: l2) i = Ok x.
Proof.
  intros ->. replace (l1 ++ a :: x :: l2) with ((l1 ++ [a]) ++ x :: l2)
    by (rewrite <- app_assoc; reflexivity).
  apply rd_app_at. rewrite length_app. simpl. lia.
Qed.

Lemma wr_app_at {A} (l1 l2 : list A) x y i :
  i = Z.of_nat (length l1) -> wr (l1 ++ y :: l2) i x = Ok (l1 ++ x :: l2).
Proof.
  intros ->. rewrite wr_Ok by (rewrite length_app; simpl; lia).
  rewrite Nat2Z.id, upd_app_here. reflexivity.
Qed.

Lemma wr_app_next {A} (l1 l2 : list A) a x y i :
  i = Z.of_nat (length l1) + 1 ->
  wr (l1 ++ a :: y :: l2) i x = Ok (l1 ++ a :: x :: l2).
Proof.
  intros ->. replace (l1 ++ a :: y :: l2) with ((l1 ++ [a]) ++ y :: l2)
    by (rewrite <- app_assoc; reflexivity).
  rewrite (wr_app_at (l1 ++ [a])) by (rewrite length_app; simpl; lia).
  rewrite <- app_assoc. reflexivity.
Qed.

Lemma last_val_snoc pre v d : last_val (pre ++ [(v, d)]) = Some v.
Proof.
  unfold last_val, vals. rewrite !map_app. simpl. apply last_last.
Qed.

(** *** The search loop *)

Lemma find_mobile_scan l :
  dirs_ok l ->
  forall suf pre lm lmi,
    l = pre ++ suf ->
    for_loop (length suf) (Z.of_nat (length pre) + 1)
      (fun j st =>
         let '(largestMobile, largestMobileIndex) := st in
         dj <- rd (d_of l) j ;;
         if negb ((j =? 1) && (dj =? LEFT))
            && negb ((j =? Z.of_nat (length l) + 1 - 1) && (dj =? RIGHT)) then
           pj <- rd (p_of l) j ;;
           pn <- rd (p_of l) (j + dj) ;;
           if (pj >? pn) && (pj >? largestMobile) then Ok (pj, Some j) else Ok st
         else Ok st) (lm, lmi)
    = Ok (scan (last_val pre) suf (Z.of_nat (length pre) + 1) (lm, lmi)).
Proof.
  intros Hd. induction suf as [|[v d] rest IH]; intros pre lm lmi E; [reflexivity|].
  cbn [length for_loop scan].
  set (j := Z.of_nat (length pre) + 1).
  assert (Edj : rd (d_of l) j = Ok d).
  { unfold d_of, dirs. rewrite E, map_app. simpl map.
    change (LEFT :: map snd pre ++ d :: map snd rest)
      with ((LEFT :: map snd pre) ++ d :: map snd rest).
    apply rd_app_at. simpl length. rewrite length_map. lia. }
  assert (Epj : rd (p_of l) j = Ok v).
  { unfold p_of, vals. rewrite E, map_app. simpl map.
    change (0 :: map fst pre ++ v :: map fst rest)
      with ((0 :: map fst pre) ++ v :: map fst rest).
    apply rd_app_at. simpl length. rewrite length_map. lia. }
  assert (Hlen : Z.of_nat (length l) = Z.of_nat (length pre) + 1 + Z.of_nat (length rest)).
  { rewrite E, length_app. simpl. lia. }
  assert (Hvd : d = LEFT \/ d = RIGHT).
  { apply (Hd (v, d)). rewrite E. apply in_or_app. simpl. auto. }
  assert (Hbody :
    (dj <- rd (d_of l) j ;;
     if negb ((j =? 1) && (dj =? LEFT))
        && negb ((j =? Z.of_nat (length l) + 1 - 1) && (dj =? RIGHT)) then
       pj <- rd (p_of l) j ;;
       pn <- rd (p_of l) (j + dj) ;;
       if (pj >? pn) && (pj >? lm) then Ok (pj, Some j) else Ok (lm, lmi)
     else Ok (lm, lmi))
    = Ok (if is_mobile (last_val pre) v d rest && (v >? fst (lm, lmi))
          then (v, Some j) else (lm, lmi))).
  { rewrite Edj. cbn [bind]. destruct Hvd as [-> | ->].
    - (* looking left *)
      change (LEFT =? LEFT) with true. change (LEFT =? RIGHT) with false.
      rewrite andb_false_r, andb_true_r. cbn [negb andb].
      unfold is_mobile. change (LEFT =? LEFT) with true. cbn iota.
      destruct (rev pre) as [|[u du] pre'] eqn:Erev.
      + assert (pre = []) by (apply (f_equal (@rev _)) in Erev; rewrite rev_involutive in Erev; auto).
        subst pre. unfold j. simpl. reflexivity.
      + assert (Epre : pre = rev pre' ++ [(u, du)])
          by (apply (f_equal (@rev _)) in Erev; rewrite rev_involutive in Erev; auto).
        rewrite Epre, last_val_snoc.
        destruct (Z.eqb_spec j 1) as [Ej|Ej].
        { unfold j in Ej. rewrite Epre, length_app in Ej. simpl in Ej. lia. }
        cbn [negb]. rewrite Epj. cbn [bind].
        assert (Epn : rd (p_of l) (j + LEFT) = Ok u).
        { unfold p_of, vals. rewrite E, Epre, !map_app. simpl map.
          rewrite <- app_assoc.
          change (0 :: map fst (rev pre') ++ [u] ++ v :: map fst rest)
            with ((0 :: map fst (rev pre')) ++ u :: v :: map fst rest).
          apply rd_app_at. unfold j, LEFT. rewrite Epre, length_app. simpl length.
          rewrite length_map. lia. }
        rewrite Epn. cbn [bind fst negb andb].
        destruct ((v >? u) && (v >? lm)); reflexivity.
    - (* looking right *)
      change (RIGHT =? LEFT) with false. change (RIGHT =? RIGHT) with true.
      rewrite andb_false_r, andb_true_r. cbn [negb andb].
      unfold is_mobile. change (RIGHT =? LEFT) with false. cbn iota.
      destruct rest as [|[w dw] rest'].
      + destruct (Z.eqb_spec j (Z.of_nat (length l) + 1 - 1)) as [Ej|Ej].
        * reflexivity.
        * exfalso. apply Ej. unfold j. rewrite Hlen. simpl. lia.
      + destruct (Z.eqb_spec j (Z.of_nat (length l) + 1 - 1)) as [Ej|Ej].
        { unfold j in Ej. rewrite Hlen in Ej. simpl length in Ej. lia. }
        cbn [negb]. rewrite Epj. cbn [bind].
        assert (Epn : rd (p_of l) (j + RIGHT) = Ok w).
        { unfold p_of, vals. rewrite E, !map_app. simpl map.
          change (0 :: map fst pre ++ v :: w :: map fst rest')
            with ((0 :: map fst pre) ++ v :: w :: map fst rest').
          apply rd_app_next. unfold j, RIGHT. simpl length. rewrite length_map. lia. }
        rewrite Epn. cbn [bind fst negb andb].
        destruct ((v >? w) && (v >? lm)); reflexivity. }
  rewrite Hbody. cbn [bind].
  specialize (IH (pre ++ [(v, d)])). rewrite length_app in IH. simpl length in IH.
  replace (Z.of_nat (length pre + 1) + 1) with (j + 1) in IH by (unfold j; lia).
  rewrite last_val_snoc in IH.
  destruct (is_mobile (last_val pre) v d rest && (v >? fst (lm, lmi)));
    apply IH; rewrite <- app_assoc; auto.
Qed.

Lemma lmax_cons x l : lmax (x :: l) = Z.max x (lmax l).
Proof. reflexivity. Qed.

Lemma scan_fst prev suf j st :
  0 <= fst st ->
  fst (scan prev suf j st) = Z.max (fst st) (lmax (mobiles prev suf)).
Proof.
  revert prev j st. induction suf as [|[v d] rest IH]; intros prev j st Hst.
  - simpl. lia.
  - cbn [scan mobiles]. pose proof (lmax_nonneg (mobiles (Some v) rest)) as Hnn.
    destruct (is_mobile prev v d rest); cbn [andb app].
    + rewrite lmax_cons. destruct (Z.gtb_spec v (fst st)).
      * rewrite IH by (simpl; lia). simpl fst. lia.
      * rewrite IH by lia. lia.
    + rewrite IH by lia. reflexivity.
Qed.

(* either nothing was assigned, or the index variable holds the place of the
   value in largestMobile *)
Lemma scan_snd prev suf j lm lmi :
  let r := scan prev suf j (lm, lmi) in
  (r = (lm, lmi)) \/
  (lm < fst r /\ exists k, snd r = Some (j + Z.of_nat k)
                           /\ nth_error (vals suf) k = Some (fst r)).
Proof.
  revert prev j lm lmi. induction suf as [|[v d] rest IH]; intros prev j lm lmi.
  - left. reflexivity.
  - cbn [scan fst].
    destruct (is_mobile prev v d rest && (v >? lm)) eqn:Eb.
    + right. apply andb_true_iff in Eb. destruct Eb as [_ Hgt].
      apply Z.gtb_lt in Hgt.
      destruct (IH (Some v) (j + 1) v (Some j)) as [E | [Hlt [k [E1 E2]]]].
      * rewrite E. simpl. split; [lia|]. exists 0%nat. split; [f_equal; lia | reflexivity].
      * split; [lia|]. exists (S k). split; [rewrite E1; f_equal; lia | exact E2].
    + destruct (IH (Some v) (j + 1) lm lmi) as [E | [Hlt [k [E1 E2]]]].
      * left. exact E.
      * right. split; [lia|]. exists (S k). split; [rewrite E1; f_equal; lia | exact E2].
Qed.

Lemma mobiles_decomp prev l m :
  In m (mobiles prev l) ->
  (exists u rest, prev = Some u /\ u < m /\ l = (m, LEFT) :: rest) \/
  (exists pre a b post,
      l = pre ++ a :: b :: post /\
      ((fst b = m /\ snd b = LEFT /\ fst a < m) \/
       (fst a = m /\ snd a <> LEFT /\ fst b < m))).
Proof.
  revert prev. induction l as [|[v d] rest IH]; intros prev H; [destruct H|].
  cbn [mobiles] in H. apply in_app_or in H. destruct H as [H|H].
  - destruct (is_mobile prev v d rest) eqn:Em; [|destruct H].
    destruct H as [<-|[]]. unfold is_mobile in Em.
    destruct (Z.eqb_spec d LEFT) as [->|Hd].
    + destruct prev as [u|]; [|discriminate]. left. exists u, rest.
      apply Z.gtb_lt in Em. repeat split; auto; lia.
    + destruct rest as [|[w dw] rest']; [discriminate|].
      right. exists [], (v, d), (w, dw), rest'. split; [reflexivity|].
      right. simpl. apply Z.gtb_lt in Em. repeat split; auto; lia.
  - right. destruct (IH _ H) as [(u & rest' & Eu & Hu & ->) | (pre & a & b & post & -> & Hab)].
    + inversion Eu; subst u.
      exists [], (v, d), (m, LEFT), rest'. split; [reflexivity|]. left. simpl. auto.
    + exists ((v, d) :: pre), a, b, post. split; [reflexivity | exact Hab].
Qed.

(** *** The two swaps *)

Lemma swap_mobile_left (P Q D E : list Z) x m dx i :
  length P = length D -> i = Z.of_nat (length P) + 1 ->
  swap_mobile (P ++ x :: m :: Q) (D ++ dx :: LEFT :: E) (Some i)
  = Ok (P ++ m :: x :: Q, D ++ LEFT :: dx :: E).
Proof.
  intros Hl ->. unfold swap_mobile. cbn [val bind].
  rewrite (rd_app_next P) by lia. cbn [bind].
  rewrite (rd_app_next D) by lia. cbn [bind].
  rewrite (rd_app_at P) by (unfold LEFT; lia). cbn [bind].
  rewrite (wr_app_next P) by lia. cbn [bind].
  rewrite (wr_app_at P) by (unfold LEFT; lia). cbn [bind].
  rewrite (rd_app_at D) by (unfold LEFT; lia). cbn [bind].
  rewrite (wr_app_at D) by (unfold LEFT; lia). cbn [bind].
  rewrite (wr_app_next D) by lia. reflexivity.
Qed.

Lemma swap_mobile_right (P Q D E : list Z) y m dy i :
  length P = length D -> i = Z.of_nat (length P) ->
  swap_mobile (P ++ m :: y :: Q) (D ++ RIGHT :: dy :: E) (Some i)
  = Ok (P ++ y :: m :: Q, D ++ dy :: RIGHT :: E).
Proof.
  intros Hl ->. unfold swap_mobile. cbn [val bind].
  rewrite (rd_app_at P) by lia. cbn [bind].
  rewrite (rd_app_at D) by lia. cbn [bind].
  rewrite (rd_app_next P) by (unfold RIGHT; lia). cbn [bind].
  rewrite (wr_app_at P) by lia. cbn [bind].
  rewrite (wr_app_next P) by (unfold RIGHT; lia). cbn [bind].
  rewrite (rd_app_next D) by (unfold RIGHT; lia). cbn [bind].
  rewrite (wr_app_next D) by (unfold RIGHT; lia). cbn [bind].
  rewrite (wr_app_at D) by lia. reflexivity.
Qed.

(** *** The reversal loop *)

Lemma flip_app m l1 l2 : flip m (l1 ++ l2) = flip m l1 ++ flip m l2.
Proof. unfold flip. apply map_app. Qed.

Lemma flip_larger_loop m l :
  forall suf pre,
    l = pre ++ suf ->
    for_loop (length suf) (Z.of_nat (length pre) + 1)
      (fun j d =>
         pj <- rd (p_of l) j ;;
         if pj >? m then
           dj <- rd d j ;;
           wr d j (if dj =? LEFT then RIGHT else LEFT)
         else Ok d) (LEFT :: dirs (flip m pre) ++ dirs suf)
    = Ok (d_of (flip m l)).
Proof.
  induction suf as [|[v d] rest IH]; intros pre E.
  - simpl. rewrite app_nil_r in *. subst. reflexivity.
  - cbn [length for_loop].
    set (j := Z.of_nat (length pre) + 1).
    assert (Epj : rd (p_of l) j = Ok v).
    { unfold p_of, vals. rewrite E, map_app. simpl map.
      change (0 :: map fst pre ++ v :: map fst rest)
        with ((0 :: map fst pre) ++ v :: map fst rest).
      apply rd_app_at. simpl length. rewrite length_map. unfold j. lia. }
    rewrite Epj. cbn [bind].
    assert (Hj : j = Z.of_nat (length (LEFT :: dirs (flip m pre)))).
    { simpl length. unfold dirs. rewrite length_map, flip_length. unfold j. lia. }
    assert (Ed : LEFT :: dirs (flip m pre) ++ dirs ((v, d) :: rest)
                 = (LEFT :: dirs (flip m pre)) ++ d :: dirs rest) by reflexivity.
    rewrite Ed.
    specialize (IH (pre ++ [(v, d)])).
    rewrite length_app in IH. simpl length in IH.
    replace (Z.of_nat (length pre + 1) + 1) with (j + 1) in IH by (unfold j; lia).
    rewrite flip_app in IH. unfold dirs in IH at 1. rewrite map_app in IH.
    rewrite <- !app_assoc in IH. specialize (IH E).
    destruct (v >? m) eqn:Ev.
    + rewrite rd_app_at by exact Hj. cbn [bind].
      rewrite wr_app_at by exact Hj. cbn [bind].
      rewrite <- IH. unfold flip at 3. simpl map. rewrite Ev. reflexivity.
    + cbn [bind]. rewrite <- IH. unfold flip at 3. simpl map. rewrite Ev. reflexivity.
Qed.

Lemma NoDup_mid2 {A} (P Q : list A) x y :
  NoDup (P ++ x :: y :: Q) -> ~ In x P /\ ~ In y P /\ x <> y.
Proof.
  intros H. pose proof (NoDup_remove_2 _ _ _ H) as H1.
  pose proof (NoDup_remove_1 _ _ _ H) as H2. apply NoDup_remove_2 in H2.
  rewrite in_app_iff in *. simpl in *. repeat split; try tauto.
  intros ->. tauto.
Qed.

Lemma nth_error_app_at {A} (P Q : list A) x : nth_error (P ++ x :: Q) (length P) = Some x.
Proof. rewrite nth_error_app2 by lia. now rewrite Nat.sub_diag. Qed.

(** *** One round of lines 142-169 is one step of the enumeration *)

Section NextPerm.

Variable l : list elt.
Hypothesis positive : forall v, In v (vals l) -> 0 < v.
Hypothesis distinct : NoDup (vals l).
Hypothesis directed : dirs_ok l.
Hypothesis has_mobile : mobiles None l <> [].

Let n := Z.of_nat (length l) + 1.
Let m := lmax (mobiles None l).

Lemma largest_mobile_pos : 0 < m /\ In m (mobiles None l).
Proof.
  assert (In m (mobiles None l)).
  { apply lmax_in; auto. intros x Hx. apply positive. eapply mobiles_vals; eauto. }
  split; auto. apply positive. eapply mobiles_vals; eauto.
Qed.

Lemma find_mobile_ok stale :
  exists k, find_mobile n (p_of l) (d_of l) stale = Ok (m, Some (1 + Z.of_nat k))
            /\ nth_error (vals l) k = Some m.
Proof.
  unfold find_mobile, for_range.
  replace (Z.to_nat (n - 1)) with (length l) by (unfold n; lia).
  pose proof (find_mobile_scan l directed l [] 0 stale eq_refl) as H.
  change (Z.of_nat (length (@nil (Z * Z))) + 1) with 1 in H.
  unfold n. rewrite H. clear H.
  pose proof (scan_fst (last_val []) l 1 (0, stale) ltac:(simpl; lia)) as Hf.
  pose proof (scan_snd (last_val []) l 1 0 stale) as Hs.
  change (last_val []) with (@None Z) in *.
  destruct largest_mobile_pos as [Hpos _].
  cbn zeta in Hs. simpl fst in Hf. fold m in Hf. rewrite Z.max_r in Hf by lia.
  destruct Hs as [E | [_ [k [E1 E2]]]].
  - rewrite E in Hf. simpl in Hf. lia.
  - exists k. rewrite Hf in E2. split; auto.
    destruct (scan None l 1 (0, stale)) as [a b]. simpl in *. subst. reflexivity.
Qed.

Lemma next_perm_ok stale :
  exists i, next_perm n (p_of l, d_of l, stale)
            = Ok (p_of (astep l), d_of (astep l), Some i).
Proof.
  destruct (find_mobile_ok stale) as [k [Efind Ek]].
  destruct largest_mobile_pos as [Hpos Hin].
  exists (1 + Z.of_nat k).
  unfold next_perm. rewrite Efind. cbn [bind].
  apply mobiles_decomp in Hin.
  destruct Hin as [(u & rest & Eu & _) | (pre & a & b & post & E & Hab)]; [discriminate|].
  assert (Hvals : vals l = vals pre ++ fst a :: fst b :: vals post).
  { rewrite E. unfold vals. rewrite map_app. reflexivity. }
  assert (Hdirs : dirs l = dirs pre ++ snd a :: snd b :: dirs post).
  { rewrite E. unfold dirs. rewrite map_app. reflexivity. }
  pose proof distinct as Hnd. rewrite Hvals in Hnd.
  destruct (NoDup_mid2 _ _ _ _ Hnd) as (Ha & Hb & Hne).
  assert (Hlen : length (0 :: vals pre) = length (LEFT :: dirs pre)).
  { simpl. unfold vals, dirs. now rewrite !length_map. }
  assert (Hk : forall k', nth_error (vals l) k' = Some m -> k = k').
  { intros k' Hk'. apply (proj1 (NoDup_nth_error (vals l)) distinct).
    - apply nth_error_Some. congruence.
    - congruence. }
  assert (Emove : move m l = pre ++ b :: a :: post).
  { rewrite E. apply move_decomp.
    - destruct Hab as [(E1 & _) | (E1 & _)]; congruence.
    - destruct Hab as [(E1 & E2 & _) | (E1 & E2 & _)]; [left | right];
        repeat split; auto; congruence. }
  assert (Eswap : swap_mobile (p_of l) (d_of l) (Some (1 + Z.of_nat k))
                  = Ok (p_of (move m l), d_of (move m l))).
  { rewrite Emove. unfold p_of, d_of. rewrite Hvals, Hdirs.
    unfold vals, dirs. rewrite !map_app. simpl map.
    destruct Hab as [(E1 & E2 & _) | (E1 & E2 & _)].
    - assert (k = S (length pre)).
      { apply Hk. rewrite Hvals.
        replace (vals pre ++ fst a :: fst b :: vals post)
          with ((vals pre ++ [fst a]) ++ fst b :: vals post)
          by (rewrite <- app_assoc; reflexivity).
        replace (S (length pre)) with (length (vals pre ++ [fst a]))
          by (rewrite length_app; unfold vals; rewrite length_map; simpl; lia).
        rewrite nth_error_app_at. congruence. }
      rewrite E1, E2.
      apply (swap_mobile_left (0 :: map fst pre) _ (LEFT :: map snd pre)); auto.
      simpl length. rewrite length_map. lia.
    - assert (k = length pre).
      { apply Hk. rewrite Hvals.
        replace (length pre) with (length (vals pre))
          by (unfold vals; apply length_map).
        rewrite nth_error_app_at. congruence. }
      assert (snd a = RIGHT).
      { destruct (directed a); auto; [|congruence].
        rewrite E. apply in_or_app. simpl. auto. }
      rewrite E1. replace (snd a) with RIGHT.
      apply (swap_mobile_right (0 :: map fst pre) _ (LEFT :: map snd pre)); auto.
      simpl length. rewrite length_map. lia. }
  rewrite Eswap. cbn [bind].
  unfold flip_larger, for_range.
  replace (Z.to_nat (n - 1)) with (length (move m l))
    by (rewrite move_length; unfold n; lia).
  pose proof (flip_larger_loop m (move m l) (move m l) [] eq_refl) as H.
  change (Z.of_nat (length (@nil (Z * Z))) + 1) with 1 in H.
  change (LEFT :: dirs (flip m []) ++ dirs (move m l)) with (d_of (move m l)) in H.
  rewrite H. cbn [bind]. unfold astep. fold m.
  unfold p_of. rewrite vals_flip. reflexivity.
Qed.

End NextPerm.

Lemma zfact_fact n : zfact n = Z.of_nat (fact n).
Proof.
  induction n as [|n IH]; [reflexivity|].
  change (fact (S n)) with (S n * fact n)%nat.
  rewrite Nat2Z.inj_mul. cbn [zfact]. now rewrite IH.
Qed.

Lemma zfact_mono n m : (n <= m)%nat -> zfact n <= zfact m.
Proof. rewrite !zfact_fact. intros H. apply Nat2Z.inj_le, fact_le, H. Qed.

Lemma factorial_exact N : (N <= 12)%nat -> factorial (Z.of_nat N) = zfact N.
Proof.
  intros H.
  do 13 (destruct N as [|N]; [vm_compute; reflexivity|]). lia.
Qed.

Lemma factorial_in_int n : in_int (factorial n).
Proof.
  unfold factorial. destruct (Z.to_nat (n - 1)) as [|c].
  - simpl. unfold in_int. lia.
  - assert (H : forall cnt i acc, in_int acc -> in_int (factorial_loop cnt i acc)).
    { induction cnt as [|c' IH]; intros i acc Ha; simpl; auto.
      apply IH. apply wrap_in_int. }
    apply H. unfold in_int. lia.
Qed.

(* the number of rounds never reaches the number of arrangements *)
Lemma nr_perm_below n :
  3 <= n -> nr_perm n < zfact (Z.to_nat (n - 1)).
Proof.
  intros Hn. unfold nr_perm, int_div.
  destruct (Z.le_gt_cases (n - 1) 12) as [Hs|Hb].
  - replace (n - 1) with (Z.of_nat (Z.to_nat (n - 1))) at 1 by lia.
    rewrite factorial_exact by lia.
    set (N := Z.to_nat (n - 1)).
    assert (HN : (2 <= N <= 12)%nat) by (unfold N; lia).
    clearbody N. clear Hn Hs.
    do 2 (destruct N as [|N]; [lia|]).
    do 11 (destruct N as [|N]; [vm_compute; reflexivity|]). lia.
  - pose proof (factorial_in_int (n - 1)) as Hi. unfold in_int in Hi.
    assert (Hq : - 2 ^ 30 <= Z.quot (factorial (n - 1)) 2 < 2 ^ 30).
    { clear - Hi. Z.to_euclidean_division_equations. lia. }
    rewrite wrap_id by (unfold in_int; lia).
    pose proof (zfact_mono 13 (Z.to_nat (n - 1)) ltac:(lia)) as Hm.
    assert (zfact 13 = 6227020800) by (vm_compute; reflexivity). lia.
Qed.

Lemma nr_perm_exact n :
  1 <= n <= 13 -> nr_perm n = zfact (Z.to_nat (n - 1)) / 2.
Proof.
  intros Hn. unfold nr_perm, int_div.
  replace (n - 1) with (Z.of_nat (Z.to_nat (n - 1))) at 1 by lia.
  rewrite factorial_exact by lia.
  set (N := Z.to_nat (n - 1)).
  assert (HN : (N <= 12)%nat) by (unfold N; lia).
  clearbody N. clear Hn.
  do 13 (destruct N as [|N]; [vm_compute; reflexivity|]). lia.
Qed.

(** *** The arrays follow the arrangements *)

Lemma init_loop_spec cnt i :
  init_loop cnt i = (map (fun k => i + Z.of_nat k) (seq 0 cnt), repeat LEFT cnt).
Proof.
  revert i. induction cnt as [|c IH]; intros i; [reflexivity|].
  cbn [init_loop]. rewrite IH. simpl. f_equal. f_equal; [lia|].
  rewrite <- seq_shift, map_map. apply map_ext. intros k. lia.
Qed.

Lemma repeat_map_const {A B} (c : B) (f : A -> B) (l : list A) :
  (forall x, f x = c) -> repeat c (length l) = map f l.
Proof. intros H. induction l; simpl; congruence. Qed.

Lemma init_perm_sjt N :
  init_perm (Z.of_nat N + 1) = (p_of (sjt N 0), d_of (sjt N 0), None).
Proof.
  unfold init_perm. replace (Z.to_nat (Z.of_nat N + 1)) with (S N) by lia.
  rewrite init_loop_spec. unfold p_of, d_of, vals, dirs. rewrite sjt_0, !map_map.
  assert (E1 : map (fun k => 0 + Z.of_nat k) (seq 0 (S N))
               = 0 :: map (fun x => fst (Z.of_nat x, LEFT)) (seq 1 N)).
  { reflexivity. }
  assert (E2 : repeat LEFT (S N) = LEFT :: map (fun x => snd (Z.of_nat x, LEFT)) (seq 1 N)).
  { cbn [repeat]. f_equal. rewrite <- (length_seq N 1) at 1.
    apply repeat_map_const. reflexivity. }
  rewrite E1, E2. reflexivity.
Qed.

Lemma sjt_positive N t v : In v (vals (sjt N t)) -> 0 < v.
Proof. intros H. apply sjt_vals_range in H. lia. Qed.

Lemma sjt_dirs_ok N t : dirs_ok (sjt N t).
Proof. intros e. apply sjt_dirs. Qed.

Theorem perm_at_sjt N t :
  (t < fact N)%nat ->
  exists stale, perm_at (Z.of_nat N + 1) t = Ok (p_of (sjt N t), d_of (sjt N t), stale).
Proof.
  induction t as [|t IH]; intros Ht.
  - exists None. unfold perm_at. simpl. now rewrite init_perm_sjt.
  - destruct (IH ltac:(lia)) as [stale E].
    unfold perm_at in *. rewrite for_loop_snoc, E. cbn [bind].
    destruct (sjt_step N t ltac:(lia)) as [Hmob Hstep].
    destruct (next_perm_ok (sjt N t) (sjt_positive N t) (sjt_NoDup N t)
                (sjt_dirs_ok N t) Hmob stale) as [i Ei].
    rewrite sjt_length in Ei. rewrite Ei, Hstep. eauto.
Qed.

(** C10: for every n >= 3, in every round of the enumeration loop the search
    for the largest mobile integer assigns largestMobileIndex (whatever the
    variable held before) an index j with 1 <= j <= n-1 and
    0 <= j + d[j] <= n-1, and the swaps and the reversal loop that follow
    run without reading an unassigned index or leaving the arrays. *)
Theorem mobile_index_found (n i : Z) :
  3 <= n -> 0 <= i < nr_perm n ->
  exists p d stale,
    perm_at n (Z.to_nat i) = Ok (p, d, stale) /\
    (forall stale', exists lm j dj,
        find_mobile n p d stale' = Ok (lm, Some j) /\
        1 <= j <= n - 1 /\ rd p j = Ok lm /\ rd d j = Ok dj /\
        0 <= j + dj <= n - 1) /\
    (exists st', next_perm n (p, d, stale) = Ok st').
Proof.
  intros Hn Hi.
  set (N := Z.to_nat (n - 1)). set (t := Z.to_nat i).
  assert (En : n = Z.of_nat N + 1) by (unfold N; lia).
  pose proof (nr_perm_below n Hn) as Hb. fold N in Hb. rewrite zfact_fact in Hb.
  assert (Ht : (t + 1 < fact N)%nat) by (unfold t; lia).
  destruct (perm_at_sjt N t ltac:(lia)) as [stale E].
  destruct (sjt_step N t Ht) as [Hmob _].
  exists (p_of (sjt N t)), (d_of (sjt N t)), stale.
  rewrite En. split; [exact E|].
  pose proof (next_perm_ok (sjt N t) (sjt_positive N t) (sjt_NoDup N t)
                (sjt_dirs_ok N t) Hmob) as Hnext.
  pose proof (find_mobile_ok (sjt N t) (sjt_positive N t) (sjt_dirs_ok N t) Hmob) as Hfind.
  rewrite sjt_length in Hnext, Hfind.
  split.
  - intros stale'. destruct (Hfind stale') as [k [Ef Ek]].
    destruct (Hnext stale') as [i' Ei']. unfold next_perm in Ei'.
    rewrite Ef in Ei'. cbn [bind] in Ei'.
    apply bind_Ok in Ei'. destruct Ei' as [[p' d'] [Es _]].
    unfold swap_mobile in Es. cbn [val bind] in Es.
    apply bind_Ok in Es. destruct Es as [temp [E1 Es]].
    apply bind_Ok in Es. destruct Es as [di [E2 Es]].
    apply bind_Ok in Es. destruct Es as [x [E3 _]].
    exists (lmax (mobiles None (sjt N t))), (1 + Z.of_nat k), di.
    pose proof (rd_bounds _ _ _ E1) as B1. pose proof (rd_bounds _ _ _ E3) as B3.
    assert (Hlen : length (p_of (sjt N t)) = S N).
    { unfold p_of, vals. simpl. now rewrite length_map, sjt_length. }
    rewrite Hlen in B1, B3.
    assert (Hk : (k < N)%nat).
    { rewrite <- (sjt_length N t), <- (length_map fst). apply nth_error_Some.
      unfold vals in Ek. congruence. }
    repeat split; auto; try lia.
    unfold p_of. rewrite rd_cons by lia.
    replace (1 + Z.of_nat k - 1) with (Z.of_nat k) by lia.
    rewrite rd_nat, Ek. reflexivity.
  - destruct (Hnext stale) as [i' Ei']. eauto.
Qed.

(* the theorem at n = 4, second round *)
Lemma mobile_index_found_witness :
  exists p d stale,
    perm_at 4 (Z.to_nat 1) = Ok (p, d, stale) /\
    (forall stale', exists lm j dj,
        find_mobile 4 p d stale' = Ok (lm, Some j) /\
        1 <= j <= 4 - 1 /\ rd p j = Ok lm /\ rd d j = Ok dj /\
        0 <= j + dj <= 4 - 1) /\
    (exists st', next_perm 4 (p, d, stale) = Ok st').
Proof.
  apply (mobile_index_found 4 1).
  - lia.
  - vm_compute. split; [discriminate | reflexivity].
Defined.

Lemma argmin_spec f T :
  (0 < T)%nat ->
  (argmin f T < T)%nat /\
  (forall i, (i < T)%nat -> f (argmin f T) <= f i) /\
  (forall i, (i < argmin f T)%nat -> f (argmin f T) < f i).
Proof.
  induction T as [|T IH]; [lia|]. intros _.
  destruct (Nat.eq_dec T 0) as [->|HT].
  - simpl. rewrite Z.ltb_irrefl. repeat split; try lia.
    intros i Hi. replace i with 0%nat by lia. lia.
  - destruct (IH ltac:(lia)) as (H1 & H2 & H3).
    cbn [argmin]. destruct (Z.ltb_spec (f T) (f (argmin f T))).
    + repeat split; try lia.
      * intros i Hi. destruct (Nat.eq_dec i T) as [->|]; [lia|].
        specialize (H2 i ltac:(lia)). lia.
      * intros i Hi. specialize (H2 i ltac:(lia)). lia.
    + repeat split; try lia; auto.
      intros i Hi. destruct (Nat.eq_dec i T) as [->|]; [lia|]. apply H2. lia.
Qed.

(** *** Reading the matrix *)

Lemma rd_nth (a : list Z) i :
  0 <= i < Z.of_nat (length a) -> rd a i = Ok (nth (Z.to_nat i) a 0).
Proof.
  intros H. apply rd_Ok_iff. split; [lia|]. apply nth_error_nth'. lia.
Qed.

Lemma rd2_dist n m a b :
  matrix n m -> 0 <= a < n -> 0 <= b < n -> rd2 m a b = Ok (dist m a b).
Proof.
  intros [Hl Hrows] Ha Hb. unfold rd2, dist.
  assert (Hrow : rd m a = Ok (nth (Z.to_nat a) m [])).
  { apply rd_Ok_iff. split; [lia|]. apply nth_error_nth'. lia. }
  rewrite Hrow. cbn [bind]. apply rd_nth.
  rewrite (Hrows (nth (Z.to_nat a) m [])); [lia|]. apply nth_In. lia.
Qed.

(** *** Costs of paths *)

Lemma path_cost_cons m a b t :
  path_cost m (a :: b :: t) = dist m a b + path_cost m (b :: t).
Proof. reflexivity. Qed.

Lemma path_cost_snoc m l a b :
  path_cost m (l ++ [a; b]) = path_cost m (l ++ [a]) + dist m a b.
Proof.
  induction l as [|x l IH]; [simpl; lia|].
  destruct l as [|y l'].
  - simpl. lia.
  - change ((x :: y :: l') ++ [a; b]) with (x :: y :: (l' ++ [a; b])).
    change ((x :: y :: l') ++ [a]) with (x :: y :: (l' ++ [a])).
    rewrite !path_cost_cons.
    change (y :: l' ++ [a; b]) with ((y :: l') ++ [a; b]).
    change (y :: l' ++ [a]) with ((y :: l') ++ [a]).
    rewrite IH. lia.
Qed.

Lemma path_cost_rev n m l :
  symmetric n m -> (forall x, In x l -> 0 <= x < n) ->
  path_cost m (rev l) = path_cost m l.
Proof.
  intros Hs. induction l as [|a l IH]; intros Hr; [reflexivity|].
  destruct l as [|b l'].
  - reflexivity.
  - rewrite path_cost_cons. rewrite <- IH by (intros; apply Hr; simpl; auto).
    change (rev (a :: b :: l')) with ((rev l' ++ [b]) ++ [a]).
    rewrite <- app_assoc. simpl app at 2.
    rewrite path_cost_snoc. simpl rev.
    rewrite (Hs a b); [lia | |]; apply Hr; simpl; auto.
Qed.

Lemma path_cost_nonneg n m l :
  nonnegative n m -> (forall x, In x l -> 0 <= x < n) -> 0 <= path_cost m l.
Proof.
  intros Hn. induction l as [|a l IH]; intros Hr; [simpl; lia|].
  destruct l as [|b l']; [simpl; lia|].
  rewrite path_cost_cons.
  assert (0 <= dist m a b) by (apply Hn; apply Hr; simpl; auto).
  assert (0 <= path_cost m (b :: l')) by (apply IH; intros; apply Hr; simpl; auto).
  lia.
Qed.

Lemma path_cost_le n m B l :
  (forall i j, 0 <= i < n -> 0 <= j < n -> dist m i j <= B) ->
  (forall x, In x l -> 0 <= x < n) ->
  path_cost m l <= Z.of_nat (length l - 1) * B.
Proof.
  intros Hb. induction l as [|a l IH]; intros Hr; [simpl; lia|].
  destruct l as [|b l']; [simpl; lia|].
  rewrite path_cost_cons.
  assert (dist m a b <= B) by (apply Hb; apply Hr; simpl; auto).
  assert (path_cost m (b :: l') <= Z.of_nat (length (b :: l') - 1) * B)
    by (apply IH; intros; apply Hr; simpl; auto).
  simpl length in *. replace (S (S (length l')) - 1)%nat with (S (length l' - 0)) by lia.
  replace (S (length l') - 1)%nat with (length l' - 0)%nat in * by lia. nia.
Qed.

Lemma cycle_cost_rev n m pi :
  symmetric n m -> 0 < n -> (forall x, In x pi -> 0 <= x < n) ->
  cycle_cost m (0 :: rev pi) = cycle_cost m (0 :: pi).
Proof.
  intros Hs Hn Hr. unfold cycle_cost. cbn [firstn app].
  rewrite <- (path_cost_rev n m (0 :: pi ++ [0])); auto.
  - simpl rev. rewrite rev_app_distr. reflexivity.
  - intros x [<-|Hx]; [lia|]. apply in_app_or in Hx. destruct Hx as [Hx|[<-|[]]]; auto. lia.
Qed.

(** *** The cost loop, lines 128-132 *)

Section TourCost.

Variable n : Z.
Variable m : list (list Z).
Variable p : list Z.
Hypothesis Hm : matrix n m.
Hypothesis Hnn : nonnegative n m.
Hypothesis Hlen : Z.of_nat (length p) = n.
Hypothesis Hrange : forall x, In x p -> 0 <= x < n.

Lemma tour_cost_loop :
  forall suf pre acc,
    p = pre ++ suf ->
    0 <= acc ->
    acc + path_cost m (suf ++ firstn 1 p) < 2 ^ 31 ->
    for_loop (length suf) (Z.of_nat (length pre))
      (fun j cost =>
         let next_city := if j <? n - 1 then j + 1 else 0 in
         a <- rd p j ;;
         b <- rd p next_city ;;
         c <- rd2 m a b ;;
         Ok (int_add cost c)) acc
    = Ok (acc + path_cost m (suf ++ firstn 1 p)).
Proof.
  induction suf as [|a rest IH]; intros pre acc E Hacc Hub.
  - simpl. destruct p as [|p0 p']; simpl; f_equal; lia.
  - cbn [length for_loop].
    set (j := Z.of_nat (length pre)).
    assert (Ha : rd p j = Ok a) by (rewrite E; apply rd_app_at; reflexivity).
    assert (Hlen' : n = j + 1 + Z.of_nat (length rest)).
    { rewrite <- Hlen, E, length_app. simpl. unfold j. lia. }
    assert (Hina : 0 <= a < n) by (apply Hrange; rewrite E; apply in_or_app; simpl; auto).
    assert (Hb : exists b t, rest ++ firstn 1 p = b :: t /\ 0 <= b < n /\
                             rd p (if j <? n - 1 then j + 1 else 0) = Ok b).
    { destruct rest as [|b rest'].
      - destruct p as [|p0 p'] eqn:Ep; [destruct pre; discriminate|].
        exists p0, []. split; [reflexivity|]. split; [apply Hrange; simpl; auto|].
        destruct (Z.ltb_spec j (n - 1)); [simpl in Hlen'; lia|]. reflexivity.
      - exists b, (rest' ++ firstn 1 p). split; [reflexivity|].
        split; [apply Hrange; rewrite E; apply in_or_app; simpl; auto|].
        destruct (Z.ltb_spec j (n - 1)); [|simpl in Hlen'; lia].
        rewrite E. apply rd_app_next. reflexivity. }
    destruct Hb as (b & t & Eb & Hinb & Hrb).
    rewrite Ha. cbn [bind]. rewrite Hrb. cbn [bind].
    rewrite (rd2_dist n) by auto. cbn [bind].
    change ((a :: rest) ++ firstn 1 p) with (a :: (rest ++ firstn 1 p)) in *.
    rewrite Eb in *. rewrite path_cost_cons in *. rewrite <- Eb in *.
    assert (0 <= dist m a b) by (apply Hnn; auto).
    assert (0 <= path_cost m (rest ++ firstn 1 p)).
    { apply (path_cost_nonneg n); auto. intros x Hx. apply Hrange.
      apply in_app_or in Hx. destruct Hx as [Hx|Hx].
      - rewrite E. apply in_or_app. simpl. auto.
      - destruct p; simpl in Hx; [destruct Hx|]. destruct Hx as [<-|[]]. simpl. auto. }
    unfold int_add. rewrite wrap_id by (unfold in_int; lia).
    specialize (IH (pre ++ [a]) (acc + dist m a b)).
    rewrite length_app in IH. simpl length in IH.
    replace (Z.of_nat (length pre + 1)) with (j + 1) in IH by (unfold j; lia).
    transitivity (Ok (acc + dist m a b + path_cost m (rest ++ firstn 1 p)));
      [apply IH; [rewrite <- app_assoc; auto | lia | lia] | f_equal; lia].
Qed.

Lemma tour_cost_ok :
  cycle_cost m p < 2 ^ 31 -> tour_cost n m p = Ok (cycle_cost m p).
Proof.
  intros Hub. unfold tour_cost, for_range.
  replace (Z.to_nat (n - 0)) with (length p) by lia.
  pose proof (tour_cost_loop p [] 0 eq_refl ltac:(lia)) as H.
  simpl length in H. simpl Z.of_nat in H. simpl Z.add in H.
  apply H. exact Hub.
Qed.

End TourCost.

(** *** Recording a tour, lines 135-140 *)

Lemma skipn_nth_error {A} (t : list A) i y :
  nth_error t i = Some y -> skipn i t = y :: skipn (S i) t.
Proof.
  revert t. induction i as [|i IH]; intros [|h t] H; simpl in *; try discriminate.
  - congruence.
  - apply IH, H.
Qed.

Lemma firstn_nth_error {A} (p : list A) i x :
  nth_error p i = Some x -> firstn (S i) p = firstn i p ++ [x].
Proof.
  revert p. induction i as [|i IH]; intros [|h p] H; simpl in *; try discriminate.
  - congruence.
  - f_equal. apply IH, H.
Qed.

Lemma copy_loop (p : list Z) (t : list (option Z)) :
  (length p <= length t)%nat ->
  for_range 0 (Z.of_nat (length p)) (fun j t => x <- rd p j ;; wr t j (Some x)) t
  = Ok (map Some p ++ skipn (length p) t).
Proof.
  intros Hle.
  destruct (for_range_inv
              (fun j t' => t' = map Some (firstn (Z.to_nat j) p) ++ skipn (Z.to_nat j) t)
              0 (Z.of_nat (length p))
              (fun j t => x <- rd p j ;; wr t j (Some x)) t) as [t' [E I]].
  - lia.
  - reflexivity.
  - intros i s Hi ->.
    destruct (rd_in_range p i Hi) as [x Ex]. rewrite Ex. cbn [bind].
    apply rd_Ok_iff in Ex. destruct Ex as [_ Ex].
    destruct (nth_error t (Z.to_nat i)) as [y|] eqn:Ey;
      [|apply nth_error_None in Ey; lia].
    rewrite (skipn_nth_error _ _ _ Ey).
    replace (Z.to_nat (i + 1)) with (S (Z.to_nat i)) by lia.
    rewrite (firstn_nth_error _ _ _ Ex), map_app, <- app_assoc.
    eexists. split; [|reflexivity].
    apply wr_app_at. rewrite length_map, length_firstn. lia.
  - rewrite E. f_equal. rewrite I, Nat2Z.id, firstn_all. reflexivity.
Qed.

Lemma update_best_replace n c (p : list Z) r :
  Z.of_nat (length p) = n -> (length p <= length r.(tour))%nat ->
  c < r.(cost) \/ r.(cost) = INFINITE ->
  update_best n c p r
  = Ok (mkResult c (map Some p ++ skipn (length p) r.(tour)) r.(tour_size)).
Proof.
  intros Hn Hle Hc. unfold update_best.
  assert (E : (c <? cost r) || (cost r =? INFINITE) = true).
  { apply orb_true_iff. destruct Hc; [left; apply Z.ltb_lt | right; apply Z.eqb_eq]; auto. }
  rewrite E, <- Hn, copy_loop by auto. reflexivity.
Qed.

Lemma update_best_keep n c (p : list Z) r :
  r.(cost) <= c -> r.(cost) <> INFINITE -> update_best n c p r = Ok r.
Proof.
  intros H1 H2. unfold update_best.
  destruct (Z.ltb_spec c (cost r)); [lia|].
  destruct (Z.eqb_spec (cost r) INFINITE); [contradiction|]. reflexivity.
Qed.

(** *** The enumeration loop as a whole *)

Section Search.

Variable N : nat.
Variable m : list (list Z).
Let n := Z.of_nat N + 1.
Hypothesis Hm : matrix n m.
Hypothesis Hnn : nonnegative n m.

(* the tour of round t and its cost *)
Let tour_p (t : nat) : list Z := p_of (sjt N t).
Let c (t : nat) : Z := cycle_cost m (tour_p t).

Let r0 : result := mkResult INFINITE (repeat None (Z.to_nat (n + 1))) (n + 1).

(* the best tour recorded after T rounds *)
Let best (T : nat) : result :=
  match T with
  | O => r0
  | _ => mkResult (c (argmin c T)) (map Some (tour_p (argmin c T)) ++ [None]) (n + 1)
  end.

Lemma tour_p_length t : length (tour_p t) = S N.
Proof. unfold tour_p, p_of, vals. simpl. now rewrite length_map, sjt_length. Qed.

Lemma tour_p_range t x : In x (tour_p t) -> 0 <= x < n.
Proof.
  unfold tour_p, p_of. intros [<-|H]; [unfold n; lia|].
  apply sjt_vals_range in H. unfold n. lia.
Qed.

Lemma skipn_tour0 : skipn (S N) (repeat (@None Z) (Z.to_nat (n + 1))) = [None].
Proof.
  replace (Z.to_nat (n + 1)) with (S N + 1)%nat by (unfold n; lia).
  rewrite repeat_app.
  rewrite <- (repeat_length (@None Z) (S N)) at 1.
  rewrite skipn_app, skipn_all, Nat.sub_diag. reflexivity.
Qed.

Lemma skipn_tour k : skipn (S N) (map Some (tour_p k) ++ [@None Z]) = [None].
Proof.
  rewrite <- (tour_p_length k), <- (length_map Some).
  rewrite skipn_app, skipn_all, Nat.sub_diag. reflexivity.
Qed.

Lemma search_loop T :
  (T < fact N)%nat ->
  (forall t, (t < T)%nat -> 0 < c t < 2 ^ 31) ->
  exists stale,
    for_loop T 0 (fun _ st => search_step n m st) (r0, init_perm n)
    = Ok (best T, (p_of (sjt N T), d_of (sjt N T), stale)).
Proof.
  induction T as [|T IH]; intros HT Hc.
  - exists None. unfold n. rewrite init_perm_sjt. reflexivity.
  - destruct (IH ltac:(lia) ltac:(intros; apply Hc; lia)) as [stale E].
    rewrite for_loop_snoc, E. cbn [bind]. unfold search_step.
    fold (tour_p T).
    rewrite (tour_cost_ok n m (tour_p T) Hm Hnn)
      by (try apply tour_p_range; try (rewrite tour_p_length; unfold n; lia);
          apply Hc; lia).
    cbn [bind]. fold (c T).
    destruct (sjt_step N T ltac:(lia)) as [Hmob Hstep].
    destruct (next_perm_ok (sjt N T) (sjt_positive N T) (sjt_NoDup N T)
                (sjt_dirs_ok N T) Hmob stale) as [i Ei].
    rewrite sjt_length in Ei. fold n in Ei. rewrite Hstep in Ei.
    exists (Some i).
    assert (Hupd : update_best n (c T) (tour_p T) (best T) = Ok (best (S T))).
    { destruct T as [|T'].
      - assert (E1 : argmin c 1 = 0%nat) by (simpl; now rewrite Z.ltb_irrefl).
        change (best 1)
          with (mkResult (c (argmin c 1)) (map Some (tour_p (argmin c 1)) ++ [None]) (n + 1)).
        rewrite E1. rewrite update_best_replace.
        + rewrite tour_p_length. cbn [best r0 tour tour_size]. rewrite skipn_tour0.
          reflexivity.
        + rewrite tour_p_length. unfold n. lia.
        + rewrite tour_p_length. cbn [best r0 tour]. rewrite repeat_length. unfold n. lia.
        + right. reflexivity.
      - set (k := argmin c (S T')).
        assert (Hk : (k < S T')%nat) by (apply argmin_spec; lia).
        assert (Hck : 0 < c k) by (apply Hc; lia).
        change (best (S (S T')))
          with (mkResult (c (argmin c (S (S T'))))
                  (map Some (tour_p (argmin c (S (S T')))) ++ [None]) (n + 1)).
        change (argmin c (S (S T'))) with (if c (S T') <? c k then S T' else k).
        change (best (S T')) with (mkResult (c k) (map Some (tour_p k) ++ [None]) (n + 1)).
        destruct (Z.ltb_spec (c (S T')) (c k)).
        + rewrite update_best_replace.
          * rewrite tour_p_length. cbn [tour tour_size]. rewrite skipn_tour. reflexivity.
          * rewrite tour_p_length. unfold n. lia.
          * cbn [tour]. rewrite length_app, length_map, !tour_p_length. simpl. lia.
          * left. simpl. lia.
        + apply update_best_keep; simpl; unfold INFINITE; lia. }
    rewrite Hupd. cbn [bind]. change (tour_p T) with (p_of (sjt N T)).
    rewrite Ei. reflexivity.
Qed.

Lemma getOptimalTour_run :
  (0 < Z.to_nat (nr_perm n) < fact N)%nat ->
  (forall t, (t < Z.to_nat (nr_perm n))%nat -> 0 < c t < 2 ^ 31) ->
  let k := argmin c (Z.to_nat (nr_perm n)) in
  getOptimalTour n m = Ok (mkResult (c k) (map Some (tour_p k ++ [0])) (n + 1)).
Proof.
  intros HT Hc k. unfold getOptimalTour, for_range.
  rewrite Z.sub_0_r.
  destruct (search_loop (Z.to_nat (nr_perm n)) ltac:(lia) Hc) as [stale E].
  fold r0. rewrite E. cbn [bind].
  destruct (Z.to_nat (nr_perm n)) as [|T] eqn:ET; [lia|].
  cbn [best tour tour_size cost]. fold k.
  assert (Ehd : exists q, tour_p k = 0 :: q) by (unfold tour_p, p_of; eauto).
  destruct Ehd as [q Eq].
  assert (E0 : rd (map Some (tour_p k) ++ [None]) 0 = Ok (Some 0)).
  { rewrite Eq. reflexivity. }
  rewrite E0. cbn [bind].
  rewrite (wr_app_at (map Some (tour_p k)) [])
    by (rewrite length_map, tour_p_length; unfold n; lia).
  cbn [bind]. rewrite map_app. reflexivity.
Qed.

End Search.

(** *** Costs of the enumerated tours *)

Lemma cities_perm_range n pi x : cities_perm n pi -> In x pi -> 1 <= x < n.
Proof.
  intros Hp Hx. eapply Permutation_in in Hx; [|exact Hp].
  apply in_map_iff in Hx. destruct Hx as [k [<- Hk]]. apply in_seq in Hk. lia.
Qed.

Lemma cities_perm_length n pi : cities_perm n pi -> length pi = Z.to_nat (n - 1).
Proof.
  intros Hp. apply Permutation_length in Hp. now rewrite length_map, length_seq in Hp.
Qed.

Lemma cities_perm_rev n pi : cities_perm n pi -> cities_perm n (rev pi).
Proof. unfold cities_perm. intros H. rewrite <- H. symmetry. apply Permutation_rev. Qed.

Lemma cycle_cost_bounds n m pi :
  2 <= n -> nonnegative n m -> positive_off_diagonal n m -> fits_int n m ->
  cities_perm n pi ->
  0 < cycle_cost m (0 :: pi) < 2 ^ 31.
Proof.
  intros Hn Hnn Hpos Hfit Hp.
  assert (Hr : forall x, In x (0 :: pi ++ [0]) -> 0 <= x < n).
  { intros x [<-|Hx]; [lia|]. apply in_app_or in Hx.
    destruct Hx as [Hx|[<-|[]]]; [|lia]. apply (cities_perm_range n) in Hx; auto. lia. }
  unfold cycle_cost. cbn [firstn app]. split.
  - destruct pi as [|x pi'].
    + apply cities_perm_length in Hp. simpl in Hp. lia.
    + cbn [app]. rewrite path_cost_cons.
      assert (1 <= x < n) by (apply (cities_perm_range n (x :: pi')); simpl; auto).
      assert (0 < dist m 0 x) by (apply Hpos; lia).
      assert (0 <= path_cost m (x :: pi' ++ [0])).
      { apply (path_cost_nonneg n); auto. intros y Hy. apply Hr. simpl. simpl in Hy. tauto. }
      lia.
  - set (B := (2 ^ 31 - 1) / n).
    assert (HB : forall i j, 0 <= i < n -> 0 <= j < n -> dist m i j <= B).
    { intros i j Hi Hj. apply Z.div_le_lower_bound; [lia|].
      specialize (Hfit i j Hi Hj). lia. }
    pose proof (path_cost_le n m B (0 :: pi ++ [0]) HB Hr) as Hle.
    simpl length in Hle. rewrite length_app, (cities_perm_length n pi Hp) in Hle.
    simpl length in Hle.
    replace (Z.of_nat (S (Z.to_nat (n - 1) + 1) - 1)) with n in Hle by lia.
    pose proof (Z.mul_div_le (2 ^ 31 - 1) n ltac:(lia)). fold B in H. lia.
Qed.

Lemma sjt_cities_perm N t : cities_perm (Z.of_nat N + 1) (vals (sjt N t)).
Proof.
  unfold cities_perm. replace (Z.to_nat (Z.of_nat N + 1 - 1)) with N by lia.
  apply sjt_vals_perm.
Qed.

Lemma examined_sjt N i :
  0 <= i -> (Z.to_nat i < fact N)%nat ->
  examined (Z.of_nat N + 1) i = Ok (0 :: vals (sjt N (Z.to_nat i))).
Proof.
  intros H0 Hi. unfold examined.
  destruct (perm_at_sjt N (Z.to_nat i) Hi) as [stale E]. rewrite E. reflexivity.
Qed.

(* sizes for which the factorial is computed exactly *)
Lemma rounds_half n :
  3 <= n <= 13 ->
  let N := Z.to_nat (n - 1) in
  n = Z.of_nat N + 1 /\ (2 <= N)%nat /\
  nr_perm n = Z.of_nat (fact N / 2) /\ (0 < fact N / 2 < fact N)%nat.
Proof.
  intros Hn N. assert (HN : (2 <= N)%nat) by (unfold N; lia).
  split; [unfold N; lia|]. split; [auto|].
  rewrite nr_perm_exact by lia. fold N. rewrite zfact_fact, Nat2Z.inj_div.
  split; [reflexivity|].
  pose proof (fact_even N HN). pose proof (fact_pos N). lia.
Qed.

(** ** Results on getOptimalTour *)

Section OptimalTour.

Variable n : Z.
Variable m : list (list Z).
Hypothesis Hn : 3 <= n <= 13.
Hypothesis Hm : matrix n m.
Hypothesis Hnn : nonnegative n m.
Hypothesis Hpos : positive_off_diagonal n m.
Hypothesis Hfit : fits_int n m.

Let N := Z.to_nat (n - 1).
Let T := (fact N / 2)%nat.
Let c (t : nat) : Z := cycle_cost m (p_of (sjt N t)).

Lemma round_cost_bounds t : 0 < c t < 2 ^ 31.
Proof.
  unfold c, p_of. apply (cycle_cost_bounds n); auto; try lia.
  replace n with (Z.of_nat N + 1) by (unfold N; lia). apply sjt_cities_perm.
Qed.

(* the run of getOptimalTour: the first tour of least cost among those examined *)
Lemma getOptimalTour_first_min :
  let k := argmin c T in
  (k < T)%nat /\
  getOptimalTour n m
  = Ok (mkResult (c k) (map Some (0 :: vals (sjt N k) ++ [0])) (n + 1)).
Proof.
  destruct (rounds_half n Hn) as (En & HN & Enr & HT). fold N in En, HN, Enr, HT.
  fold T in Enr, HT. intros k.
  split; [apply argmin_spec; lia|].
  pose proof (getOptimalTour_run N m) as H. cbv zeta in H.
  rewrite <- En, Enr, Nat2Z.id in H. apply H; auto.
  intros t _. apply round_cost_bounds.
Qed.

End OptimalTour.

Lemma optimal_minimal_spec (n : Z) (m : list (list Z)) :
  3 <= n <= 13 -> matrix n m -> symmetric n m -> nonnegative n m ->
  positive_off_diagonal n m -> fits_int n m ->
  exists c pi,
    getOptimalTour n m = Ok (mkResult c (map Some (0 :: pi ++ [0])) (n + 1)) /\
    cities_perm n pi /\
    c = cycle_cost m (0 :: pi) /\
    forall pi', cities_perm n pi' -> c <= cycle_cost m (0 :: pi').
Proof.
  intros Hn Hm Hs Hnn Hpos Hfit.
  destruct (rounds_half n Hn) as (En & HN & Enr & HT).
  set (N := Z.to_nat (n - 1)) in *. set (T := (fact N / 2)%nat) in *.
  destruct (getOptimalTour_first_min n m Hn Hm Hnn Hpos Hfit) as [Hk Erun].
  fold N T in Hk, Erun.
  set (c := fun t => cycle_cost m (p_of (sjt N t))) in *.
  set (k := argmin c T) in *.
  exists (c k), (vals (sjt N k)).
  split; [exact Erun|]. split; [rewrite En; apply sjt_cities_perm|].
  split; [reflexivity|].
  intros pi' Hp'.
  destruct (argmin_spec c T ltac:(lia)) as (_ & Hmin & _). fold k in Hmin.
  assert (Hcover : forall pi, cities_perm n pi -> low12 pi = [1; 2] ->
                              exists t, (t < T)%nat /\ vals (sjt N t) = pi).
  { intros pi Hp Hlow. unfold cities_perm in Hp. fold N in Hp.
    destruct (sjt_surjective N pi Hp) as [t [Ht Et]].
    exists t. split; auto.
    pose proof (sjt_first_half N t HN Ht) as Hh. rewrite Et, Hlow in Hh. fold T in Hh.
    destruct (Nat.ltb_spec t T); [auto | discriminate]. }
  pose proof Hp' as Hp. unfold cities_perm in Hp. fold N in Hp.
  destruct (sjt_surjective N pi' Hp) as [t [Ht Et]].
  pose proof (sjt_first_half N t HN Ht) as Hh. rewrite Et in Hh. fold T in Hh.
  destruct (Nat.ltb_spec t T) as [Hlt|Hge].
  - specialize (Hmin t Hlt). unfold c at 2 in Hmin. unfold p_of in Hmin.
    rewrite Et in Hmin. exact Hmin.
  - destruct (Hcover (rev pi') (cities_perm_rev n pi' Hp')) as [t' [Ht' Et']].
    { rewrite low12_rev, Hh. reflexivity. }
    specialize (Hmin t' Ht'). unfold c at 2 in Hmin. unfold p_of in Hmin.
    rewrite Et' in Hmin.
    rewrite (cycle_cost_rev n) in Hmin; auto; try lia.
    intros x Hx. apply (cities_perm_range n) in Hx; auto. lia.
Qed.

(* entries of a small concrete matrix, one pair of indices at a time *)
Ltac index_cases i H :=
  first
    [ assert (i = 0 \/ i = 1 \/ i = 2 \/ i = 3) as [->|[->|[->| ->]]] by lia
    | assert (i = 0 \/ i = 1 \/ i = 2 \/ i = 3 \/ i = 4) as [->|[->|[->|[->| ->]]]] by lia ].

Ltac matrix_entries :=
  let i := fresh "i" in let j := fresh "j" in
  let Hi := fresh "Hi" in let Hj := fresh "Hj" in
  intros i j Hi Hj; index_cases i Hi; index_cases j Hj;
  try (intros Hne; try (exfalso; apply Hne; reflexivity));
  vm_compute; try reflexivity; try discriminate.

Ltac matrix_shape :=
  split; [reflexivity | intros row Hrow; simpl in Hrow;
          repeat (destruct Hrow as [<-|Hrow]; [reflexivity|]); destruct Hrow].

Lemma cities4_matrix :
  matrix 4 cities4 /\ symmetric 4 cities4 /\ nonnegative 4 cities4 /\
  positive_off_diagonal 4 cities4 /\ fits_int 4 cities4.
Proof.
  split; [matrix_shape|].
  split; [unfold symmetric; matrix_entries|].
  split; [unfold nonnegative; matrix_entries|].
  split; [unfold positive_off_diagonal; matrix_entries|].
  unfold fits_int; matrix_entries.
Qed.

(** C1 does not hold for every nonnegative matrix: on [cities_zero4] the cycle
    0,1,2,3 costs 0, and getOptimalTour returns the cycle 0,1,3,2 of cost 2. *)
Lemma optimal_tour_not_minimal :
  matrix 4 cities_zero4 /\ symmetric 4 cities_zero4 /\ nonnegative 4 cities_zero4 /\
  cities_perm 4 [1; 2; 3] /\ cycle_cost cities_zero4 [0; 1; 2; 3] = 0 /\
  getOptimalTour 4 cities_zero4
  = Ok (mkResult 2 [Some 0; Some 1; Some 3; Some 2; Some 0] 5) /\
  ~ (forall c t sz, getOptimalTour 4 cities_zero4 = Ok (mkResult c t sz) ->
       forall pi, cities_perm 4 pi -> c <= cycle_cost cities_zero4 (0 :: pi)).
Proof.
  assert (Hp : cities_perm 4 [1; 2; 3]) by (unfold cities_perm; simpl; reflexivity).
  assert (Hrun : getOptimalTour 4 cities_zero4
                 = Ok (mkResult 2 [Some 0; Some 1; Some 3; Some 2; Some 0] 5))
    by (vm_compute; reflexivity).
  split; [matrix_shape|].
  split; [unfold symmetric; matrix_entries|].
  split; [unfold nonnegative; matrix_entries|].
  split; [exact Hp|]. split; [reflexivity|]. split; [exact Hrun|].
  intros H. specialize (H _ _ _ Hrun [1; 2; 3] Hp). vm_compute in H. apply H. reflexivity.
Qed.

(** C2 (amended): the loop runs 3 rounds for n = 4 and 12 for n = 5, and for
    3 <= n <= 13 it runs (n-1)!/2 rounds, every round examines a cycle
    through all cities that starts at city 0, and every such cycle is
    examined in exactly one round, in one of its two directions. *)
Theorem enumeration_exact :
  (nr_perm 4 = 3 /\ nr_perm 5 = 12) /\
  forall n, 3 <= n <= 13 ->
    nr_perm n = zfact (Z.to_nat (n - 1)) / 2 /\
    (forall i, 0 <= i < nr_perm n ->
       exists pi, cities_perm n pi /\ examined n i = Ok (0 :: pi)) /\
    each_cycle_once n.
Proof.
  split; [split; vm_compute; reflexivity|].
  intros n Hn.
  destruct (rounds_half n Hn) as (En & HN & Enr & HT).
  set (N := Z.to_nat (n - 1)) in *. set (T := (fact N / 2)%nat) in *.
  assert (Hex : forall i, 0 <= i < nr_perm n ->
                          examined n i = Ok (0 :: vals (sjt N (Z.to_nat i)))).
  { intros i Hi. rewrite En. apply examined_sjt; lia. }
  assert (Hlow : forall t, (t < T)%nat -> low12 (vals (sjt N t)) = [1; 2]).
  { intros t Ht. rewrite (sjt_first_half N t HN) by lia. fold T.
    destruct (Nat.ltb_spec t T); [reflexivity | lia]. }
  split; [apply nr_perm_exact; lia|]. split.
  - intros i Hi. exists (vals (sjt N (Z.to_nat i))). split; [|apply Hex; auto].
    rewrite En. apply sjt_cities_perm.
  - intros pi Hp.
    assert (Hcover : forall pi, cities_perm n pi -> low12 pi = [1; 2] ->
                                exists t, (t < T)%nat /\ vals (sjt N t) = pi).
    { intros pi0 Hp0 Hl0. unfold cities_perm in Hp0. fold N in Hp0.
      destruct (sjt_surjective N pi0 Hp0) as [t [Ht Et]].
      exists t. split; auto.
      pose proof (sjt_first_half N t HN Ht) as Hh. rewrite Et, Hl0 in Hh. fold T in Hh.
      destruct (Nat.ltb_spec t T); [auto | discriminate]. }
    assert (Huniq : forall pi0 t i', (t < T)%nat -> vals (sjt N t) = pi0 ->
              0 <= i' < nr_perm n ->
              examined n i' = Ok (0 :: pi0) \/ examined n i' = Ok (0 :: rev pi0) ->
              i' = Z.of_nat t).
    { intros pi0 t i' Ht Et Hi' Hcase. rewrite (Hex i' Hi') in Hcase.
      assert (Hi'T : (Z.to_nat i' < T)%nat) by lia.
      destruct Hcase as [E|E]; inversion E as [E'].
      - rewrite <- Et in E'. apply sjt_injective in E'; lia.
      - pose proof (Hlow _ Hi'T) as L1. rewrite E', low12_rev in L1.
        rewrite <- Et, (Hlow t Ht) in L1. discriminate. }
    pose proof Hp as Hp0. unfold cities_perm in Hp0. fold N in Hp0.
    destruct (sjt_surjective N pi Hp0) as [t [Ht Et]].
    pose proof (sjt_first_half N t HN Ht) as Hh. rewrite Et in Hh. fold T in Hh.
    destruct (Nat.ltb_spec t T) as [Hlt|Hge].
    + exists (Z.of_nat t). split; [lia|]. split.
      * left. rewrite Hex by lia. rewrite Nat2Z.id, Et. reflexivity.
      * intros i' Hi' Hcase. apply (Huniq pi t i'); auto.
    + destruct (Hcover (rev pi) (cities_perm_rev n pi Hp)) as [t' [Ht' Et']].
      { rewrite low12_rev, Hh. reflexivity. }
      exists (Z.of_nat t'). split; [lia|]. split.
      * right. rewrite Hex by lia. rewrite Nat2Z.id, Et'. reflexivity.
      * intros i' Hi' Hcase. apply (Huniq (rev pi) t' i'); auto.
        rewrite rev_involutive. tauto.
Qed.

Lemma enumeration_exact_witness :
  nr_perm 4 = zfact (Z.to_nat (4 - 1)) / 2 /\
  (forall i, 0 <= i < nr_perm 4 ->
     exists pi, cities_perm 4 pi /\ examined 4 i = Ok (0 :: pi)) /\
  each_cycle_once 4.
Proof. apply (proj2 enumeration_exact 4). lia. Defined.

(** C2 does not hold for every n: for n = 2 the loop runs no round although
    0,1 is a cycle through both cities, and for n = 14 the 32-bit factorial
    makes the loop run 966026752 rounds instead of 13!/2 = 3113510400. *)
Lemma enumeration_not_exact :
  ~ each_cycle_once 2 /\ nr_perm 14 <> zfact (Z.to_nat (14 - 1)) / 2.
Proof.
  split.
  - intros H. destruct (H [1]) as [i [Hi _]].
    + unfold cities_perm. simpl. reflexivity.
    + vm_compute in Hi. destruct Hi as [H1 H2]. apply H1. destruct i; reflexivity || discriminate.
  - vm_compute. discriminate.
Qed.

(** C8 (amended): for 3 <= n <= 13 and a matrix whose distances between
    distinct cities are positive (and small enough for n of them to add up to
    an int), a recorded tour is replaced only by a tour of strictly lower
    cost, and the tour returned is the first of the examined tours whose cost
    is minimal: no examined tour is cheaper, and every tour examined before
    it costs strictly more. *)
Theorem first_minimum_kept (n : Z) (m : list (list Z)) :
  3 <= n <= 13 -> matrix n m -> nonnegative n m ->
  positive_off_diagonal n m -> fits_int n m ->
  (forall c p r r', 0 < r.(cost) -> update_best n c p r = Ok r' ->
                    r' = r \/ c < r.(cost)) /\
  exists k p,
    0 <= k < nr_perm n /\ examined n k = Ok p /\
    getOptimalTour n m = Ok (mkResult (cycle_cost m p) (map Some (p ++ [0])) (n + 1)) /\
    (forall i q, 0 <= i < nr_perm n -> examined n i = Ok q ->
                 cycle_cost m p <= cycle_cost m q) /\
    (forall i q, 0 <= i < k -> examined n i = Ok q ->
                 cycle_cost m p < cycle_cost m q).
Proof.
  intros Hn Hm Hnn Hpos Hfit. split.
  - intros c p r r' Hr E. unfold update_best in E.
    destruct (Z.ltb_spec c (cost r)); [right; lia|].
    destruct (Z.eqb_spec (cost r) INFINITE) as [E0|_]; [unfold INFINITE in E0; lia|].
    simpl in E. left. congruence.
  - destruct (rounds_half n Hn) as (En & HN & Enr & HT).
    destruct (getOptimalTour_first_min n m Hn Hm Hnn Hpos Hfit) as [Hk Erun].
    set (N := Z.to_nat (n - 1)) in *. set (T := (fact N / 2)%nat) in *.
    set (c := fun t => cycle_cost m (p_of (sjt N t))) in *.
    set (k := argmin c T) in *.
    assert (Hex : forall i, 0 <= i < nr_perm n ->
                            examined n i = Ok (p_of (sjt N (Z.to_nat i)))).
    { intros i Hi. rewrite En. apply examined_sjt; lia. }
    destruct (argmin_spec c T ltac:(lia)) as (_ & Hmin & Hfirst). fold k in Hmin, Hfirst.
    exists (Z.of_nat k), (p_of (sjt N k)).
    split; [lia|]. split; [rewrite Hex by lia; now rewrite Nat2Z.id|].
    split; [exact Erun|]. split.
    + intros i q Hi Eq. rewrite Hex in Eq by lia. inversion Eq; subst q.
      apply (Hmin (Z.to_nat i)). lia.
    + intros i q Hi Eq. rewrite Hex in Eq by lia. inversion Eq; subst q.
      apply (Hfirst (Z.to_nat i)). lia.
Qed.

Lemma first_minimum_kept_witness :
  (forall c p r r', 0 < r.(cost) -> update_best 4 c p r = Ok r' ->
                    r' = r \/ c < r.(cost)) /\
  exists k p,
    0 <= k < nr_perm 4 /\ examined 4 k = Ok p /\
    getOptimalTour 4 cities4
    = Ok (mkResult (cycle_cost cities4 p) (map Some (p ++ [0])) (4 + 1)) /\
    (forall i q, 0 <= i < nr_perm 4 -> examined 4 i = Ok q ->
                 cycle_cost cities4 p <= cycle_cost cities4 q) /\
    (forall i q, 0 <= i < k -> examined 4 i = Ok q ->
                 cycle_cost cities4 p < cycle_cost cities4 q).
Proof.
  destruct cities4_matrix as (H1 & H2 & H3 & H4 & H5).
  apply (first_minimum_kept 4 cities4); auto. lia.
Defined.

(** C8 does not hold for every nonnegative matrix: on [cities_zero4] the first
    tour examined costs 0; it is recorded, and in the next round it is
    replaced by a tour of cost 2, which is the tour returned. *)
Lemma first_minimum_lost :
  nonnegative 4 cities_zero4 /\
  examined 4 0 = Ok [0; 1; 2; 3] /\ tour_cost 4 cities_zero4 [0; 1; 2; 3] = Ok 0 /\
  examined 4 1 = Ok [0; 1; 3; 2] /\ tour_cost 4 cities_zero4 [0; 1; 3; 2] = Ok 2 /\
  update_best 4 2 [0; 1; 3; 2] (mkResult 0 [Some 0; Some 1; Some 2; Some 3; None] 5)
  = Ok (mkResult 2 [Some 0; Some 1; Some 3; Some 2; None] 5) /\
  getOptimalTour 4 cities_zero4
  = Ok (mkResult 2 [Some 0; Some 1; Some 3; Some 2; Some 0] 5) /\
  ~ (forall c p r r', update_best 4 c p r = Ok r' -> r' = r \/ c < r.(cost)).
Proof.
  split; [unfold nonnegative; matrix_entries|].
  repeat (split; [vm_compute; reflexivity|]).
  intros H.
  destruct (H 2 [0; 1; 3; 2] (mkResult 0 [Some 0; Some 1; Some 2; Some 3; None] 5)
              (mkResult 2 [Some 0; Some 1; Some 3; Some 2; None] 5) eq_refl) as [E|E].
  - discriminate.
  - simpl in E. lia.
Qed.

(** C9: for n = 1 the loop runs no round (factorial(0)/2 is 0), so no cell of
    the tour is ever written: the cost returned is 0, the tour is not 0,0. *)
Theorem optimal_tour_one_city (m : list (list Z)) :
  nr_perm 1 = 0 /\
  getOptimalTour 1 m = Ok (mkResult 0 [None; None] 2) /\
  getOptimalTour 1 m <> Ok (mkResult 0 [Some 0; Some 0] 2).
Proof.
  split; [reflexivity|].
  assert (E : getOptimalTour 1 m = Ok (mkResult 0 [None; None] 2)) by reflexivity.
  split; [exact E|]. rewrite E. discriminate.
Qed.

(* the same happens for two cities *)
Lemma optimal_tour_two_cities (m : list (list Z)) :
  getOptimalTour 2 m = Ok (mkResult 0 [None; None; None] 3).
Proof. reflexivity. Qed.

(** *** Reachability *)

Lemma reach_trans E a b c : reach E a b -> reach E b c -> reach E a c.
Proof. intros H1 H2. induction H2; [auto | eapply reach_step; eauto]. Qed.

Lemma reach_one (E : Z -> Z -> Prop) a b : E a b -> reach E a b.
Proof. intros H. eapply reach_step; [apply reach_refl | exact H]. Qed.

Lemma reach_sym E a b :
  (forall x y, E x y -> E y x) -> reach E a b -> reach E b a.
Proof.
  intros Hs H. induction H; [apply reach_refl|].
  eapply reach_trans; [apply reach_one, Hs; eauto | auto].
Qed.

Lemma reach_mono (E E' : Z -> Z -> Prop) a b :
  (forall x y, E x y -> reach E' x y) -> reach E a b -> reach E' a b.
Proof.
  intros Hm H. induction H; [apply reach_refl|].
  eapply reach_trans; eauto.
Qed.

Lemma ladj_sym es a b : ladj es a b -> ladj es b a.
Proof. unfold ladj. tauto. Qed.

Lemma ladjb_spec es a b : ladjb es a b = true <-> ladj es a b.
Proof.
  unfold ladjb, ladj. rewrite existsb_exists. split.
  - intros [[x y] [Hin H]]. simpl in H. apply orb_true_iff in H.
    destruct H as [H|H]; apply andb_true_iff in H; destruct H as [H1 H2];
      apply Z.eqb_eq in H1, H2; subst; auto.
  - intros [H|H]; eexists; (split; [exact H|]); simpl; rewrite !Z.eqb_refl; simpl;
      auto using orb_true_r.
Qed.

Lemma ladjb_sym es a b : ladjb es a b = ladjb es b a.
Proof.
  destruct (ladjb es a b) eqn:E1; destruct (ladjb es b a) eqn:E2; auto.
  - apply ladjb_spec, ladj_sym, ladjb_spec in E1. congruence.
  - apply ladjb_spec, ladj_sym, ladjb_spec in E2. congruence.
Qed.

(** *** Ranges and pairs *)

Lemma zrange_In n x : In x (zrange n) <-> 0 <= x < n.
Proof.
  unfold zrange. rewrite in_map_iff. split.
  - intros [k [<- Hk]]. apply in_seq in Hk. lia.
  - intros H. exists (Z.to_nat x). split; [lia|]. apply in_seq. lia.
Qed.

Lemma zrange_NoDup n : NoDup (zrange n).
Proof.
  unfold zrange. apply Finite.Injective_map_NoDup; [|apply seq_NoDup].
  intros x y. apply Nat2Z.inj.
Qed.

Lemma zrange_length n : length (zrange n) = Z.to_nat n.
Proof. unfold zrange. now rewrite length_map, length_seq. Qed.

Lemma NoDup_app_intro {A} (l1 l2 : list A) :
  NoDup l1 -> NoDup l2 -> (forall x, In x l1 -> ~ In x l2) -> NoDup (l1 ++ l2).
Proof.
  intros H1 H2 Hd. induction H1 as [|a l1 Ha H1 IH]; simpl; auto.
  constructor.
  - rewrite in_app_iff. intros [H|H]; [auto|]. apply (Hd a); simpl; auto.
  - apply IH. intros x Hx. apply Hd. simpl. auto.
Qed.

Lemma NoDup_list_prod {A B} (l : list A) (l' : list B) :
  NoDup l -> NoDup l' -> NoDup (list_prod l l').
Proof.
  intros H1 H2. induction H1 as [|a l Ha H1 IH]; simpl; [constructor|].
  apply NoDup_app_intro; auto.
  - apply Finite.Injective_map_NoDup; auto. intros x y E. congruence.
  - intros [x y] Hx Hy. apply in_map_iff in Hx. destruct Hx as [z [E _]].
    inversion E; subst. apply in_prod_iff in Hy. tauto.
Qed.

Lemma all_pairs_In n u v : In (u, v) (all_pairs n) <-> 0 <= u < v /\ v < n.
Proof.
  unfold all_pairs. rewrite filter_In, in_prod_iff, !zrange_In. simpl.
  rewrite Z.ltb_lt. lia.
Qed.

Lemma all_pairs_NoDup n : NoDup (all_pairs n).
Proof. apply NoDup_filter, NoDup_list_prod; apply zrange_NoDup. Qed.

(* a duplicate-free list of cities that misses none has n entries *)
Lemma NoDup_range_length n (v : list Z) :
  NoDup v -> (forall x, In x v -> 0 <= x < n) -> (length v <= Z.to_nat n)%nat.
Proof.
  intros Hnd Hr. rewrite <- zrange_length. apply NoDup_incl_length; auto.
  intros x Hx. apply zrange_In. auto.
Qed.

Lemma short_list_misses n (v : list Z) :
  (length v < Z.to_nat n)%nat -> exists x, 0 <= x < n /\ ~ In x v.
Proof.
  intros Hlen.
  destruct (Exists_dec (fun x => ~ In x v) (zrange n)) as [H|H].
  - intros x. destruct (in_dec Z.eq_dec x v); [right | left]; tauto.
  - apply Exists_exists in H. destruct H as [x [Hx Hn]]. apply zrange_In in Hx. eauto.
  - exfalso. assert (Hincl : incl (zrange n) v).
    { intros x Hx. destruct (in_dec Z.eq_dec x v) as [|Hn]; auto.
      exfalso. apply H. apply Exists_exists. eauto. }
    pose proof (NoDup_incl_length (zrange_NoDup n) Hincl) as Hle.
    rewrite zrange_length in Hle. lia.
Qed.

Lemma full_list_covers n (v : list Z) x :
  NoDup v -> (forall y, In y v -> 0 <= y < n) -> length v = Z.to_nat n ->
  0 <= x < n -> In x v.
Proof.
  intros Hnd Hr Hlen Hx.
  assert (Hincl : incl v (zrange n)) by (intros y Hy; apply zrange_In; auto).
  assert (Hback : incl (zrange n) v).
  { apply NoDup_length_incl; auto. rewrite zrange_length. lia. }
  apply Hback, zrange_In. auto.
Qed.

(** *** Weights *)

Lemma total_weight_cons cities e es :
  total_weight cities (e :: es) = dist cities (fst e) (snd e) + total_weight cities es.
Proof. reflexivity. Qed.

Lemma total_weight_app cities l1 l2 :
  total_weight cities (l1 ++ l2) = total_weight cities l1 + total_weight cities l2.
Proof. induction l1 as [|e l1 IH]; simpl; [reflexivity|]. fold (total_weight cities (l1 ++ l2)). fold (total_weight cities l1). lia. Qed.

Lemma total_weight_perm cities l1 l2 :
  Permutation l1 l2 -> total_weight cities l1 = total_weight cities l2.
Proof.
  intros H. induction H; simpl; lia.
Qed.

Lemma norm_cases a b : a <> b ->
  (a < b /\ norm a b = (a, b)) \/ (b < a /\ norm a b = (b, a)).
Proof.
  intros H. unfold norm. destruct (Z.ltb_spec a b); [left | right]; split; auto; lia.
Qed.

Lemma dist_norm n cities a b :
  symmetric n cities -> 0 <= a < n -> 0 <= b < n ->
  dist cities (fst (norm a b)) (snd (norm a b)) = dist cities a b.
Proof.
  intros Hs Ha Hb. unfold norm. destruct (a <? b); simpl; auto.
Qed.

(** *** Growing a tree by a lightest edge that leaves it *)

Section Exchange.

Variable n : Z.
Variable cities : list (list Z).
Hypothesis Hsym : symmetric n cities.

(* the vertices and the edges of the tree grown so far *)
Variable S : list Z.
Variable es : list (Z * Z).
Hypothesis S_range : forall x, In x S -> 0 <= x < n.
Hypothesis root_in : In 0 S.
Hypothesis es_inside : forall a b, In (a, b) es -> In a S /\ In b S.
Hypothesis es_connects : forall x, In x S -> reach (ladj es) 0 x.

(* the edge chosen: from c1 inside to c2 outside, lightest of its kind *)
Variable c1 c2 : Z.
Hypothesis c1_in : In c1 S.
Hypothesis c2_range : 0 <= c2 < n.
Hypothesis c2_out : ~ In c2 S.
Hypothesis c12_edge : dist cities c1 c2 <> INFINITE.
Hypothesis lightest :
  forall a b, In a S -> 0 <= b < n -> ~ In b S -> dist cities a b <> INFINITE ->
              dist cities c1 c2 <= dist cities a b.

(* a spanning tree that contains the tree grown so far *)
Variable M : list (Z * Z).
Hypothesis M_tree : spanning_tree n cities M.
Hypothesis es_in_M : incl es M.

Let outside (a b : Z) : Prop := ladj M a b /\ ~ In a S /\ ~ In b S.

Lemma outside_stays y : reach outside c2 y -> ~ In y S.
Proof. intros H. induction H; auto. destruct H0 as (_ & _ & H0). auto. Qed.

(* walking in M from c2, one stays outside or meets an edge back into S *)
Lemma leaves_outside z :
  reach (ladj M) c2 z ->
  reach outside c2 z \/ exists y x, reach outside c2 y /\ In x S /\ ladj M y x.
Proof.
  intros H. induction H as [|b c Hb IH Hbc]; [left; apply reach_refl|].
  destruct IH as [IH|IH]; [|auto].
  destruct (in_dec Z.eq_dec c S) as [Hc|Hc].
  - right. exists b, c. auto.
  - left. eapply reach_step; [exact IH|]. split; [auto|]. split; [|auto].
    apply outside_stays. auto.
Qed.

Lemma M_edge_range a b : ladj M a b -> 0 <= a < n /\ 0 <= b < n /\ a <> b.
Proof.
  destruct M_tree as (_ & Hv & _). intros [H|H]; apply Hv in H; lia.
Qed.

Lemma M_edge_weight a b : ladj M a b -> dist cities a b <> INFINITE.
Proof.
  destruct M_tree as (_ & Hv & _). intros [H|H].
  - apply Hv in H. tauto.
  - pose proof (Hv _ _ H) as (H1 & H2 & H3). rewrite (Hsym a b) by lia. auto.
Qed.

Lemma M_edge_norm a b : ladj M a b -> In (norm a b) M.
Proof.
  destruct M_tree as (_ & Hv & _). intros [H|H]; pose proof (Hv _ _ H) as (H1 & _);
    unfold norm.
  - destruct (Z.ltb_spec a b); [auto | lia].
  - destruct (Z.ltb_spec a b); [lia | auto].
Qed.

Theorem exchange :
  exists M2, spanning_tree n cities M2 /\ incl (norm c1 c2 :: es) M2 /\
             total_weight cities M2 <= total_weight cities M.
Proof.
  destruct (in_dec (fun x y : Z * Z =>
                      ltac:(decide equality; apply Z.eq_dec)) (norm c1 c2) M) as [Hin|Hnin].
  { exists M. split; [auto|]. split; [|lia].
    intros e [<-|He]; auto. }
  pose proof M_tree as (Mnd & Mv & Mlen & Mn & Mconn).
  (* an edge of M from outside back into S *)
  assert (Hback : exists y x, reach outside c2 y /\ In x S /\ ladj M y x).
  { assert (Hr : reach (ladj M) c2 0).
    { apply reach_sym; [apply ladj_sym|]. apply Mconn. lia. }
    destruct (leaves_outside 0 Hr) as [H|H]; auto.
    apply outside_stays in H. contradiction. }
  destruct Hback as (y & x & Hy & Hx & Hyx).
  pose proof (outside_stays y Hy) as Hyout.
  pose proof (M_edge_range _ _ Hyx) as (Hyr & Hxr & Hne).
  pose proof (M_edge_norm _ _ (ladj_sym _ _ _ Hyx)) as He'.
  set (e' := norm x y) in *.
  apply in_split in He'. destruct He' as (M1 & M3 & EM).
  set (ne := norm c1 c2).
  assert (Hc12 : c1 <> c2) by (intros ->; contradiction).
  assert (Hc1r : 0 <= c1 < n) by auto.
  exists (ne :: M1 ++ M3).
  assert (Hrest : forall e, In e M -> e <> e' -> In e (M1 ++ M3)).
  { intros e He Hd. rewrite EM in He. apply in_app_or in He. apply in_or_app.
    destruct He as [He|[He|He]]; auto. congruence. }
  assert (Hrest' : forall e, In e (M1 ++ M3) -> In e M).
  { intros e He. rewrite EM. apply in_app_or in He. apply in_or_app.
    destruct He; simpl; auto. }
  assert (He'_ends : forall a b, (a, b) = e' -> (a = x /\ b = y) \/ (a = y /\ b = x)).
  { intros a b E. unfold e', norm in E. destruct (x <? y); inversion E; auto. }
  assert (Hes_rest : forall e, In e es -> In e (M1 ++ M3)).
  { intros [a b] He. apply Hrest; [apply es_in_M; auto|].
    intros E. apply es_inside in He. destruct (He'_ends _ _ E) as [[-> ->]|[-> ->]]; tauto. }
  split; [|split].
  - (* a spanning tree again *)
    split; [|split; [|split]].
    + constructor.
      * intros H. apply Hnin. apply Hrest'. exact H.
      * rewrite EM in Mnd. apply NoDup_remove_1 in Mnd. exact Mnd.
    + intros u v [E|H].
      * unfold ne in E. destruct (norm_cases c1 c2 Hc12) as [[Hlt E']|[Hlt E']];
          rewrite E' in E; inversion E; subst u v.
        -- repeat split; try lia.
        -- repeat split; try lia. rewrite (Hsym c2 c1) by lia. auto.
      * apply Mv. apply Hrest'. exact H.
    + rewrite EM, length_app in Mlen. simpl in *. rewrite length_app. lia.
    + split; [lia|]. intros v Hv.
      apply (reach_mono (ladj M)); [|apply Mconn; auto].
      intros a b Hab.
      assert (Hxy : reach (ladj (ne :: M1 ++ M3)) x y).
      { (* x to c1 inside the tree, the new edge, c2 to y outside *)
        apply (reach_trans _ x c1).
        - apply (reach_mono (ladj es)).
          + intros p q [H|H]; apply reach_one; [left | right]; right; apply Hes_rest; auto.
          + apply (reach_trans _ x 0); [apply reach_sym; [apply ladj_sym|]|]; auto.
        - apply (reach_trans _ c1 c2).
          + apply reach_one. unfold ne.
            destruct (norm_cases c1 c2 Hc12) as [[_ E]|[_ E]]; rewrite E;
              [left | right]; left; reflexivity.
          + apply (reach_mono outside); [|exact Hy].
            intros p q (Hpq & Hp & Hq). apply reach_one.
            destruct Hpq as [H|H]; [left | right]; right; apply Hrest; auto;
              intros E; destruct (He'_ends _ _ E) as [[-> ->]|[-> ->]]; tauto. }
      destruct (in_dec (fun p q : Z * Z => ltac:(decide equality; apply Z.eq_dec))
                       (norm a b) [e']) as [[E|[]]|Hd].
      * assert (Hab' : (a = x /\ b = y) \/ (a = y /\ b = x)).
        { pose proof (M_edge_range _ _ Hab) as (_ & _ & Hnab).
          symmetry in E.
          destruct (norm_cases a b Hnab) as [[_ E1]|[_ E1]]; rewrite E1 in E;
            destruct (He'_ends _ _ E) as [[-> ->]|[-> ->]]; auto. }
        destruct Hab' as [[-> ->]|[-> ->]]; [exact Hxy|].
        apply reach_sym; [apply ladj_sym | exact Hxy].
      * apply reach_one.
        assert (Hn : In (norm a b) (M1 ++ M3)).
        { apply Hrest; [apply M_edge_norm; auto|]. intros E. apply Hd. simpl. auto. }
        pose proof (M_edge_range _ _ Hab) as (_ & _ & Hnab).
        destruct (norm_cases a b Hnab) as [[_ E1]|[_ E1]]; rewrite E1 in Hn;
          [left | right]; right; exact Hn.
  - intros e [<-|He]; [left; reflexivity | right; apply Hes_rest; auto].
  - rewrite EM. rewrite total_weight_cons, !total_weight_app, total_weight_cons.
    fold ne. unfold ne, e'. rewrite !(dist_norm n) by auto.
    assert (dist cities c1 c2 <= dist cities x y); [|lia].
    apply lightest; auto. apply M_edge_weight. apply ladj_sym. auto.
Qed.

End Exchange.

Lemma for_list_inv {A S} (I : list A -> S -> Prop) (l : list A)
      (body : A -> S -> res S) (s : S) :
  I [] s ->
  (forall pre x suf s, l = pre ++ x :: suf -> I pre s ->
                       exists s', body x s = Ok s' /\ I (pre ++ [x]) s') ->
  exists s', for_list l body s = Ok s' /\ I l s'.
Proof.
  intros H0 Hstep.
  assert (G : forall suf pre s, l = pre ++ suf -> I pre s ->
                                exists s', for_list suf body s = Ok s' /\ I l s').
  { induction suf as [|x suf IH]; intros pre s0 E Hs.
    - rewrite app_nil_r in E. subst. exists s0. auto.
    - destruct (Hstep pre x suf s0 E Hs) as [s1 [E1 H1]].
      cbn [for_list]. rewrite E1. cbn [bind].
      apply (IH (pre ++ [x])); auto. rewrite <- app_assoc. exact E. }
  apply (G l [] s); auto.
Qed.

Lemma found_in_spec v j : found_in v j = true <-> In j v.
Proof.
  unfold found_in.
  assert (G : forall b, fold_left (fun found c => if c =? j then true else found) v b = true
                        <-> b = true \/ In j v).
  { induction v as [|c v IH]; intros b; simpl; [tauto|].
    rewrite IH. destruct (Z.eqb_spec c j); subst; intuition congruence. }
  rewrite G. intuition congruence.
Qed.

(** *** Writing into a matrix *)

Lemma nth_upd_eq {A} i (x d : A) l : (i < length l)%nat -> nth i (upd i x l) d = x.
Proof.
  intros H. apply nth_error_nth. apply nth_error_upd_eq. exact H.
Qed.

Lemma nth_upd_ne {A} i j (x d : A) l : i <> j -> nth j (upd i x l) d = nth j l d.
Proof.
  intros H. revert i j H. induction l as [|h t IH]; intros [|i] [|j] H; simpl; auto;
    try congruence.
Qed.

Lemma wr2_spec n (g : list (list Z)) i j x :
  matrix n g -> 0 <= i < n -> 0 <= j < n ->
  exists g', wr2 g i j x = Ok g' /\ matrix n g' /\
             forall a b, 0 <= a < n -> 0 <= b < n ->
                         dist g' a b = if (a =? i) && (b =? j) then x else dist g a b.
Proof.
  intros [Hl Hrows] Hi Hj. unfold wr2.
  assert (Hrow : rd g i = Ok (nth (Z.to_nat i) g [])).
  { apply rd_Ok_iff. split; [lia|]. apply nth_error_nth'. lia. }
  set (row := nth (Z.to_nat i) g []) in *.
  assert (Hrl : Z.of_nat (length row) = n) by (apply Hrows, nth_In; lia).
  rewrite Hrow. cbn [bind]. rewrite wr_Ok by lia. cbn [bind]. rewrite wr_Ok by lia.
  eexists. split; [reflexivity|]. split.
  - split; [rewrite length_upd; auto|]. intros r Hr.
    apply In_nth_error in Hr. destruct Hr as [k Hk].
    destruct (Nat.eq_dec (Z.to_nat i) k) as [<-|Hne].
    + rewrite nth_error_upd_eq in Hk by lia. inversion Hk. rewrite length_upd. auto.
    + rewrite nth_error_upd_ne in Hk by auto. apply Hrows. eapply nth_error_In; eauto.
  - intros a b Ha Hb. unfold dist.
    destruct (Z.eqb_spec a i) as [->|Hai]; cbn [andb].
    + rewrite nth_upd_eq by lia.
      destruct (Z.eqb_spec b j) as [->|Hbj].
      * apply nth_upd_eq. lia.
      * apply nth_upd_ne. lia.
    + rewrite nth_upd_ne by lia. reflexivity.
Qed.

Lemma mst_init_matrix n : 0 <= n -> matrix n (mst_init n).
Proof.
  intros Hn. unfold mst_init. split.
  - rewrite repeat_length. lia.
  - intros row Hr. apply repeat_spec in Hr. subst. rewrite repeat_length. lia.
Qed.

Lemma nth_repeat_any {A} (x d : A) k i : (i < k)%nat -> nth i (repeat x k) d = x.
Proof.
  revert i. induction k as [|k IH]; intros [|i] H; simpl; try lia; auto. apply IH. lia.
Qed.

Lemma mst_init_dist n a b : 0 <= a < n -> 0 <= b < n -> dist (mst_init n) a b = UNCONNECTED.
Proof.
  intros Ha Hb. unfold dist, mst_init.
  rewrite nth_repeat_any by lia. apply nth_repeat_any. lia.
Qed.

(** *** The scan for the lightest edge leaving the tree *)

Section Scan.

Variable n : Z.
Variable cities : list (list Z).
Variable v : list Z.
Hypothesis Hm : matrix n cities.
Hypothesis v_range : forall x, In x v -> 0 <= x < n.

Lemma scan_inner vp1 pre st :
  In vp1 v ->
  best_so_far n cities v (fun a b => In a pre /\ 0 <= b < n) st ->
  exists st',
    for_range 0 n (fun j st =>
      let '(_, e) := st in
      w <- rd2 cities vp1 j ;;
      if w =? INFINITE then Ok st
      else if negb (found_in v j) && ((e.(weight) =? INFINITE) || (w <? e.(weight)))
           then Ok (Some j, mkEdge (Some vp1) (Some j) w)
           else Ok st) st
    = Ok st' /\
    best_so_far n cities v (fun a b => In a (pre ++ [vp1]) /\ 0 <= b < n) st'.
Proof.
  intros Hvp1 Hst.
  destruct (Z.le_gt_cases n 0) as [Hn0|Hn0].
  { rewrite for_range_empty by lia. exists st. split; auto.
    destruct st as [[c2|] e]; simpl in *.
    - destruct Hst as (c1 & E & Hc & Hmin). exists c1. split; [exact E|]. split; [exact Hc|].
      intros a b [_ Hb]. lia.
    - destruct Hst as [E Hno]. split; auto. intros a b [_ Hb]. lia. }
  pose proof (v_range _ Hvp1) as Hr1.
  destruct (for_range_inv
    (fun j st => best_so_far n cities v
                   (fun a b => (In a pre /\ 0 <= b < n) \/ (a = vp1 /\ 0 <= b < j)) st)
    0 n
    (fun j st =>
      let '(_, e) := st in
      w <- rd2 cities vp1 j ;;
      if w =? INFINITE then Ok st
      else if negb (found_in v j) && ((e.(weight) =? INFINITE) || (w <? e.(weight)))
           then Ok (Some j, mkEdge (Some vp1) (Some j) w)
           else Ok st) st) as [st' [E I]].
  - lia.
  - destruct st as [[c2|] e]; simpl in *.
    + destruct Hst as (c1 & E & Hc & Hmin). exists c1. split; [exact E|]. split; [exact Hc|].
      intros a b [H|[_ H]]; [auto | lia].
    + destruct Hst as [E Hno]. split; auto. intros a b [H|[_ H]]; [auto | lia].
  - intros j [vn e] Hj Hinv.
    rewrite (rd2_dist n) by auto. cbn [bind].
    (* is the pair (vp1, j) a crossing edge? *)
    assert (Hcross : crossing n cities v vp1 j <->
                     dist cities vp1 j <> INFINITE /\ found_in v j = false).
    { unfold crossing. split.
      - intros (_ & _ & Hnin & Hd). split; auto.
        destruct (found_in v j) eqn:Ef; auto. apply found_in_spec in Ef. contradiction.
      - intros [Hd Hf]. repeat split; auto; try lia.
        intros Hin. apply found_in_spec in Hin. congruence. }
    destruct (Z.eqb_spec (dist cities vp1 j) INFINITE) as [Ew|Ew].
    { (* no edge *)
      eexists. split; [reflexivity|].
      destruct vn as [c2|]; simpl in *.
      - destruct Hinv as (c1 & Ee & Hc & Hmin). exists c1. split; [exact Ee|]. split; [exact Hc|].
        intros a b [H|[-> H]] Hab; [apply Hmin; auto|].
        destruct (Z.eq_dec b j) as [->|]; [|apply Hmin; auto; right; lia].
        apply Hcross in Hab. tauto.
      - destruct Hinv as [Ee Hno]. split; auto.
        intros a b [H|[-> H]]; [apply Hno; auto|].
        destruct (Z.eq_dec b j) as [->|]; [|apply Hno; right; lia].
        intros Hab. apply Hcross in Hab. tauto. }
    destruct (found_in v j) eqn:Ef; cbn [negb andb].
    { (* the other end is in the tree already *)
      eexists. split; [reflexivity|].
      destruct vn as [c2|]; simpl in *.
      - destruct Hinv as (c1 & Ee & Hc & Hmin). exists c1. split; [exact Ee|]. split; [exact Hc|].
        intros a b [H|[-> H]] Hab; [apply Hmin; auto|].
        destruct (Z.eq_dec b j) as [->|]; [|apply Hmin; auto; right; lia].
        apply Hcross in Hab. destruct Hab. congruence.
      - destruct Hinv as [Ee Hno]. split; auto.
        intros a b [H|[-> H]]; [apply Hno; auto|].
        destruct (Z.eq_dec b j) as [->|]; [|apply Hno; right; lia].
        intros Hab. apply Hcross in Hab. destruct Hab. congruence. }
    assert (Hcj : crossing n cities v vp1 j) by (apply Hcross; auto).
    destruct vn as [c2|]; simpl in Hinv.
    + destruct Hinv as (c1 & Ee & Hc & Hmin). subst e. cbn [weight].
      assert (Hw : dist cities c1 c2 <> INFINITE) by (destruct Hc as (_ & _ & _ & H); auto).
      destruct (Z.eqb_spec (dist cities c1 c2) INFINITE) as [|_]; [contradiction|].
      cbn [orb].
      destruct (Z.ltb_spec (dist cities vp1 j) (dist cities c1 c2)) as [Hlt|Hge].
      * eexists. split; [reflexivity|]. simpl. exists vp1.
        split; [reflexivity|]. split; [exact Hcj|].
        intros a b [Hp|[-> Hp]] Hab.
        -- specialize (Hmin a b (or_introl Hp) Hab). lia.
        -- destruct (Z.eq_dec b j) as [->|]; [lia|].
           assert (Hb : 0 <= b < j) by lia.
           specialize (Hmin vp1 b (or_intror (conj eq_refl Hb)) Hab). lia.
      * eexists. split; [reflexivity|]. simpl. exists c1.
        split; [reflexivity|]. split; [exact Hc|].
        intros a b [Hp|[-> Hp]] Hab; [apply Hmin; auto|].
        destruct (Z.eq_dec b j) as [->|]; [lia|]. apply Hmin; auto. right. lia.
    + destruct Hinv as [Ee Hno]. subst e. cbn [weight]. rewrite Z.eqb_refl. cbn [orb].
      eexists. split; [reflexivity|]. simpl. exists vp1.
      split; [reflexivity|]. split; [exact Hcj|].
      intros a b [H|[-> H]] Hab.
      * exfalso. apply (Hno a b); auto.
      * destruct (Z.eq_dec b j) as [->|]; [lia|].
        exfalso. apply (Hno vp1 b); auto. right. lia.
  - exists st'. split; auto.
    destruct st' as [[c2|] e]; simpl in *.
    + destruct I as (c1 & Ee & Hc & Hmin). exists c1. split; [exact Ee|]. split; [exact Hc|].
      intros a b [Ha Hb] Hab. apply Hmin; auto.
      apply in_app_or in Ha. destruct Ha as [Ha|[<-|[]]]; auto.
    + destruct I as [Ee Hno]. split; auto.
      intros a b [Ha Hb]. apply Hno.
      apply in_app_or in Ha. destruct Ha as [Ha|[<-|[]]]; auto.
Qed.

Lemma prim_scan_spec :
  exists st, prim_scan n cities v = Ok st /\
             best_so_far n cities v (fun a b => In a v /\ 0 <= b < n) st.
Proof.
  unfold prim_scan.
  destruct (for_list_inv
    (fun pre st => best_so_far n cities v (fun a b => In a pre /\ 0 <= b < n) st)
    v
    (fun vp1 st =>
       for_range 0 n (fun j st =>
         let '(_, e) := st in
         w <- rd2 cities vp1 j ;;
         if w =? INFINITE then Ok st
         else if negb (found_in v j) && ((e.(weight) =? INFINITE) || (w <? e.(weight)))
              then Ok (Some j, mkEdge (Some vp1) (Some j) w)
              else Ok st) st)
    (None, mkEdge None None INFINITE)) as [st [E I]].
  - simpl. split; auto. intros a b [[] _].
  - intros pre x suf s E Hs. apply scan_inner; auto.
    rewrite E. apply in_or_app. simpl. auto.
  - exists st. auto.
Qed.

End Scan.

(** *** One round, and the loop *)

Lemma reach_crosses (E : Z -> Z -> Prop) (v : list Z) a b :
  reach E a b -> In a v -> ~ In b v -> exists x y, In x v /\ ~ In y v /\ E x y.
Proof.
  intros H Ha. induction H as [|b c Hb IH Hbc]; [contradiction|]. intros Hc.
  destruct (in_dec Z.eq_dec b v) as [Hin|Hout]; eauto.
Qed.

Lemma ladjb_cons_norm c1 c2 es a b :
  c1 <> c2 ->
  ladjb (norm c1 c2 :: es) a b
  = ((a =? c1) && (b =? c2)) || ((a =? c2) && (b =? c1)) || ladjb es a b.
Proof.
  intros Hne. unfold ladjb. cbn [existsb].
  fold (ladjb es a b). f_equal.
  destruct (norm_cases c1 c2 Hne) as [[_ E]|[_ E]]; rewrite E; simpl;
    destruct (Z.eqb_spec c1 a); destruct (Z.eqb_spec c2 b);
    destruct (Z.eqb_spec c1 b); destruct (Z.eqb_spec c2 a);
    destruct (Z.eqb_spec a c1); destruct (Z.eqb_spec b c2);
    destruct (Z.eqb_spec a c2); destruct (Z.eqb_spec b c1);
    simpl; auto; congruence.
Qed.

Section Round.

Variable n : Z.
Variable cities : list (list Z).
Hypothesis Hm : matrix n cities.
Hypothesis Hsym : symmetric n cities.
Hypothesis Hconn : connected n (has_edge n cities).

Lemma prim_round_spec i st es :
  1 <= i < n -> prim_inv n cities i st es ->
  exists st' es', prim_round n cities st = Ok st' /\ prim_inv n cities (i + 1) st' es'.
Proof.
  intros Hi Hinv. destruct st as [v mst].
  destruct Hinv as (Vnd & Vr & Vlen & V0 & Mm & Md & End & Ev & Elen & Er & Emst).
  (* some edge leaves the tree *)
  assert (Hcross : exists a b, crossing n cities v a b).
  { destruct (short_list_misses n v ltac:(lia)) as [x [Hx Hout]].
    destruct Hconn as [_ Hc].
    destruct (reach_crosses _ v 0 x (Hc x Hx) V0 Hout) as (a & b & Ha & Hb & Hab).
    exists a, b. destruct Hab as (_ & Hbr & Hd). repeat split; auto; lia. }
  destruct (prim_scan_spec n cities v Hm Vr) as [[[c2|] e] [Escan Hbest]]; simpl in Hbest.
  2:{ destruct Hbest as [_ Hno]. destruct Hcross as (a & b & Hab).
      exfalso. apply (Hno a b); auto. destruct Hab as (Ha & Hb & _). auto. }
  destruct Hbest as (c1 & Ee & Hc & Hmin). subst e.
  destruct Hc as (Hc1 & Hc2r & Hc2 & Hw).
  pose proof (Vr _ Hc1) as Hc1r.
  assert (Hne : c1 <> c2) by (intros ->; contradiction).
  unfold prim_round. rewrite Escan. cbn [bind val city1 city2].
  destruct (wr2_spec n mst c1 c2 CONNECTED Mm Hc1r Hc2r) as (mst1 & E1 & Mm1 & Md1).
  rewrite E1. cbn [bind].
  destruct (wr2_spec n mst1 c2 c1 CONNECTED Mm1 Hc2r Hc1r) as (mst2 & E2 & Mm2 & Md2).
  rewrite E2. cbn [bind].
  exists (v ++ [c2], mst2), (norm c1 c2 :: es). split; [reflexivity|].
  assert (Hnew : forall a b, (a, b) = norm c1 c2 ->
                             a < b /\ ((a = c1 /\ b = c2) \/ (a = c2 /\ b = c1))).
  { intros a b E. destruct (norm_cases c1 c2 Hne) as [[Hlt E']|[Hlt E']];
      rewrite E' in E; inversion E; subst; auto. }
  assert (A1 : NoDup (v ++ [c2])).
  { apply NoDup_app_intro; auto; [repeat constructor; simpl; tauto|].
    intros x Hx [<-|[]]. contradiction. }
  assert (A2 : forall x, In x (v ++ [c2]) -> 0 <= x < n).
  { intros x Hx. apply in_app_or in Hx. destruct Hx as [Hx|[<-|[]]]; auto. }
  assert (A3 : Z.of_nat (length (v ++ [c2])) = i + 1).
  { rewrite length_app. simpl. lia. }
  assert (A4 : In 0 (v ++ [c2])) by (apply in_or_app; auto).
  assert (A6 : forall a b, 0 <= a < n -> 0 <= b < n ->
             dist mst2 a b = if ladjb (norm c1 c2 :: es) a b then CONNECTED else UNCONNECTED).
  { intros a b Ha Hb. rewrite Md2, Md1 by auto. rewrite ladjb_cons_norm by auto.
    rewrite (Md a b Ha Hb).
    destruct ((a =? c2) && (b =? c1)); destruct ((a =? c1) && (b =? c2));
      destruct (ladjb es a b); reflexivity. }
  assert (A7 : NoDup (norm c1 c2 :: es)).
  { constructor; auto. intros Hin.
    destruct (norm_cases c1 c2 Hne) as [[_ E]|[_ E]]; rewrite E in Hin;
      apply Ev in Hin; tauto. }
  assert (A8 : forall a b, In (a, b) (norm c1 c2 :: es) ->
             a < b /\ In a (v ++ [c2]) /\ In b (v ++ [c2]) /\ dist cities a b <> INFINITE).
  { intros a b [E|Hin].
    - destruct (Hnew a b (eq_sym E)) as [Hlt [[-> ->]|[-> ->]]]; repeat split; auto;
        try (apply in_or_app; simpl; auto).
      rewrite (Hsym c2 c1) by auto. auto.
    - destruct (Ev a b Hin) as (H1 & H2 & H3 & H4). repeat split; auto;
        apply in_or_app; auto. }
  assert (A9 : Z.of_nat (length (norm c1 c2 :: es)) = i + 1 - 1) by (simpl length; lia).
  assert (A10 : forall x, In x (v ++ [c2]) -> reach (ladj (norm c1 c2 :: es)) 0 x).
  { intros x Hx. apply in_app_or in Hx.
    assert (Hmono : forall y, reach (ladj es) 0 y -> reach (ladj (norm c1 c2 :: es)) 0 y).
    { intros y. apply reach_mono. intros p q [H|H]; apply reach_one; [left | right];
        right; auto. }
    destruct Hx as [Hx|[<-|[]]]; [apply Hmono; auto|].
    eapply reach_step; [apply Hmono, Er, Hc1|].
    destruct (norm_cases c1 c2 Hne) as [[_ E]|[_ E]]; rewrite E; [left | right];
      left; reflexivity. }
  assert (A11 : forall M', spanning_tree n cities M' ->
              exists M, spanning_tree n cities M /\ incl (norm c1 c2 :: es) M /\
                        total_weight cities M <= total_weight cities M').
  { intros M' HM'. destruct (Emst M' HM') as (M & HM & Hincl & Hle).
    assert (Hins : forall a b, In (a, b) es -> In a v /\ In b v).
    { intros a b H. apply Ev in H. tauto. }
    assert (Hlight : forall a b, In a v -> 0 <= b < n -> ~ In b v ->
                                 dist cities a b <> INFINITE ->
                                 dist cities c1 c2 <= dist cities a b).
    { intros a b Ha Hb Hout Hd. apply Hmin; [auto|]. unfold crossing. tauto. }
    destruct (exchange n cities Hsym v es Vr V0 Hins Er c1 c2 Hc1 Hc2r Hc2 Hw Hlight
                M HM Hincl) as (M2 & HM2 & Hincl2 & Hle2).
    exists M2. split; [auto|]. split; [auto|]. lia. }
  unfold prim_inv.
  exact (conj A1 (conj A2 (conj A3 (conj A4 (conj Mm2 (conj A6 (conj A7 (conj A8
          (conj A9 (conj A10 A11)))))))))).
Qed.

Theorem prim_loop_spec :
  exists v mst es,
    prim_loop n cities (mst_init n) = Ok (v, mst) /\ prim_inv n cities n (v, mst) es.
Proof.
  destruct Hconn as [Hn _]. unfold prim_loop.
  destruct (for_range_inv (fun i st => exists es, prim_inv n cities i st es) 1 n
              (fun _ st => prim_round n cities st) ([0], mst_init n))
    as [[v mst] [E [es I]]].
  - lia.
  - exists []. unfold prim_inv.
    split; [repeat constructor; simpl; tauto|].
    split; [intros x [<-|[]]; lia|].
    split; [reflexivity|]. split; [simpl; auto|].
    split; [apply mst_init_matrix; lia|].
    split; [intros a b Ha Hb; apply mst_init_dist; auto|].
    split; [constructor|]. split; [intros a b []|]. split; [reflexivity|].
    split; [intros x [<-|[]]; apply reach_refl|].
    intros M' HM'. exists M'. split; [auto|]. split; [intros e []|lia].
  - intros i st Hi [es Hinv]. destruct (prim_round_spec i st es Hi Hinv) as (st' & es' & E & H).
    eauto.
  - eauto.
Qed.

End Round.

(** *** The tree marked when the loop ends *)

Section Built.

Variable n : Z.
Variable cities : list (list Z).
Variable v : list Z.
Variable mst : list (list Z).
Variable es : list (Z * Z).
Hypothesis Hn : 0 < n.
Hypothesis Hinv : prim_inv n cities n (v, mst) es.

Lemma built_all_cities x : 0 <= x < n -> In x v.
Proof.
  destruct Hinv as (Vnd & Vr & Vlen & _). intros Hx.
  apply (full_list_covers n); auto. lia.
Qed.

Lemma built_marks a b :
  0 <= a < n -> 0 <= b < n -> (dist mst a b = CONNECTED <-> ladj es a b).
Proof.
  destruct Hinv as (_ & _ & _ & _ & _ & Md & _). intros Ha Hb.
  rewrite (Md a b Ha Hb), <- ladjb_spec.
  destruct (ladjb es a b); unfold CONNECTED, UNCONNECTED; split; intros; auto; discriminate.
Qed.

Lemma built_edge_range a b : In (a, b) es -> 0 <= a < b /\ b < n.
Proof.
  destruct Hinv as (_ & Vr & _ & _ & _ & _ & _ & Ev & _). intros H.
  destruct (Ev a b H) as (H1 & H2 & H3 & _). apply Vr in H2, H3. lia.
Qed.

Lemma built_edge_list : Permutation (edge_list n mst) es.
Proof.
  pose proof Hinv as (_ & _ & _ & _ & _ & _ & End & _).
  apply NoDup_Permutation; auto.
  - apply NoDup_filter, all_pairs_NoDup.
  - intros [a b]. unfold edge_list. rewrite filter_In, all_pairs_In. simpl.
    rewrite Z.eqb_eq. split.
    + intros [Hr Hd]. apply built_marks in Hd; try lia.
      destruct Hd as [H|H]; auto. apply built_edge_range in H. lia.
    + intros H. pose proof (built_edge_range a b H) as Hr. split; [lia|].
      apply built_marks; try lia. left. auto.
Qed.

Lemma built_symmetric : symmetric n mst.
Proof.
  destruct Hinv as (_ & _ & _ & _ & _ & Md & _). intros a b Ha Hb.
  rewrite (Md a b Ha Hb), (Md b a Hb Ha), ladjb_sym. reflexivity.
Qed.

Lemma built_connected : connected n (joined n mst).
Proof.
  pose proof Hinv as (_ & _ & _ & _ & _ & _ & _ & _ & _ & Er & _).
  split; auto. intros x Hx.
  apply (reach_mono (ladj es)); [|apply Er, built_all_cities; auto].
  intros p q Hpq. apply reach_one.
  assert (0 <= p < n /\ 0 <= q < n) as [Hp Hq].
  { destruct Hpq as [H|H]; apply built_edge_range in H; lia. }
  repeat split; try lia. apply built_marks; auto.
Qed.

Lemma built_spanning_tree : spanning_tree n cities (edge_list n mst).
Proof.
  pose proof Hinv as (_ & _ & _ & _ & _ & _ & _ & Ev & Elen & Er & _).
  pose proof built_edge_list as Hp.
  split; [apply NoDup_filter, all_pairs_NoDup|].
  split; [|split].
  - intros a b H. eapply Permutation_in in H; [|exact Hp].
    pose proof (built_edge_range a b H). destruct (Ev a b H) as (_ & _ & _ & Hd).
    repeat split; auto; lia.
  - rewrite (Permutation_length Hp). exact Elen.
  - split; auto. intros x Hx.
    apply (reach_mono (ladj es)); [|apply Er, built_all_cities; auto].
    intros p q [H|H]; apply reach_one; [left | right];
      (eapply Permutation_in; [symmetry; exact Hp | exact H]).
Qed.

Lemma built_minimal T :
  spanning_tree n cities T ->
  total_weight cities (edge_list n mst) <= total_weight cities T.
Proof.
  pose proof Hinv as (_ & _ & _ & _ & _ & _ & End & _ & Elen & _ & Emst).
  intros HT. destruct (Emst T HT) as (M & HM & Hincl & Hle).
  rewrite (total_weight_perm cities _ _ built_edge_list).
  assert (Permutation es M).
  { apply NoDup_Permutation_bis; auto. destruct HM as (_ & _ & HMlen & _). lia. }
  rewrite (total_weight_perm cities es M); auto.
Qed.

End Built.

Lemma prim_loop_tree (n : Z) (cities : list (list Z)) :
  matrix n cities -> symmetric n cities -> connected n (has_edge n cities) ->
  exists v mst,
    prim_loop n cities (mst_init n) = Ok (v, mst) /\
    matrix n mst /\ symmetric n mst /\
    Z.of_nat (length (edge_list n mst)) = n - 1 /\
    connected n (joined n mst).
Proof.
  intros Hm Hs Hc.
  destruct (prim_loop_spec n cities Hm Hs Hc) as (v & mst & es & E & Hinv).
  pose proof Hc as [Hn _].
  exists v, mst. split; [exact E|].
  split; [apply Hinv|].
  split; [apply (built_symmetric n cities v mst es Hinv)|].
  split; [|apply (built_connected n cities v mst es Hn Hinv)].
  rewrite (Permutation_length (built_edge_list n cities v mst es Hinv)). apply Hinv.
Qed.

Lemma prim_loop_minimum (n : Z) (cities : list (list Z)) :
  matrix n cities -> symmetric n cities -> connected n (has_edge n cities) ->
  exists v mst,
    prim_loop n cities (mst_init n) = Ok (v, mst) /\
    spanning_tree n cities (edge_list n mst) /\
    forall T, spanning_tree n cities T ->
              total_weight cities (edge_list n mst) <= total_weight cities T.
Proof.
  intros Hm Hs Hc.
  destruct (prim_loop_spec n cities Hm Hs Hc) as (v & mst & es & E & Hinv).
  pose proof Hc as [Hn _].
  exists v, mst. split; [exact E|]. split.
  - apply (built_spanning_tree n cities v mst es Hn Hinv).
  - apply (built_minimal n cities v mst es Hinv).
Qed.

Lemma rtree_induction (P : rtree -> Prop) :
  (forall v cs, Forall P cs -> P (Node v cs)) -> forall t, P t.
Proof.
  intros H. fix IH 1. intros [v cs]. apply H.
  induction cs as [|c cs IHcs]; constructor; [apply IH | exact IHcs].
Qed.

Lemma flat_map_snoc {A B} (f : A -> list B) l x :
  flat_map f (l ++ [x]) = flat_map f l ++ f x.
Proof. rewrite flat_map_app. simpl. now rewrite app_nil_r. Qed.

Lemma euler_head t : exists w, euler t = root t :: w.
Proof. destruct t as [v cs]. simpl. eauto. Qed.

Lemma euler_last t : last (euler t) 0 = root t.
Proof.
  destruct t as [v cs]. simpl root.
  change (euler (Node v cs)) with (v :: flat_map (fun c => euler c ++ [v]) cs).
  induction cs as [|c cs IH] using rev_ind; [reflexivity|].
  rewrite flat_map_snoc, app_assoc, app_comm_cons. apply last_last.
Qed.

Lemma euler_nodes t x : In x (euler t) <-> In x (nodes t).
Proof.
  induction t as [v cs IH] using rtree_induction. simpl.
  rewrite !in_flat_map. split.
  - intros [H|[c [Hc Hx]]]; auto. apply in_app_or in Hx.
    destruct Hx as [Hx|[Hx|[]]]; auto.
    right. exists c. split; auto. rewrite Forall_forall in IH. apply IH; auto.
  - intros [H|[c [Hc Hx]]]; auto. right. exists c. split; auto.
    apply in_or_app. left. rewrite Forall_forall in IH. apply IH; auto.
Qed.

Lemma euler_length t : Z.of_nat (length (euler t)) = 2 * Z.of_nat (length (nodes t)) - 1.
Proof.
  induction t as [v cs IH] using rtree_induction. simpl length.
  assert (G : Z.of_nat (length (flat_map (fun c => euler c ++ [v]) cs))
              = 2 * Z.of_nat (length (flat_map nodes cs))).
  { induction IH as [|c cs Hc _ IHcs]; [reflexivity|].
    cbn [flat_map]. rewrite !length_app. cbn [length]. lia. }
  lia.
Qed.

Lemma StronglySorted_snoc (l : list Z) x :
  StronglySorted Z.lt l -> Forall (fun y => y < x) l -> StronglySorted Z.lt (l ++ [x]).
Proof.
  intros Hs Hf. induction Hs as [|a l Hs IH Ha]; simpl.
  - repeat constructor.
  - inversion Hf; subst. constructor; [apply IH; auto|].
    apply Forall_app. split; auto.
Qed.

(** *** The visited array *)

Lemma unvis_range vis x : unvis vis x -> 0 <= x < Z.of_nat (length vis).
Proof. apply rd_bounds. Qed.

Lemma unvis_mark vis node vis1 x :
  wr vis node VISITED = Ok vis1 ->
  (unvis vis1 x <-> unvis vis x /\ x <> node).
Proof.
  intros E. unfold unvis. destruct (Z.eq_dec x node) as [->|Hne].
  - rewrite (rd_wr_eq _ _ _ _ E). split; [discriminate | tauto].
  - rewrite (rd_wr_ne _ _ _ _ _ E) by auto. tauto.
Qed.

(** *** What one call of dfs does *)

Section DfsCall.

Variable n : Z.
Variable g : list (list Z).
Hypothesis Hg : matrix n g.

Lemma dfs_unfold fuel node st :
  dfs (S fuel) node n g st
  = (let '(visited, trail) := st in
     visited1 <- wr visited node VISITED ;;
     for_range 0 n (fun i st =>
       let '(visited, trail) := st in
       gi <- rd2 g node i ;;
       if gi =? CONNECTED then
         vi <- rd visited i ;;
         if vi =? UNVISITED then
           '(visited', trail') <- dfs fuel i n g (visited, trail) ;;
           Ok (visited', trail' ++ [node])
         else Ok st
       else Ok st) (visited1, trail ++ [node])).
Proof. reflexivity. Qed.

Lemma dfs_spec fuel :
  forall node vis trail stack,
    Z.of_nat (length vis) = n -> 0 <= node < n -> unvis vis node ->
    NoDup stack -> (forall x, In x stack -> 0 <= x < n /\ ~ unvis vis x) ->
    n < Z.of_nat fuel + Z.of_nat (length stack) ->
    exists vis' t,
      dfs fuel node n g (vis, trail) = Ok (vis', trail ++ euler t) /\
      root t = node /\ dfs_tree n g t /\ NoDup (nodes t) /\
      Z.of_nat (length vis') = n /\
      (forall x, unvis vis' x <-> unvis vis x /\ ~ In x (nodes t)) /\
      (forall x, In x (nodes t) -> unvis vis x) /\
      (forall x y, In x (nodes t) -> joined n g x y -> ~ unvis vis' y).
Proof.
  induction fuel as [|fuel IH]; intros node vis trail stack Hlen Hnode Hun Hnd Hst Hfuel.
  { exfalso.
    assert ((length stack <= Z.to_nat n)%nat).
    { apply NoDup_range_length; auto. intros x Hx. apply Hst. auto. }
    lia. }
  assert (Hstack_len : (length (node :: stack) <= Z.to_nat n)%nat).
  { apply NoDup_range_length.
    - constructor; auto. intros Hin. apply Hst in Hin. tauto.
    - intros x [<-|Hx]; auto. apply Hst. auto. }
  rewrite dfs_unfold. cbv iota beta.
  destruct (wr vis node VISITED) as [vis1|] eqn:Ewr;
    [|rewrite wr_Ok in Ewr by lia; discriminate].
  cbn [bind].
  pose proof (wr_length _ _ _ _ Ewr) as Hlen1.
  destruct (for_range_inv
    (fun i st => exists cs,
       snd st = trail ++ node :: flat_map (fun c => euler c ++ [node]) cs /\
       Forall (dfs_tree n g) cs /\
       (forall c, In c cs -> joined n g node (root c)) /\
       StronglySorted Z.lt (map root cs) /\
       Forall (fun r => r < i) (map root cs) /\
       NoDup (node :: flat_map nodes cs) /\
       Z.of_nat (length (fst st)) = n /\
       (forall x, unvis (fst st) x <-> unvis vis x /\ ~ In x (node :: flat_map nodes cs)) /\
       (forall x, In x (flat_map nodes cs) -> unvis vis x) /\
       (forall x y, In x (flat_map nodes cs) -> joined n g x y -> ~ unvis (fst st) y) /\
       (forall y, 0 <= y < i -> joined n g node y -> ~ unvis (fst st) y))
    0 n
    (fun i st =>
       let '(visited, trail) := st in
       gi <- rd2 g node i ;;
       if gi =? CONNECTED then
         vi <- rd visited i ;;
         if vi =? UNVISITED then
           '(visited', trail') <- dfs fuel i n g (visited, trail) ;;
           Ok (visited', trail' ++ [node])
         else Ok st
       else Ok st) (vis1, trail ++ [node])) as [[vis' tr'] [Eloop Hfinal]].
  - lia.
  - exists []. simpl fst. simpl snd.
    split; [reflexivity|]. split; [constructor|]. split; [intros c []|].
    split; [constructor|]. split; [constructor|].
    split; [repeat constructor; simpl; tauto|]. split; [lia|].
    split; [intros x; rewrite (unvis_mark _ _ _ x Ewr); simpl; intuition auto|].
    split; [intros x []|]. split; [intros x y []|]. intros y Hy. lia.
  - intros i [visi tri] Hi (cs & Etr & Hcs & Hadj & Hsort & Hlt & Hnodup & Hleni
                            & Hmark & Hfresh & Hclosed & Hdone).
    simpl fst in *. simpl snd in *. subst tri.
    rewrite (rd2_dist n) by auto. cbn [bind].
    assert (Hkeep :
      exists cs0,
        trail ++ node :: flat_map (fun c => euler c ++ [node]) cs
        = trail ++ node :: flat_map (fun c => euler c ++ [node]) cs0 /\
        Forall (dfs_tree n g) cs0 /\
        (forall c, In c cs0 -> joined n g node (root c)) /\
        StronglySorted Z.lt (map root cs0) /\
        Forall (fun r => r < i + 1) (map root cs0) /\
        NoDup (node :: flat_map nodes cs0) /\
        Z.of_nat (length visi) = n /\
        (forall x, unvis visi x <-> unvis vis x /\ ~ In x (node :: flat_map nodes cs0)) /\
        (forall x, In x (flat_map nodes cs0) -> unvis vis x) /\
        (forall x y, In x (flat_map nodes cs0) -> joined n g x y -> ~ unvis visi y) /\
        (forall y, 0 <= y < i -> joined n g node y -> ~ unvis visi y)).
    { exists cs. split; [reflexivity|]. split; [exact Hcs|]. split; [exact Hadj|].
      split; [exact Hsort|].
      split; [eapply Forall_impl; [|exact Hlt]; simpl; intros; lia|].
      split; [exact Hnodup|]. split; [exact Hleni|]. split; [exact Hmark|].
      split; [exact Hfresh|]. split; [exact Hclosed | exact Hdone]. }
    destruct (Z.eqb_spec (dist g node i) CONNECTED) as [Egi|Egi].
    2:{ (* no edge to i *)
        exists (visi, trail ++ node :: flat_map (fun c => euler c ++ [node]) cs).
        split; [reflexivity|]. simpl fst. simpl snd.
        destruct Hkeep as (cs0 & K1 & K2 & K3 & K4 & K5 & K6 & K7 & K8 & K9 & K10 & K11).
        exists cs0. split; [exact K1|]. split; [exact K2|]. split; [exact K3|].
        split; [exact K4|]. split; [exact K5|]. split; [exact K6|]. split; [exact K7|].
        split; [exact K8|]. split; [exact K9|]. split; [exact K10|].
        intros y Hy Hj. destruct (Z.eq_dec y i) as [->|]; [|apply K11; auto; lia].
        destruct Hj as (_ & _ & Hd). contradiction. }
    destruct (rd_in_range visi i ltac:(lia)) as [vi Evi]. rewrite Evi. cbn [bind].
    destruct (Z.eqb_spec vi UNVISITED) as [Evi0|Evi0].
    2:{ (* i was visited before *)
        exists (visi, trail ++ node :: flat_map (fun c => euler c ++ [node]) cs).
        split; [reflexivity|]. simpl fst. simpl snd.
        destruct Hkeep as (cs0 & K1 & K2 & K3 & K4 & K5 & K6 & K7 & K8 & K9 & K10 & K11).
        exists cs0. split; [exact K1|]. split; [exact K2|]. split; [exact K3|].
        split; [exact K4|]. split; [exact K5|]. split; [exact K6|]. split; [exact K7|].
        split; [exact K8|]. split; [exact K9|]. split; [exact K10|].
        intros y Hy Hj. destruct (Z.eq_dec y i) as [->|]; [|apply K11; auto; lia].
        unfold unvis. rewrite Evi. intros E. inversion E. contradiction. }
    (* the call for the unvisited neighbour i *)
    subst vi. clear Hkeep.
    assert (Hstack' : forall x, In x (node :: stack) -> 0 <= x < n /\ ~ unvis visi x).
    { intros x [<-|Hx].
      - split; auto. intros H. apply Hmark in H. simpl in H. tauto.
      - split; [apply Hst; auto|]. intros H. apply Hmark in H.
        apply Hst in Hx. tauto. }
    destruct (IH i visi (trail ++ node :: flat_map (fun c => euler c ++ [node]) cs)
                (node :: stack)) as (vis2 & t & Ecall & Hroot & Htree & Htnd & Hlen2
                                     & Hmark2 & Hfresh2 & Hclosed2); auto.
    { constructor; auto. intros Hin. apply Hst in Hin. tauto. }
    { simpl length. lia. }
    rewrite Ecall. cbn [bind].
    eexists. split; [reflexivity|]. simpl fst. simpl snd.
    exists (cs ++ [t]).
    assert (Hti : forall x, In x (nodes t) -> ~ In x (node :: flat_map nodes cs)).
    { intros x Hx Hin. apply Hfresh2 in Hx. apply Hmark in Hx. tauto. }
    split; [rewrite flat_map_snoc, <- !app_assoc; reflexivity|].
    split; [apply Forall_app; split; auto|].
    split.
    { intros c Hc. apply in_app_or in Hc. destruct Hc as [Hc|[<-|[]]]; auto.
      rewrite Hroot. repeat split; auto; lia. }
    split.
    { rewrite map_app. simpl map. apply StronglySorted_snoc; auto. rewrite Hroot. auto. }
    split.
    { rewrite map_app. apply Forall_app. split.
      - eapply Forall_impl; [|exact Hlt]. simpl. intros; lia.
      - repeat constructor. lia. }
    split.
    { rewrite flat_map_snoc. rewrite app_comm_cons. apply NoDup_app_intro; auto.
      intros x Hx Hx'. apply (Hti x); auto. }
    split; [auto|].
    split.
    { intros x. rewrite Hmark2, Hmark, flat_map_snoc. simpl. rewrite in_app_iff. tauto. }
    split.
    { intros x. rewrite flat_map_snoc, in_app_iff. intros [Hx|Hx]; auto.
      apply Hfresh2 in Hx. apply Hmark in Hx. tauto. }
    split.
    { intros x y. rewrite flat_map_snoc, in_app_iff. intros [Hx|Hx] Hj.
      - intros H. apply Hmark2 in H. destruct H as [H _]. exact (Hclosed x y Hx Hj H).
      - exact (Hclosed2 x y Hx Hj). }
    intros y Hy Hj. destruct (Z.eq_dec y i) as [->|].
    + intros H. apply Hmark2 in H. destruct H as [_ H]. apply H.
      destruct t as [r cs']. simpl in Hroot. subst r. simpl. auto.
    + intros H. apply Hmark2 in H. destruct H as [H _].
      exact (Hdone y ltac:(lia) Hj H).
  - rewrite Eloop.
    destruct Hfinal as (cs & Etr & Hcs & Hadj & Hsort & Hlt & Hnodup & Hleni
                        & Hmark & Hfresh & Hclosed & Hdone).
    simpl fst in *. simpl snd in *. subst tr'.
    exists vis', (Node node cs). split; [reflexivity|].
    split; [reflexivity|]. split; [constructor; auto|].
    split; [exact Hnodup|]. split; [exact Hleni|].
    split; [exact Hmark|]. split.
    + intros x [<-|Hx]; auto.
    + intros x y [<-|Hx] Hj; [|exact (Hclosed x y Hx Hj)].
      apply Hdone; auto. destruct Hj as (_ & Hy & _). auto.
Qed.

End DfsCall.

Lemma rd_repeat {A} (x : A) k i : 0 <= i < Z.of_nat k -> rd (repeat x k) i = Ok x.
Proof.
  intros H. apply rd_Ok_iff. split; [lia|].
  rewrite nth_error_repeat by lia. reflexivity.
Qed.

Lemma dfs_walk_spec (n : Z) (g : list (list Z)) :
  tree_matrix n g ->
  exists visited walk t,
    dfs (S (Z.to_nat n)) 0 n g (repeat UNVISITED (Z.to_nat n), []) = Ok (visited, walk) /\
    Z.of_nat (length walk) = 2 * (n - 1) + 1 /\
    walk = euler t /\ root t = 0 /\ dfs_tree n g t /\
    Permutation (nodes t) (zrange n).
Proof.
  intros (Hg & _ & _ & Hn & Hconn).
  set (vis0 := repeat UNVISITED (Z.to_nat n)).
  assert (Hun0 : forall x, 0 <= x < n -> unvis vis0 x).
  { intros x Hx. apply rd_repeat. lia. }
  destruct (dfs_spec n g Hg (S (Z.to_nat n)) 0 vis0 [] [])
    as (vis' & t & E & Hroot & Htree & Hnd & Hlen & Hmark & Hfresh & Hclosed).
  - unfold vis0. rewrite repeat_length. lia.
  - lia.
  - apply Hun0. lia.
  - constructor.
  - intros x [].
  - simpl length. lia.
  - simpl app in E.
    assert (Hall : forall x, 0 <= x < n -> In x (nodes t)).
    { intros x Hx. specialize (Hconn x Hx).
      induction Hconn as [|b c Hb IH Hbc].
      - destruct t as [r cs]. simpl in Hroot. subst r. simpl. auto.
      - pose proof Hbc as (Hbr & Hcr & _).
        destruct (in_dec Z.eq_dec c (nodes t)) as [|Hout]; auto.
        exfalso. apply (Hclosed b c (IH Hbr) Hbc). apply Hmark. split; auto. }
    assert (Hperm : Permutation (nodes t) (zrange n)).
    { apply NoDup_Permutation; auto using zrange_NoDup.
      intros x. rewrite zrange_In. split; auto.
      intros Hx. apply Hfresh in Hx. apply unvis_range in Hx.
      unfold vis0 in Hx. rewrite repeat_length in Hx. lia. }
    exists vis', (euler t), t. split; [exact E|].
    split; [|auto].
    rewrite euler_length, (Permutation_length Hperm), zrange_length. lia.
Qed.

Lemma existsb_eqb c seen : existsb (Z.eqb c) seen = true <-> In c seen.
Proof.
  rewrite existsb_exists. split.
  - intros [x [Hx E]]. apply Z.eqb_eq in E. subst. auto.
  - intros H. exists c. split; auto. apply Z.eqb_refl.
Qed.

Lemma keep_snoc seen l x : keep seen (l ++ [x]) = firsts seen l ++ [x].
Proof.
  revert seen. induction l as [|c l IH]; intros seen.
  - simpl. rewrite orb_true_r. reflexivity.
  - change ((c :: l) ++ [x]) with (c :: (l ++ [x])). cbn [keep firsts].
    assert (E : match l ++ [x] with [] => true | _ :: _ => false end = false)
      by (destruct l; reflexivity).
    rewrite E, orb_false_r.
    destruct (existsb (Z.eqb c) seen); cbn [negb]; rewrite IH; reflexivity.
Qed.

Lemma firsts_In seen l x : In x (firsts seen l) <-> In x l /\ ~ In x seen.
Proof.
  revert seen. induction l as [|c l IH]; intros seen; simpl; [tauto|].
  destruct (existsb (Z.eqb c) seen) eqn:E.
  - apply existsb_eqb in E. rewrite IH. split; [tauto|].
    intros [[<-|H] Hn]; tauto.
  - assert (Hc : ~ In c seen) by (rewrite <- existsb_eqb; congruence).
    simpl. rewrite IH. simpl. split.
    + intros [<-|[H1 H2]]; tauto.
    + intros [[<-|H] Hn]; auto.
      destruct (Z.eq_dec c x); [left; auto | right; tauto].
Qed.

Lemma firsts_NoDup seen l : NoDup (firsts seen l).
Proof.
  revert seen. induction l as [|c l IH]; intros seen; simpl; [constructor|].
  destruct (existsb (Z.eqb c) seen); auto.
  constructor; auto. rewrite firsts_In. simpl. tauto.
Qed.

Lemma wrap_add_l a b : wrap (wrap a + b) = wrap (a + b).
Proof.
  unfold wrap. f_equal.
  replace ((a + 2 ^ 31) mod 2 ^ 32 - 2 ^ 31 + b + 2 ^ 31)
    with ((a + 2 ^ 31) mod 2 ^ 32 + b) by lia.
  rewrite Zplus_mod_idemp_l. f_equal. lia.
Qed.

Lemma path_cost_last m l a b :
  path_cost m ((l ++ [a]) ++ [b]) = path_cost m (l ++ [a]) + dist m a b.
Proof. rewrite <- app_assoc. apply path_cost_snoc. Qed.

(** *** The loop keeps what [keep] keeps *)

Section Shortcut.

Variable n : Z.
Variable cities : list (list Z).
Hypothesis Hm : matrix n cities.

Lemma shortcut_keep :
  forall walk seen kept0 vis k,
    (forall c, In c walk -> 0 <= c < n) ->
    (forall c, In c kept0 -> 0 <= c < n) ->
    Z.of_nat (length vis) = n ->
    (forall x, 0 <= x < n -> (unvis vis x <-> ~ In x seen)) ->
    (length (keep seen walk) <= k)%nat ->
    exists vis',
      shortcut cities walk
        (vis, map Some kept0 ++ repeat None k, Z.of_nat (length kept0),
         wrap (path_cost cities kept0))
      = Ok (vis',
            map Some (kept0 ++ keep seen walk)
              ++ repeat None (k - length (keep seen walk)),
            Z.of_nat (length (kept0 ++ keep seen walk)),
            wrap (path_cost cities (kept0 ++ keep seen walk))).
Proof.
  induction walk as [|c rest IH]; intros seen kept0 vis k Hw Hk Hlen Hvis Hroom.
  - exists vis. simpl. rewrite app_nil_r, Nat.sub_0_r. reflexivity.
  - assert (Hc : 0 <= c < n) by (apply Hw; simpl; auto).
    cbn [shortcut].
    destruct (rd_in_range vis c ltac:(lia)) as [vc Evc]. rewrite Evc. cbn [bind].
    assert (Hvc : (vc =? UNVISITED) = negb (existsb (Z.eqb c) seen)).
    { destruct (existsb (Z.eqb c) seen) eqn:Es; cbn [negb].
      - apply existsb_eqb in Es. apply Z.eqb_neq. intros ->.
        apply (Hvis c Hc) in Evc. contradiction.
      - apply Z.eqb_eq. assert (Hun : unvis vis c).
        { apply Hvis; auto. rewrite <- existsb_eqb. congruence. }
        unfold unvis in Hun. congruence. }
    rewrite Hvc. cbn [keep] in *.
    destruct (negb (existsb (Z.eqb c) seen)
              || match rest with [] => true | _ :: _ => false end) eqn:Ekeep.
    + (* the city is kept *)
      simpl length in Hroom.
      destruct k as [|k']; [lia|].
      destruct (wr vis c VISITED) as [vis1|] eqn:Ewr;
        [|rewrite wr_Ok in Ewr by lia; discriminate].
      cbn [bind repeat].
      rewrite (wr_app_at (map Some kept0)) by (now rewrite length_map).
      cbn [bind].
      set (tour1 := map Some kept0 ++ Some c :: repeat None k').
      assert (Etour1 : tour1 = map Some (kept0 ++ [c]) ++ repeat None k').
      { unfold tour1. rewrite map_app, <- app_assoc. reflexivity. }
      assert (Ecost :
        (if Z.of_nat (length kept0) >? 0
         then a <- (x <- rd tour1 (Z.of_nat (length kept0) - 1) ;; val x) ;;
              b <- (x <- rd tour1 (Z.of_nat (length kept0)) ;; val x) ;;
              w <- rd2 cities a b ;; Ok (int_add (wrap (path_cost cities kept0)) w)
         else Ok (wrap (path_cost cities kept0)))
        = Ok (wrap (path_cost cities (kept0 ++ [c])))).
      { destruct kept0 as [|a0 kept1] using rev_ind.
        - reflexivity.
        - clear IHkept1.
          destruct (Z.gtb_spec (Z.of_nat (length (kept1 ++ [a0]))) 0) as [_|Hz];
            [|rewrite length_app in Hz; simpl in Hz; lia].
          assert (Ha0 : 0 <= a0 < n) by (apply Hk; apply in_or_app; simpl; auto).
          unfold tour1. rewrite !map_app. simpl map. rewrite <- !app_assoc. simpl app.
          rewrite (rd_app_at (map Some kept1))
            by (rewrite length_app, length_map; simpl; lia).
          cbn [bind val].
          rewrite (rd_app_next (map Some kept1))
            by (rewrite length_app, length_map; simpl; lia).
          cbn [bind val].
          rewrite (rd2_dist n) by auto. cbn [bind].
          unfold int_add. rewrite wrap_add_l, path_cost_snoc. reflexivity. }
      rewrite Ecost. cbn [bind].
      assert (Hvis1 : forall x, 0 <= x < n -> (unvis vis1 x <-> ~ In x (c :: seen))).
      { intros x Hx. rewrite (unvis_mark _ _ _ x Ewr), (Hvis x Hx). simpl.
        intuition congruence. }
      destruct (IH (c :: seen) (kept0 ++ [c]) vis1 k') as [vis' E'].
      * intros x Hx. apply Hw. simpl. auto.
      * intros x Hx. apply in_app_or in Hx. destruct Hx as [Hx|[<-|[]]]; auto.
      * rewrite (wr_length _ _ _ _ Ewr). exact Hlen.
      * exact Hvis1.
      * lia.
      * exists vis'. rewrite Etour1.
        replace (Z.of_nat (length kept0) + 1) with (Z.of_nat (length (kept0 ++ [c])))
          by (rewrite length_app; simpl; lia).
        rewrite E'. rewrite <- !app_assoc. reflexivity.
    + (* the city is skipped *)
      apply IH; auto. intros x Hx. apply Hw. simpl. auto.
Qed.

End Shortcut.

(** *** Short-cutting a depth-first walk *)

Lemma nodes_nonempty t : nodes t <> [].
Proof. destruct t; discriminate. Qed.

Lemma flat_map_nodes_nil cs : flat_map nodes cs = [] -> cs = [].
Proof.
  destruct cs as [|c cs]; auto. simpl. intros E.
  apply app_eq_nil in E. destruct E as [E _]. destruct (nodes_nonempty c E).
Qed.

(* the walk over a tree with more than one vertex returns to the root *)
Lemma euler_returns t :
  (1 < length (nodes t))%nat ->
  exists l, euler t = (root t :: l) ++ [root t].
Proof.
  destruct t as [v cs]. simpl. intros Hlen.
  destruct cs as [|c cs] using rev_ind; [simpl in Hlen; lia|].
  rewrite flat_map_snoc, app_assoc. eauto.
Qed.

Lemma keep_walk (t : rtree) :
  NoDup (nodes t) ->
  exists order closing,
    keep [] (euler t) = order ++ closing /\
    (exists o, order = root t :: o) /\
    Permutation order (nodes t) /\
    ((1 < length (nodes t))%nat /\ closing = [root t]
     \/ (length (nodes t) = 1%nat /\ closing = [])).
Proof.
  intros Hnd.
  destruct (Nat.eq_dec (length (nodes t)) 1) as [H1|H1].
  - destruct t as [v cs]. simpl in H1.
    assert (cs = []).
    { apply flat_map_nodes_nil. destruct (flat_map nodes cs); [auto | simpl in H1; lia]. }
    subst cs. exists [v], []. simpl. repeat split; eauto.
  - assert (Hlen : (1 < length (nodes t))%nat).
    { pose proof (nodes_nonempty t). destruct (nodes t) as [|a [|b r]]; simpl in *;
        try lia; congruence. }
    destruct (euler_returns t Hlen) as [l El].
    exists (firsts [] (root t :: l)), [root t].
    split; [rewrite El; apply keep_snoc|].
    split; [simpl; eauto|].
    split; [|left; auto].
    apply NoDup_Permutation; auto using firsts_NoDup.
    intros x. rewrite firsts_In, <- euler_nodes, El, in_app_iff. simpl. tauto.
Qed.

Lemma shortcut_walk_spec (n : Z) (g cities : list (list Z))
        (visited walk : list Z) :
  tree_matrix n g -> matrix n cities ->
  dfs (S (Z.to_nat n)) 0 n g (repeat UNVISITED (Z.to_nat n), []) = Ok (visited, walk) ->
  exists visited' order closing,
    let kept := order ++ closing in
    shortcut cities walk
      (repeat UNVISITED (Z.to_nat n), repeat None (Z.to_nat (n + 1)), 0, INFINITE)
    = Ok (visited',
          map Some kept ++ repeat None (Z.to_nat (n + 1) - length kept),
          Z.of_nat (length kept), wrap (path_cost cities kept)) /\
    (exists o, order = 0 :: o) /\
    Permutation order (zrange n) /\
    (1 < n /\ closing = [last walk 0] \/ n = 1 /\ closing = []) /\
    last walk 0 = 0 /\
    last kept 0 = last walk 0.
Proof.
  intros Hg Hm Edfs. pose proof Hg as (_ & _ & _ & Hn & _).
  destruct (dfs_walk_spec n g Hg)
    as (vis0 & walk0 & t & E0 & Hlen & Ew & Hroot & Htree & Hperm).
  assert (Ew' : walk = euler t) by congruence.
  clear Ew E0 Edfs Hlen. rename Ew' into Ew.
  assert (Hnd : NoDup (nodes t)).
  { eapply Permutation_NoDup; [symmetry; exact Hperm | apply zrange_NoDup]. }
  assert (Hnl : length (nodes t) = Z.to_nat n).
  { rewrite (Permutation_length Hperm). apply zrange_length. }
  destruct (keep_walk t Hnd) as (order & closing & Ekeep & [o Eo] & Hpo & Hclosing).
  assert (Hkl : (length (keep [] walk) <= Z.to_nat (n + 1))%nat).
  { rewrite Ew, Ekeep, length_app, (Permutation_length Hpo), Hnl.
    destruct Hclosing as [[_ ->]|[_ ->]]; simpl; lia. }
  destruct (shortcut_keep n cities Hm walk [] [] (repeat UNVISITED (Z.to_nat n))
              (Z.to_nat (n + 1))) as [vis' Erun]; auto.
  - intros c Hc. rewrite Ew in Hc. apply euler_nodes in Hc.
    eapply Permutation_in in Hc; [|exact Hperm]. apply zrange_In in Hc. exact Hc.
  - intros c [].
  - rewrite repeat_length. lia.
  - intros x Hx. split; [intros _ []|]. intros _. apply rd_repeat. lia.
  - simpl in Erun. rewrite Ew, Ekeep in Erun.
    exists vis', order, closing.
    cbv zeta. split; [rewrite Ew; exact Erun|].
    split; [exists o; rewrite Eo, Hroot; reflexivity|].
    split; [rewrite Hpo; exact Hperm|].
    assert (Hlast : last (euler t) 0 = root t) by apply euler_last.
    split.
    { rewrite Ew, Hlast. destruct Hclosing as [[H ->]|[H ->]]; [left | right];
        split; auto; lia. }
    split; [rewrite Ew, Hlast; exact Hroot|].
    rewrite Ew, Hlast. destruct Hclosing as [[_ ->]|[H ->]].
    + apply last_last.
    + rewrite app_nil_r.
      assert (o = []).
      { apply Permutation_length in Hpo. rewrite Eo in Hpo. simpl in Hpo.
        destruct o; [auto | simpl in Hpo; lia]. }
      subst o order. reflexivity.
Qed.

(** *** getHeuristicTour as a whole *)

Lemma getHeuristicTour_run (n : Z) (cities : list (list Z)) :
  matrix n cities -> symmetric n cities -> connected n (has_edge n cities) ->
  exists order closing,
    let kept := order ++ closing in
    getHeuristicTour n cities
    = Ok (mkResult (wrap (path_cost cities kept))
            (map Some kept ++ repeat None (Z.to_nat (n + 1) - length kept)) (n + 1)) /\
    (exists o, order = 0 :: o) /\
    Permutation order (zrange n) /\
    (1 < n /\ closing = [0] \/ n = 1 /\ closing = []).
Proof.
  intros Hm Hs Hc. pose proof Hc as [Hn _].
  destruct (prim_loop_tree n cities Hm Hs Hc) as (v & mst & Eprim & Htree).
  change (matrix n mst /\ symmetric n mst /\
          Z.of_nat (length (edge_list n mst)) = n - 1 /\ connected n (joined n mst))
    with (tree_matrix n mst) in Htree.
  destruct (dfs_walk_spec n mst Htree) as (vis & walk & t & Edfs & _).
  destruct (shortcut_walk_spec n mst cities vis walk Htree Hm Edfs)
    as (vis' & order & closing & Erun & Ho & Hpo & Hclosing & Hlast & _).
  cbv zeta in Erun.
  exists order, closing. cbv zeta.
  split.
  - unfold getHeuristicTour. fold (mst_init n). rewrite Eprim. cbn [bind].
    rewrite Edfs. cbn [bind]. rewrite Erun. cbn [bind]. reflexivity.
  - rewrite Hlast in Hclosing. auto.
Qed.

(** ** Main results on the two engines *)

Lemma cities4_connected : connected 4 (has_edge 4 cities4).
Proof.
  split; [lia|]. intros v Hv.
  destruct (Z.eq_dec v 0) as [->|Hne]; [apply reach_refl|].
  apply reach_one. repeat split; try lia.
  assert (v = 1 \/ v = 2 \/ v = 3) as [->|[->| ->]] by lia; vm_compute; discriminate.
Qed.

Lemma star4_tree : tree_matrix 4 star4.
Proof.
  split; [matrix_shape|].
  split; [unfold symmetric; matrix_entries|].
  split; [reflexivity|].
  split; [lia|]. intros v Hv.
  destruct (Z.eq_dec v 0) as [->|Hne]; [apply reach_refl|].
  apply reach_one. repeat split; try lia.
  assert (v = 1 \/ v = 2 \/ v = 3) as [->|[->| ->]] by lia; reflexivity.
Qed.

(** C1 (amended): for 3 <= n <= 13 and a symmetric matrix whose distances
    between distinct cities are positive and small enough for n of them to
    add up to an int, getOptimalTour returns a tour 0, pi, 0 through all
    cities whose cost is the cost of that cycle and is minimal among all
    cycles that start and end at city 0 and visit every other city once. *)
Theorem optimal_tour_minimal (n : Z) (m : list (list Z)) :
  3 <= n <= 13 -> matrix n m -> symmetric n m -> nonnegative n m ->
  positive_off_diagonal n m -> fits_int n m ->
  exists c pi,
    getOptimalTour n m = Ok (mkResult c (map Some (0 :: pi ++ [0])) (n + 1)) /\
    cities_perm n pi /\
    c = cycle_cost m (0 :: pi) /\
    forall pi', cities_perm n pi' -> c <= cycle_cost m (0 :: pi').
Proof. apply optimal_minimal_spec. Qed.

(* the theorem on the four cities of the specification's scenario *)
Lemma optimal_tour_minimal_witness :
  exists c pi,
    getOptimalTour 4 cities4 = Ok (mkResult c (map Some (0 :: pi ++ [0])) (4 + 1)) /\
    cities_perm 4 pi /\
    c = cycle_cost cities4 (0 :: pi) /\
    forall pi', cities_perm 4 pi' -> c <= cycle_cost cities4 (0 :: pi').
Proof.
  destruct cities4_matrix as (H1 & H2 & H3 & H4 & H5).
  apply (optimal_tour_minimal 4 cities4); auto. lia.
Defined.

Lemma positive_connected n m :
  0 < n -> positive_off_diagonal n m -> connected n (has_edge n m).
Proof.
  intros Hn Hpos. split; auto. intros v Hv.
  destruct (Z.eq_dec v 0) as [->|Hne]; [apply reach_refl|].
  apply reach_one. repeat split; try lia.
  assert (0 < dist m 0 v) by (apply Hpos; lia). unfold INFINITE. lia.
Qed.

Lemma zrange_cities_perm n o :
  0 < n -> Permutation (0 :: o) (zrange n) -> cities_perm n o.
Proof.
  intros Hn Hp. unfold cities_perm, zrange in *.
  replace (Z.to_nat n) with (S (Z.to_nat (n - 1))) in Hp by lia.
  simpl in Hp. apply Permutation_cons_inv in Hp. exact Hp.
Qed.

(** C3 (amended): for 1 <= n <= 13 and a symmetric matrix whose distances
    between distinct cities are positive and small enough for n of them to
    add up to an int, both engines return a result, and the cost returned by
    getOptimalTour is at most the cost returned by getHeuristicTour. *)
Theorem optimal_le_heuristic (n : Z) (m : list (list Z)) :
  1 <= n <= 13 -> matrix n m -> symmetric n m -> nonnegative n m ->
  positive_off_diagonal n m -> fits_int n m ->
  exists ro rh,
    getOptimalTour n m = Ok ro /\ getHeuristicTour n m = Ok rh /\
    ro.(cost) <= rh.(cost).
Proof.
  intros Hn Hm Hs Hnn Hpos Hfit.
  assert (Hn0 : 0 < n) by lia.
  destruct (getHeuristicTour_run n m Hm Hs (positive_connected n m Hn0 Hpos))
    as (order & closing & Erun & [o Eo] & Hperm & Hclosing).
  cbv zeta in Erun. subst order.
  destruct Hclosing as [[Hn1 ->]|[Hn1 ->]].
  - (* at least two cities: the heuristic tour is a cycle through all of them *)
    pose proof (zrange_cities_perm n o Hn0 Hperm) as Hp.
    assert (Hn2' : 2 <= n) by lia.
    pose proof (cycle_cost_bounds n m o Hn2' Hnn Hpos Hfit Hp) as Hb.
    assert (Ecost : wrap (path_cost m ((0 :: o) ++ [0])) = cycle_cost m (0 :: o)).
    { unfold cycle_cost in *. cbn [firstn app] in *.
      apply wrap_id. unfold in_int. lia. }
    rewrite Ecost in Erun.
    destruct (Z.eq_dec n 2) as [->|Hn2].
    + exists (mkResult 0 [None; None; None] 3). eexists.
      split; [reflexivity|]. split; [exact Erun|]. cbn [cost]. lia.
    + assert (Hn3 : 3 <= n <= 13) by lia.
      destruct (optimal_minimal_spec n m Hn3 Hm Hs Hnn Hpos Hfit)
        as (c & pi & Eopt & _ & _ & Hmin).
      eexists. eexists. split; [exact Eopt|]. split; [exact Erun|]. cbn [cost].
      apply Hmin. exact Hp.
  - subst n.
    assert (o = []).
    { apply Permutation_length in Hperm. simpl in Hperm. destruct o; [auto | simpl in Hperm; lia]. }
    subst o. exists (mkResult 0 [None; None] 2). eexists.
    split; [reflexivity|]. split; [exact Erun|]. cbn [cost].
    vm_compute. discriminate.
Qed.

Lemma optimal_le_heuristic_witness :
  exists ro rh,
    getOptimalTour 4 cities4 = Ok ro /\ getHeuristicTour 4 cities4 = Ok rh /\
    ro.(cost) <= rh.(cost).
Proof.
  destruct cities4_matrix as (H1 & H2 & H3 & H4 & H5).
  apply (optimal_le_heuristic 4 cities4); auto. lia.
Defined.

(** C3 does not hold for every nonnegative matrix: on [cities_zero5] the
    graph of the nonzero entries is connected, getHeuristicTour returns a
    tour of cost 3 and getOptimalTour one of cost 200. *)
Lemma optimal_above_heuristic :
  matrix 5 cities_zero5 /\ symmetric 5 cities_zero5 /\ nonnegative 5 cities_zero5 /\
  getOptimalTour 5 cities_zero5
  = Ok (mkResult 200 [Some 0; Some 4; Some 3; Some 1; Some 2; Some 0] 6) /\
  getHeuristicTour 5 cities_zero5
  = Ok (mkResult 3 [Some 0; Some 1; Some 4; Some 2; Some 3; Some 0] 6) /\
  ~ (forall ro rh, getOptimalTour 5 cities_zero5 = Ok ro ->
                   getHeuristicTour 5 cities_zero5 = Ok rh -> ro.(cost) <= rh.(cost)).
Proof.
  assert (Eo : getOptimalTour 5 cities_zero5
               = Ok (mkResult 200 [Some 0; Some 4; Some 3; Some 1; Some 2; Some 0] 6))
    by (vm_compute; reflexivity).
  assert (Eh : getHeuristicTour 5 cities_zero5
               = Ok (mkResult 3 [Some 0; Some 1; Some 4; Some 2; Some 3; Some 0] 6))
    by (vm_compute; reflexivity).
  split; [matrix_shape|].
  split; [unfold symmetric; matrix_entries|].
  split; [unfold nonnegative; matrix_entries|].
  split; [exact Eo|]. split; [exact Eh|].
  intros H. specialize (H _ _ Eo Eh). simpl in H. lia.
Qed.

(** C4: for a symmetric matrix whose nonzero entries connect the n cities,
    the edges marked by the Prim-style loop form a spanning tree of that
    graph, and no spanning tree of the graph has a smaller total weight. *)
Theorem prim_minimum_spanning_tree (n : Z) (cities : list (list Z)) :
  matrix n cities -> symmetric n cities -> connected n (has_edge n cities) ->
  exists v mst,
    prim_loop n cities (mst_init n) = Ok (v, mst) /\
    spanning_tree n cities (edge_list n mst) /\
    forall T, spanning_tree n cities T ->
              total_weight cities (edge_list n mst) <= total_weight cities T.
Proof. apply prim_loop_minimum. Qed.

Lemma prim_minimum_spanning_tree_witness :
  exists v mst,
    prim_loop 4 cities4 (mst_init 4) = Ok (v, mst) /\
    spanning_tree 4 cities4 (edge_list 4 mst) /\
    forall T, spanning_tree 4 cities4 T ->
              total_weight cities4 (edge_list 4 mst) <= total_weight cities4 T.
Proof.
  destruct cities4_matrix as (H1 & H2 & _).
  apply (prim_minimum_spanning_tree 4 cities4 H1 H2 cities4_connected).
Defined.

(** C5 (amended): for a walk that dfs returns on a spanning tree of n >= 1
    cities, the short-cutting loop keeps a sequence in which every city
    stands exactly once, followed, when there is more than one city, by the
    repeat of the walk's last element; the sequence ends with the walk's
    last element; it fills the first cells of res.tour, and res.cost is the
    sum of the distances between consecutive kept cities (nothing for the
    first) reduced to a 32-bit int: it is the sum itself when the sum lies in
    the range of an int, and not in general. *)
Theorem shortcut_keeps_each_city_once (n : Z) (g cities : list (list Z))
        (visited walk : list Z) :
  1 <= n -> tree_matrix n g -> matrix n cities ->
  dfs (S (Z.to_nat n)) 0 n g (repeat UNVISITED (Z.to_nat n), []) = Ok (visited, walk) ->
  exists visited' order closing cost,
    let kept := order ++ closing in
    shortcut cities walk
      (repeat UNVISITED (Z.to_nat n), repeat None (Z.to_nat (n + 1)), 0, INFINITE)
    = Ok (visited',
          map Some kept ++ repeat None (Z.to_nat (n + 1) - length kept),
          Z.of_nat (length kept), cost) /\
    Permutation order (zrange n) /\
    (1 < n /\ closing = [last walk 0] \/ n = 1 /\ closing = []) /\
    last kept 0 = last walk 0 /\
    cost = wrap (path_cost cities kept) /\
    (in_int (path_cost cities kept) -> cost = path_cost cities kept).
Proof.
  intros _ Hg Hm Edfs.
  destruct (shortcut_walk_spec n g cities visited walk Hg Hm Edfs)
    as (vis' & order & closing & Erun & _ & Hperm & Hclosing & _ & Hlast).
  exists vis', order, closing, (wrap (path_cost cities (order ++ closing))).
  cbv zeta in *. repeat split; auto. intros Hin. apply wrap_id. exact Hin.
Qed.

Lemma shortcut_keeps_each_city_once_witness :
  exists visited' order closing cost,
    let kept := order ++ closing in
    shortcut cities4 [0; 1; 0; 2; 0; 3; 0]
      (repeat UNVISITED (Z.to_nat 4), repeat None (Z.to_nat (4 + 1)), 0, INFINITE)
    = Ok (visited',
          map Some kept ++ repeat None (Z.to_nat (4 + 1) - length kept),
          Z.of_nat (length kept), cost) /\
    Permutation order (zrange 4) /\
    (1 < 4 /\ closing = [last [0; 1; 0; 2; 0; 3; 0] 0] \/ 4 = 1 /\ closing = []) /\
    last kept 0 = last [0; 1; 0; 2; 0; 3; 0] 0 /\
    cost = wrap (path_cost cities4 kept) /\
    (in_int (path_cost cities4 kept) -> cost = path_cost cities4 kept).
Proof.
  destruct cities4_matrix as (H1 & _).
  apply (shortcut_keeps_each_city_once 4 star4 cities4 [1; 1; 1; 1]).
  - lia.
  - exact star4_tree.
  - exact H1.
  - vm_compute. reflexivity.
Defined.

(** C5 does not hold for every matrix of ints: on [cities_far2], with the
    tree [pair2], the walk is 0,1,0, all three entries are kept, the
    distances between them add up to 2^31, and the cost that the loop
    reports is -2^31. *)
Lemma shortcut_cost_wraps :
  tree_matrix 2 pair2 /\ matrix 2 cities_far2 /\
  dfs (S (Z.to_nat 2)) 0 2 pair2 (repeat UNVISITED (Z.to_nat 2), [])
  = Ok ([1; 1], [0; 1; 0]) /\
  shortcut cities_far2 [0; 1; 0]
    (repeat UNVISITED (Z.to_nat 2), repeat None (Z.to_nat (2 + 1)), 0, INFINITE)
  = Ok ([1; 1], map Some [0; 1; 0], 3, -2147483648) /\
  path_cost cities_far2 [0; 1; 0] = 2147483648 /\
  ~ (forall visited' kept i cost,
       shortcut cities_far2 [0; 1; 0]
         (repeat UNVISITED (Z.to_nat 2), repeat None (Z.to_nat (2 + 1)), 0, INFINITE)
       = Ok (visited', map Some kept, i, cost) ->
       cost = path_cost cities_far2 kept).
Proof.
  assert (Erun : shortcut cities_far2 [0; 1; 0]
                   (repeat UNVISITED (Z.to_nat 2), repeat None (Z.to_nat (2 + 1)), 0, INFINITE)
                 = Ok ([1; 1], map Some [0; 1; 0], 3, -2147483648))
    by (vm_compute; reflexivity).
  split.
  { split; [matrix_shape|]. split.
    - intros i j Hi Hj.
      assert (i = 0 \/ i = 1) as [->| ->] by lia;
        assert (j = 0 \/ j = 1) as [->| ->] by lia; reflexivity.
    - split; [reflexivity|]. split; [lia|]. intros v Hv.
      assert (v = 0 \/ v = 1) as [->| ->] by lia; [apply reach_refl|].
      apply reach_one. repeat split; try lia. }
  split; [matrix_shape|].
  split; [vm_compute; reflexivity|].
  split; [exact Erun|].
  split; [vm_compute; reflexivity|].
  intros H. specialize (H _ _ _ _ Erun). vm_compute in H. discriminate.
Qed.

(** C6: on an adjacency matrix that marks a spanning tree of the n cities,
    dfs from vertex 0 returns a walk of 2(n-1)+1 entries; the walk is the one
    over a tree of calls rooted at 0 that holds every city once, with an
    entry each time a vertex is entered and one for the parent after each
    child's subtree, every child being a neighbour of its parent and the
    children of each vertex coming in increasing order of their index. *)
Theorem dfs_walk (n : Z) (g : list (list Z)) :
  tree_matrix n g ->
  exists visited walk t,
    dfs (S (Z.to_nat n)) 0 n g (repeat UNVISITED (Z.to_nat n), []) = Ok (visited, walk) /\
    Z.of_nat (length walk) = 2 * (n - 1) + 1 /\
    walk = euler t /\ root t = 0 /\ dfs_tree n g t /\
    Permutation (nodes t) (zrange n).
Proof. apply dfs_walk_spec. Qed.

Lemma dfs_walk_witness :
  exists visited walk t,
    dfs (S (Z.to_nat 4)) 0 4 star4 (repeat UNVISITED (Z.to_nat 4), []) = Ok (visited, walk) /\
    Z.of_nat (length walk) = 2 * (4 - 1) + 1 /\
    walk = euler t /\ root t = 0 /\ dfs_tree 4 star4 t /\
    Permutation (nodes t) (zrange 4).
Proof. apply (dfs_walk 4 star4). exact star4_tree. Defined.

(** C7: for a symmetric matrix whose nonzero entries connect the n cities,
    the Prim-style loop ends with an adjacency matrix that is symmetric,
    marks exactly n - 1 undirected edges and connects all n cities. *)
Theorem prim_marks_tree (n : Z) (cities : list (list Z)) :
  matrix n cities -> symmetric n cities -> connected n (has_edge n cities) ->
  exists v mst,
    prim_loop n cities (mst_init n) = Ok (v, mst) /\
    matrix n mst /\ symmetric n mst /\
    Z.of_nat (length (edge_list n mst)) = n - 1 /\
    connected n (joined n mst).
Proof. apply prim_loop_tree. Qed.

Lemma prim_marks_tree_witness :
  exists v mst,
    prim_loop 4 cities4 (mst_init 4) = Ok (v, mst) /\
    matrix 4 mst /\ symmetric 4 mst /\
    Z.of_nat (length (edge_list 4 mst)) = 4 - 1 /\
    connected 4 (joined 4 mst).
Proof.
  destruct cities4_matrix as (H1 & H2 & _).
  apply (prim_marks_tree 4 cities4 H1 H2 cities4_connected).
Defined.

(** ** Further results on CheapestTour.c *)















Section TourCostAny.

Variable n : Z.
Variable m : list (list Z).
Variable p : list Z.
Hypothesis Hm : matrix n m.
Hypothesis Hlen : Z.of_nat (length p) = n.
Hypothesis Hrange : forall x, In x p -> 0 <= x < n.

Lemma tour_cost_loop_wrap :
  forall suf pre acc,
    p = pre ++ suf ->
    for_loop (length suf) (Z.of_nat (length pre))
      (fun j cost =>
         let next_city := if j <? n - 1 then j + 1 else 0 in
         a <- rd p j ;;
         b <- rd p next_city ;;
         c <- rd2 m a b ;;
         Ok (int_add cost c)) (wrap acc)
    = Ok (wrap (acc + path_cost m (suf ++ firstn 1 p))).
Proof.
  induction suf as [|a rest IH]; intros pre acc E.
  - simpl. destruct p as [|p0 p']; simpl; f_equal; f_equal; lia.
  - cbn [length for_loop].
    set (j := Z.of_nat (length pre)).
    assert (Ha : rd p j = Ok a) by (rewrite E; apply rd_app_at; reflexivity).
    assert (Hlen' : n = j + 1 + Z.of_nat (length rest)).
    { rewrite <- Hlen, E, length_app. simpl. unfold j. lia. }
    assert (Hina : 0 <= a < n) by (apply Hrange; rewrite E; apply in_or_app; simpl; auto).
    assert (Hb : exists b t, rest ++ firstn 1 p = b :: t /\ 0 <= b < n /\
                             rd p (if j <? n - 1 then j + 1 else 0) = Ok b).
    { destruct rest as [|b rest'].
      - destruct p as [|p0 p'] eqn:Ep; [destruct pre; discriminate|].
        exists p0, []. split; [reflexivity|]. split; [apply Hrange; simpl; auto|].
        destruct (Z.ltb_spec j (n - 1)); [simpl in Hlen'; lia|]. reflexivity.
      - exists b, (rest' ++ firstn 1 p). split; [reflexivity|].
        split; [apply Hrange; rewrite E; apply in_or_app; simpl; auto|].
        destruct (Z.ltb_spec j (n - 1)); [|simpl in Hlen'; lia].
        rewrite E. apply rd_app_next. reflexivity. }
    destruct Hb as (b & t & Eb & Hinb & Hrb).
    rewrite Ha. cbn [bind]. rewrite Hrb. cbn [bind].
    rewrite (rd2_dist n) by auto. cbn [bind].
    change ((a :: rest) ++ firstn 1 p) with (a :: (rest ++ firstn 1 p)).
    rewrite Eb. rewrite path_cost_cons. rewrite <- Eb.
    unfold int_add. rewrite wrap_add_l.
    specialize (IH (pre ++ [a]) (acc + dist m a b)).
    rewrite length_app in IH. simpl length in IH.
    replace (Z.of_nat (length pre + 1)) with (j + 1) in IH by (unfold j; lia).
    transitivity (Ok (wrap (acc + dist m a b + path_cost m (rest ++ firstn 1 p))));
      [apply IH; rewrite <- app_assoc; auto | f_equal; f_equal; lia].
Qed.

Lemma tour_cost_wrap : tour_cost n m p = Ok (wrap (cycle_cost m p)).
Proof.
  unfold tour_cost, for_range.
  replace (Z.to_nat (n - 0)) with (length p) by lia.
  apply (tour_cost_loop_wrap p [] 0 eq_refl).
Qed.

End TourCostAny.

Section SearchAny.

Variable N : nat.
Variable m : list (list Z).
Let n := Z.of_nat N + 1.
Hypothesis Hm : matrix n m.

Let tour_p (t : nat) : list Z := p_of (sjt N t).
Let wc (t : nat) : Z := wrap (cycle_cost m (tour_p t)).
Let r0 : result := mkResult INFINITE (repeat None (Z.to_nat (n + 1))) (n + 1).

Lemma tour_p_len t : length (tour_p t) = S N.
Proof. exact (tour_p_length N t). Qed.

Lemma tour_p_rng t x : In x (tour_p t) -> 0 <= x < n.
Proof. exact (tour_p_range N t x). Qed.

Lemma search_loop_any T :
  (T < fact N)%nat ->
  exists r stale,
    for_loop T 0 (fun _ st => search_step n m st) (r0, init_perm n)
    = Ok (r, (p_of (sjt N T), d_of (sjt N T), stale)) /\
    (T = 0%nat /\ r = r0 \/
     exists k, (k < T)%nat /\
               r = mkResult (wc k) (map Some (tour_p k) ++ [None]) (n + 1)).
Proof.
  induction T as [|T IH]; intros HT.
  - exists r0, None. unfold n. rewrite init_perm_sjt. split; [reflexivity | left; auto].
  - destruct (IH ltac:(lia)) as (r & stale & E & Hr).
    rewrite for_loop_snoc, E. cbn [bind]. unfold search_step.
    fold (tour_p T).
    rewrite (tour_cost_wrap n m (tour_p T) Hm)
      by (try apply tour_p_rng; rewrite tour_p_len; unfold n; lia).
    cbn [bind]. fold (wc T).
    destruct (sjt_step N T ltac:(lia)) as [Hmob Hstep].
    destruct (next_perm_ok (sjt N T) (sjt_positive N T) (sjt_NoDup N T)
                (sjt_dirs_ok N T) Hmob stale) as [i Ei].
    rewrite sjt_length in Ei. fold n in Ei. rewrite Hstep in Ei.
    assert (Hupd : exists r', update_best n (wc T) (tour_p T) r = Ok r' /\
              exists k, (k < S T)%nat /\
                r' = mkResult (wc k) (map Some (tour_p k) ++ [None]) (n + 1)).
    { assert (Hl : length (tour_p T) = S N) by apply tour_p_len.
      assert (Hskip : skipn (length (tour_p T)) (tour r) = [None] /\
                      tour_size r = n + 1 /\ (length (tour_p T) <= length (tour r))%nat).
      { rewrite Hl. destruct Hr as [[_ ->]|(k & _ & ->)]; cbn [tour tour_size r0].
        - split; [apply skipn_tour0|]. split; [reflexivity|].
          rewrite repeat_length. unfold n. lia.
        - split; [apply skipn_tour|]. split; [reflexivity|].
          rewrite length_app, length_map, tour_p_len. simpl. lia. }
      destruct Hskip as (Hskip & Hsz & Hle).
      destruct (Z.ltb_spec (wc T) (cost r)) as [Hlt|Hge].
      - eexists. split.
        + apply update_best_replace; [rewrite Hl; unfold n; lia | exact Hle | left; exact Hlt].
        + exists T. split; [lia|]. rewrite Hskip, Hsz. reflexivity.
      - destruct (Z.eq_dec (cost r) INFINITE) as [E0|Hne].
        + eexists. split.
          * apply update_best_replace; [rewrite Hl; unfold n; lia | exact Hle | right; exact E0].
          * exists T. split; [lia|]. rewrite Hskip, Hsz. reflexivity.
        + exists r. split; [apply update_best_keep; auto|].
          destruct Hr as [[_ ->]|(k & Hk & ->)]; [exfalso; apply Hne; reflexivity|].
          exists k. split; [lia | reflexivity]. }
    destruct Hupd as (r' & Eu & Hr').
    rewrite Eu. cbn [bind]. change (tour_p T) with (p_of (sjt N T)).
    rewrite Ei. exists r', (Some i). split; [reflexivity | right; exact Hr'].
Qed.

Lemma getOptimalTour_any :
  (0 < Z.to_nat (nr_perm n) < fact N)%nat ->
  exists k, (k < Z.to_nat (nr_perm n))%nat /\
    getOptimalTour n m = Ok (mkResult (wc k) (map Some (tour_p k ++ [0])) (n + 1)).
Proof.
  intros HT. unfold getOptimalTour, for_range.
  rewrite Z.sub_0_r.
  destruct (search_loop_any (Z.to_nat (nr_perm n)) ltac:(lia)) as (r & stale & E & Hr).
  fold r0. rewrite E. cbn [bind].
  destruct Hr as [[H0 _]|(k & Hk & ->)]; [lia|].
  exists k. split; [exact Hk|].
  cbn [tour tour_size cost].
  assert (Ehd : exists q, tour_p k = 0 :: q) by (unfold tour_p, p_of; eauto).
  destruct Ehd as [q Eq].
  assert (E0 : rd (map Some (tour_p k) ++ [None]) 0 = Ok (Some 0)).
  { rewrite Eq. reflexivity. }
  rewrite E0. cbn [bind].
  rewrite (wr_app_at (map Some (tour_p k)) [])
    by (rewrite length_map, tour_p_len; unfold n; lia).
  cbn [bind]. rewrite map_app. reflexivity.
Qed.

End SearchAny.

(** X3: for 3 <= n <= 13 and any n x n matrix (zero or negative entries
    included), getOptimalTour returns one of the tours it examined, closed
    by city 0: a cycle through all cities in which city 1 comes before
    city 2, together with the cost of exactly that cycle as an int. *)
Theorem optimal_tour_is_examined (n : Z) (m : list (list Z)) :
  3 <= n <= 13 -> matrix n m ->
  exists k pi,
    0 <= k < nr_perm n /\ examined n k = Ok (0 :: pi) /\
    cities_perm n pi /\ low12 pi = [1; 2] /\
    getOptimalTour n m
    = Ok (mkResult (wrap (cycle_cost m (0 :: pi))) (map Some (0 :: pi ++ [0])) (n + 1)).
Proof.
  intros Hn Hm.
  destruct (rounds_half n Hn) as (En & HN & Enr & HT).
  set (N := Z.to_nat (n - 1)) in *.
  assert (Hm' : matrix (Z.of_nat N + 1) m) by (rewrite <- En; exact Hm).
  destruct (getOptimalTour_any N m Hm') as (k & Hk & Erun).
  { rewrite <- En, Enr, Nat2Z.id. exact HT. }
  rewrite <- En in Erun, Hk. rewrite Enr, Nat2Z.id in Hk.
  exists (Z.of_nat k), (vals (sjt N k)).
  split; [lia|]. split.
  { rewrite En. rewrite examined_sjt by lia. now rewrite Nat2Z.id. }
  split; [rewrite En; apply sjt_cities_perm|]. split.
  - rewrite (sjt_first_half N k HN) by lia.
    destruct (Nat.ltb_spec k (fact N / 2)); [reflexivity | lia].
  - exact Erun.
Qed.

Lemma optimal_tour_is_examined_witness :
  exists k pi,
    0 <= k < nr_perm 4 /\ examined 4 k = Ok (0 :: pi) /\
    cities_perm 4 pi /\ low12 pi = [1; 2] /\
    getOptimalTour 4 cities_zero4
    = Ok (mkResult (wrap (cycle_cost cities_zero4 (0 :: pi))) (map Some (0 :: pi ++ [0])) (4 + 1)).
Proof.
  apply (optimal_tour_is_examined 4 cities_zero4); [lia | matrix_shape].
Defined.

(** X4: on a symmetric matrix tour_cost gives a tour through all cities
    that starts at city 0 and the same tour in the opposite direction the
    same cost, which is the sum of the n distances along the cycle as an
    int. *)
Theorem tour_cost_reversal (n : Z) (m : list (list Z)) (pi : list Z) :
  matrix n m -> symmetric n m -> cities_perm n pi -> 1 <= n ->
  tour_cost n m (0 :: pi) = Ok (wrap (cycle_cost m (0 :: pi))) /\
  tour_cost n m (0 :: rev pi) = tour_cost n m (0 :: pi).
Proof.
  intros Hm Hs Hp Hn.
  assert (Hr : forall q, cities_perm n q -> forall x, In x (0 :: q) -> 0 <= x < n).
  { intros q Hq x [<-|Hx]; [lia|]. apply (cities_perm_range n) in Hx; auto. lia. }
  assert (Hl : forall q, cities_perm n q -> Z.of_nat (length (0 :: q)) = n).
  { intros q Hq. simpl length. rewrite (cities_perm_length n q Hq). lia. }
  pose proof (cities_perm_rev n pi Hp) as Hp'.
  rewrite (tour_cost_wrap n m (0 :: pi) Hm (Hl _ Hp) (Hr _ Hp)).
  rewrite (tour_cost_wrap n m (0 :: rev pi) Hm (Hl _ Hp') (Hr _ Hp')).
  split; [reflexivity|].
  rewrite (cycle_cost_rev n) by (auto; try lia; intros x Hx; apply (Hr pi Hp); simpl; auto).
  reflexivity.
Qed.

Lemma tour_cost_reversal_witness :
  tour_cost 4 cities4 (0 :: [1; 3; 2]) = Ok (wrap (cycle_cost cities4 (0 :: [1; 3; 2]))) /\
  tour_cost 4 cities4 (0 :: rev [1; 3; 2]) = tour_cost 4 cities4 (0 :: [1; 3; 2]).
Proof.
  destruct cities4_matrix as (H1 & H2 & _).
  apply (tour_cost_reversal 4 cities4 [1; 3; 2] H1 H2); [|lia].
  unfold cities_perm. simpl.
  apply perm_trans with [1; 2; 3]; [apply perm_skip; apply perm_swap | apply Permutation_refl].
Defined.

(** X5: started from the arrays set up by getOptimalTour, the step of the
    enumeration loop can be run (n-1)! - 1 times without a fault; the
    (n-1)! arrangements it goes through keep city 0 in cell 0 and hold every
    order of the cities 1 .. n-1 exactly once. *)
Theorem next_perm_enumerates_all (N : nat) (pi : list Z) :
  cities_perm (Z.of_nat N + 1) pi ->
  exists i, (i < fact N)%nat /\
    (exists d s, perm_at (Z.of_nat N + 1) i = Ok (0 :: pi, d, s)) /\
    forall i' d s, (i' < fact N)%nat ->
                   perm_at (Z.of_nat N + 1) i' = Ok (0 :: pi, d, s) -> i' = i.
Proof.
  intros Hp. unfold cities_perm in Hp.
  replace (Z.to_nat (Z.of_nat N + 1 - 1)) with N in Hp by lia.
  destruct (sjt_surjective N pi Hp) as (t & Ht & Et).
  exists t. split; [exact Ht|]. split.
  - destruct (perm_at_sjt N t Ht) as [s E]. exists (d_of (sjt N t)), s.
    rewrite E. unfold p_of. now rewrite Et.
  - intros i' d s Hi' E'.
    destruct (perm_at_sjt N i' Hi') as [s' E]. rewrite E in E'.
    inversion E' as [[Ev Ed Es]]. apply (sjt_injective N); auto. congruence.
Qed.

Lemma next_perm_enumerates_all_witness :
  exists i, (i < fact 3)%nat /\
    (exists d s, perm_at (Z.of_nat 3 + 1) i = Ok (0 :: [3; 1; 2], d, s)) /\
    forall i' d s, (i' < fact 3)%nat ->
                   perm_at (Z.of_nat 3 + 1) i' = Ok (0 :: [3; 1; 2], d, s) -> i' = i.
Proof.
  apply (next_perm_enumerates_all 3 [3; 1; 2]).
  unfold cities_perm. simpl.
  apply perm_trans with [1; 3; 2]; [apply perm_swap|].
  apply perm_skip. apply perm_swap.
Defined.

Lemma astep_swaps (l : list elt) :
  (forall v, In v (vals l) -> 0 < v) -> NoDup (vals l) -> mobiles None l <> [] ->
  exists pre a b post,
    vals l = pre ++ a :: b :: post /\ vals (astep l) = pre ++ b :: a :: post.
Proof.
  intros Hpos Hnd Hmob.
  destruct (largest_mobile_pos l Hpos Hmob) as [_ Hin].
  set (m := lmax (mobiles None l)) in *.
  apply mobiles_decomp in Hin.
  destruct Hin as [(u & rest & Eu & _) | (pre & a & b & post & E & Hab)]; [discriminate|].
  assert (Hvals : vals l = vals pre ++ fst a :: fst b :: vals post).
  { rewrite E. unfold vals. rewrite map_app. reflexivity. }
  rewrite Hvals in Hnd.
  destruct (NoDup_mid2 _ _ _ _ Hnd) as (Ha & Hb & Hne).
  assert (Emove : move m l = pre ++ b :: a :: post).
  { rewrite E. apply move_decomp.
    - destruct Hab as [(E1 & _) | (E1 & _)]; congruence.
    - destruct Hab as [(E1 & E2 & _) | (E1 & E2 & _)]; [left | right];
        repeat split; auto; congruence. }
  exists (vals pre), (fst a), (fst b), (vals post).
  split; [exact Hvals|].
  unfold astep. fold m. rewrite vals_flip, Emove.
  unfold vals. rewrite map_app. reflexivity.
Qed.

(** X6: from one round of the enumeration loop to the next, the tour in p
    changes by one exchange of two neighbouring cells; cell 0, which holds
    city 0, is never one of them. *)
Theorem next_perm_swaps_neighbours (N i : nat) :
  (i + 1 < fact N)%nat ->
  exists pre a b post d s d' s',
    perm_at (Z.of_nat N + 1) i = Ok (0 :: pre ++ a :: b :: post, d, s) /\
    perm_at (Z.of_nat N + 1) (S i) = Ok (0 :: pre ++ b :: a :: post, d', s').
Proof.
  intros Hi.
  destruct (sjt_step N i Hi) as [Hmob Hstep].
  destruct (astep_swaps (sjt N i) (sjt_positive N i) (sjt_NoDup N i) Hmob)
    as (pre & a & b & post & E1 & E2).
  rewrite Hstep in E2.
  destruct (perm_at_sjt N i) as [s Es]; [lia|].
  destruct (perm_at_sjt N (S i)) as [s' Es']; [lia|].
  exists pre, a, b, post, (d_of (sjt N i)), s, (d_of (sjt N (S i))), s'.
  rewrite Es, Es'. unfold p_of. rewrite E1, E2. split; reflexivity.
Qed.

Lemma next_perm_swaps_neighbours_witness :
  exists pre a b post d s d' s',
    perm_at (Z.of_nat 3 + 1) 2 = Ok (0 :: pre ++ a :: b :: post, d, s) /\
    perm_at (Z.of_nat 3 + 1) (S 2) = Ok (0 :: pre ++ b :: a :: post, d', s').
Proof. apply (next_perm_swaps_neighbours 3 2). simpl. lia. Defined.

(** ** Further results on HeuristicTour.c *)

(** X7: for n <= 0 getHeuristicTour does not return: dfs marks visited[0]
    in an array that has no cell.  For one city it reads no entry of the
    matrix and returns cost 0 with city 0 in the first cell of the tour; the
    second of the two cells is never assigned, so the tour is not closed. *)
Theorem heuristic_tour_degenerate :
  (forall n m, n <= 0 -> getHeuristicTour n m = Err OutOfBounds) /\
  (forall m, getHeuristicTour 1 m = Ok (mkResult 0 [Some 0; None] 2)).
Proof.
  split; [|reflexivity].
  intros n m Hn. unfold getHeuristicTour, prim_loop, for_range.
  replace (Z.to_nat (n - 1)) with 0%nat by lia.
  replace (Z.to_nat n) with 0%nat by lia.
  reflexivity.
Qed.

Lemma heuristic_tour_degenerate_witness :
  getHeuristicTour 0 [] = Err OutOfBounds /\
  getHeuristicTour 1 [[5]] = Ok (mkResult 0 [Some 0; None] 2).
Proof.
  destruct heuristic_tour_degenerate as [H1 H2].
  split; [apply H1; lia | apply H2].
Defined.

Section Disconnected.

Variable n : Z.
Variable cities : list (list Z).
Hypothesis Hm : matrix n cities.
Hypothesis Hn : 1 <= n.

(* after c rounds: c + 1 distinct cities, each reached from city 0 *)
Let grown (c : nat) (st : list Z * list (list Z)) : Prop :=
  NoDup (fst st) /\ (forall x, In x (fst st) -> 0 <= x < n) /\
  length (fst st) = S c /\
  (forall x, In x (fst st) -> reach (has_edge n cities) 0 x) /\
  matrix n (snd st).

Lemma prim_round_grows c st :
  grown c st ->
  (prim_scan n cities (fst st) = Ok (None, mkEdge None None INFINITE) /\
   forall a b, ~ crossing n cities (fst st) a b) \/
  exists st', prim_round n cities st = Ok st' /\ grown (S c) st'.
Proof.
  destruct st as [v mst]. intros (Hnd & Hr & Hl & Hreach & Hmst). cbn [fst snd] in *.
  destruct (prim_scan_spec n cities v Hm Hr) as ([o e] & E & Hbest).
  destruct o as [c2|]; cbn [best_so_far] in Hbest.
  - right. unfold prim_round. rewrite E. cbn [bind].
    destruct Hbest as (c1 & -> & (Hc1 & Hc2 & Hout & Hw) & _).
    cbn [val bind city1 city2].
    pose proof (Hr c1 Hc1) as Hc1r.
    destruct (wr2_spec n mst c1 c2 CONNECTED Hmst Hc1r Hc2) as (m1 & E1 & Hm1 & _).
    rewrite E1. cbn [bind].
    destruct (wr2_spec n m1 c2 c1 CONNECTED Hm1 Hc2 Hc1r) as (m2 & E2 & Hm2 & _).
    rewrite E2. cbn [bind].
    eexists. split; [reflexivity|]. unfold grown. cbn [fst snd].
    split.
    { apply NoDup_app_intro; [exact Hnd | constructor; [intros [] | constructor] |].
      intros x Hx [<-|[]]. contradiction. }
    split.
    { intros x Hx. apply in_app_or in Hx. destruct Hx as [Hx|[<-|[]]]; auto. }
    split; [rewrite length_app; simpl; lia|].
    split; [|exact Hm2].
    intros x Hx. apply in_app_or in Hx. destruct Hx as [Hx|[<-|[]]]; auto.
    eapply reach_step; [apply (Hreach c1 Hc1)|].
    repeat split; try lia; exact Hw.
  - left. destruct Hbest as [-> Hno]. split; [exact E|].
    intros a b Hab. apply (Hno a b); [|exact Hab].
    destruct Hab as (Ha & Hb & _). auto.
Qed.

(* either every one of the first c rounds finds an edge, or some round
   before comes to a scan that finds none *)
Lemma prim_rounds_grow c :
  (exists st, for_loop c 1 (fun _ st => prim_round n cities st) ([0], mst_init n) = Ok st /\
              grown c st) \/
  (exists c' st, (c' < c)%nat /\
     for_loop c' 1 (fun _ st => prim_round n cities st) ([0], mst_init n) = Ok st /\
     grown c' st /\
     prim_scan n cities (fst st) = Ok (None, mkEdge None None INFINITE) /\
     forall a b, ~ crossing n cities (fst st) a b).
Proof.
  induction c as [|c IH].
  - left. eexists. split; [reflexivity|]. unfold grown. cbn [fst snd].
    split; [constructor; [intros [] | constructor]|].
    split; [intros x [<-|[]]; lia|].
    split; [reflexivity|].
    split; [intros x [<-|[]]; apply reach_refl|].
    apply mst_init_matrix. lia.
  - destruct IH as [(st & E & Hg)|(c' & st & Hc' & E & Hg & Hscan)].
    + destruct (prim_round_grows c st Hg) as [Hscan|(st' & E' & Hg')].
      * right. exists c, st. split; [lia|]. split; [exact E|]. split; [exact Hg | exact Hscan].
      * left. exists st'. split; [|exact Hg'].
        rewrite for_loop_snoc, E. cbn [bind]. exact E'.
    + right. exists c', st. split; [lia|]. split; [exact E|]. split; [exact Hg | exact Hscan].
Qed.

Lemma prim_loop_stalls :
  ~ connected n (has_edge n cities) ->
  exists c v mst,
    Z.of_nat c < n - 1 /\
    for_loop c 1 (fun _ st => prim_round n cities st) ([0], mst_init n) = Ok (v, mst) /\
    length v = S c /\
    (forall x, In x v -> reach (has_edge n cities) 0 x) /\
    prim_scan n cities v = Ok (None, mkEdge None None INFINITE) /\
    forall a b, ~ crossing n cities v a b.
Proof.
  intros Hnc.
  destruct (prim_rounds_grow (Z.to_nat (n - 1)))
    as [(st & E & Hg)|(c' & [v mst] & Hc' & E & Hg & Hscan & Hno)].
  - exfalso. apply Hnc. destruct Hg as (Hnd & Hr & Hl & Hreach & _).
    split; [lia|]. intros x Hx. apply Hreach.
    apply (full_list_covers n); auto. lia.
  - destruct Hg as (_ & _ & Hl & Hreach & _). cbn [fst] in *.
    exists c', v, mst. split; [lia|]. split; [exact E|]. split; [exact Hl|].
    split; [exact Hreach|]. split; [exact Hscan | exact Hno].
Qed.

End Disconnected.

(** X8: when the nonzero entries of an n x n matrix (n >= 1) do not connect
    every city to city 0, the Prim-style loop comes, after rounds that each
    found an edge, to one of its n - 1 rounds whose scan finds no edge from
    the cities collected so far to a city outside them: the scan ends with
    e.weight still INFINITE and with v_new->city, e.city1 and e.city2 never
    assigned, which is how lines 228-234 then use them. *)
Theorem prim_loop_finds_no_edge (n : Z) (cities : list (list Z)) :
  matrix n cities -> 1 <= n -> ~ connected n (has_edge n cities) ->
  exists c v mst,
    Z.of_nat c < n - 1 /\
    for_loop c 1 (fun _ st => prim_round n cities st) ([0], mst_init n) = Ok (v, mst) /\
    length v = S c /\
    (forall x, In x v -> reach (has_edge n cities) 0 x) /\
    prim_scan n cities v = Ok (None, mkEdge None None INFINITE) /\
    forall a b, ~ crossing n cities v a b.
Proof.
  intros Hm Hn Hnc. exact (prim_loop_stalls n cities Hm Hn Hnc).
Qed.

Lemma zero2_disconnected : ~ connected 2 (has_edge 2 [[0; 0]; [0; 0]]).
Proof.
  intros [_ H]. specialize (H 1 ltac:(lia)).
  assert (Hz : forall v, reach (has_edge 2 [[0; 0]; [0; 0]]) 0 v -> v = 0).
  { intros v Hv. induction Hv as [|b c _ IH Hbc]; [reflexivity|]. subst b.
    destruct Hbc as (_ & Hc & Hd). exfalso. apply Hd.
    assert (c = 0 \/ c = 1) as [->| ->] by lia; reflexivity. }
  apply Hz in H. discriminate.
Qed.

Lemma prim_loop_finds_no_edge_witness :
  exists c v mst,
    Z.of_nat c < 2 - 1 /\
    for_loop c 1 (fun _ st => prim_round 2 [[0; 0]; [0; 0]] st) ([0], mst_init 2)
    = Ok (v, mst) /\
    length v = S c /\
    (forall x, In x v -> reach (has_edge 2 [[0; 0]; [0; 0]]) 0 x) /\
    prim_scan 2 [[0; 0]; [0; 0]] v = Ok (None, mkEdge None None INFINITE) /\
    forall a b, ~ crossing 2 [[0; 0]; [0; 0]] v a b.
Proof.
  apply (prim_loop_finds_no_edge 2 [[0; 0]; [0; 0]]).
  - matrix_shape.
  - lia.
  - exact zero2_disconnected.
Defined.

(** X9: for n >= 2 and a symmetric matrix whose nonzero entries connect
    the cities, getHeuristicTour fills all n + 1 cells of the tour with a
    cycle that starts and ends at city 0 and holds every other city once,
    and returns as cost the sum of the n distances along it as an int. *)
Theorem heuristic_tour_hamiltonian (n : Z) (cities : list (list Z)) :
  matrix n cities -> symmetric n cities -> connected n (has_edge n cities) ->
  2 <= n ->
  exists o,
    cities_perm n o /\
    getHeuristicTour n cities
    = Ok (mkResult (wrap (cycle_cost cities (0 :: o))) (map Some (0 :: o ++ [0])) (n + 1)).
Proof.
  intros Hm Hs Hc Hn.
  destruct (getHeuristicTour_run n cities Hm Hs Hc)
    as (order & closing & Erun & [o Eo] & Hperm & Hclosing).
  cbv zeta in Erun. subst order.
  destruct Hclosing as [[_ ->]|[Hn1 _]]; [|lia].
  assert (Hn0 : 0 < n) by lia.
  exists o. split; [apply zrange_cities_perm; auto|].
  rewrite Erun. f_equal. f_equal.
  assert (Hl : length ((0 :: o) ++ [0]) = Z.to_nat (n + 1)).
  { apply Permutation_length in Hperm. rewrite length_app, Hperm.
    unfold zrange. rewrite length_map, length_seq. simpl. lia. }
  rewrite Hl, Nat.sub_diag. simpl repeat. rewrite app_nil_r. reflexivity.
Qed.

Lemma heuristic_tour_hamiltonian_witness :
  exists o,
    cities_perm 4 o /\
    getHeuristicTour 4 cities4
    = Ok (mkResult (wrap (cycle_cost cities4 (0 :: o))) (map Some (0 :: o ++ [0])) (4 + 1)).
Proof.
  destruct cities4_matrix as (H1 & H2 & _).
  apply (heuristic_tour_hamiltonian 4 cities4 H1 H2 cities4_connected). lia.
Defined.

Lemma dfs_tree_reach n g t :
  dfs_tree n g t -> forall x, In x (nodes t) -> reach (joined n g) (root t) x.
Proof.
  induction t as [v cs IH] using rtree_induction. intros Ht x Hx.
  inversion Ht as [v' cs' Hcs Hadj _ [Ev Ec]]. subst v' cs'.
  cbn [nodes root] in *. destruct Hx as [<-|Hx]; [apply reach_refl|].
  apply in_flat_map in Hx. destruct Hx as (c & Hc & Hx).
  apply reach_trans with (root c).
  - apply reach_one. apply Hadj. exact Hc.
  - rewrite Forall_forall in IH, Hcs. apply IH; auto.
Qed.

(** X10: on any n x n adjacency matrix, dfs started at vertex 0 with every
    city unvisited returns; the cities on the walk are exactly those that
    can be reached from vertex 0 along entries equal to CONNECTED, the walk
    has twice their number less one entries, and a city is still marked
    unvisited afterwards exactly when it cannot be reached. *)
Theorem dfs_visits_reachable (n : Z) (g : list (list Z)) :
  matrix n g -> 0 < n ->
  exists visited walk reached,
    dfs (S (Z.to_nat n)) 0 n g (repeat UNVISITED (Z.to_nat n), []) = Ok (visited, walk) /\
    NoDup reached /\
    (forall x, In x reached <-> reach (joined n g) 0 x) /\
    (forall x, In x walk <-> In x reached) /\
    Z.of_nat (length walk) = 2 * Z.of_nat (length reached) - 1 /\
    (forall x, 0 <= x < n ->
               (rd visited x = Ok UNVISITED <-> ~ reach (joined n g) 0 x)).
Proof.
  intros Hg Hn.
  assert (Hun : forall x, 0 <= x < n -> unvis (repeat UNVISITED (Z.to_nat n)) x).
  { intros x Hx. unfold unvis. apply rd_repeat. lia. }
  destruct (dfs_spec n g Hg (S (Z.to_nat n)) 0 (repeat UNVISITED (Z.to_nat n)) [] [])
    as (vis' & t & E & Hroot & Ht & Hnd & Hlen & Hun' & Hin & Hclosed).
  { rewrite repeat_length. lia. }
  { lia. }
  { apply Hun. lia. }
  { constructor. }
  { intros x []. }
  { simpl. lia. }
  assert (Hnodes : forall x, In x (nodes t) <-> reach (joined n g) 0 x).
  { intros x. split.
    - intros Hx. rewrite <- Hroot. apply dfs_tree_reach; auto.
    - intros Hx. induction Hx as [|b c _ IH Hbc].
      + rewrite <- Hroot. destruct t. simpl. auto.
      + pose proof (Hclosed b c IH Hbc) as Hc.
        destruct (in_dec Z.eq_dec c (nodes t)) as [Hi|Hni]; [exact Hi|].
        exfalso. apply Hc. apply Hun'. split; [|exact Hni].
        apply Hun. destruct Hbc as (_ & Hcr & _). exact Hcr. }
  exists vis', (euler t), (nodes t). split; [exact E|]. split; [exact Hnd|].
  split; [exact Hnodes|]. split; [intros x; apply euler_nodes|].
  split; [apply euler_length|].
  intros x Hx. fold (unvis vis' x). rewrite Hun', <- Hnodes. split.
  - intros [_ H]. exact H.
  - intros H. split; [apply Hun; exact Hx | exact H].
Qed.

Lemma dfs_visits_reachable_witness :
  exists visited walk reached,
    dfs (S (Z.to_nat 4)) 0 4 star4 (repeat UNVISITED (Z.to_nat 4), []) = Ok (visited, walk) /\
    NoDup reached /\
    (forall x, In x reached <-> reach (joined 4 star4) 0 x) /\
    (forall x, In x walk <-> In x reached) /\
    Z.of_nat (length walk) = 2 * Z.of_nat (length reached) - 1 /\
    (forall x, 0 <= x < 4 ->
               (rd visited x = Ok UNVISITED <-> ~ reach (joined 4 star4) 0 x)).
Proof.
  apply (dfs_visits_reachable 4 star4); [matrix_shape | lia].
Defined.

(** X11: for any list of cities of the matrix, not only a walk of dfs, the
    short-cutting loop returns without leaving the n + 1 cells of the tour:
    it keeps the first occurrence of every city before the final entry,
    each once and in the order of the list, then the final entry whether or
    not it was kept already, and adds up the distances between consecutive
    kept cities as an int. *)
Theorem shortcut_keeps_first_occurrences (n : Z) (cities : list (list Z))
        (l : list Z) (x : Z) :
  matrix n cities -> (forall c, In c (l ++ [x]) -> 0 <= c < n) ->
  let kept := firsts [] l ++ [x] in
  NoDup (firsts [] l) /\ (forall c, In c (firsts [] l) <-> In c l) /\
  exists visited',
    shortcut cities (l ++ [x])
      (repeat UNVISITED (Z.to_nat n), repeat None (Z.to_nat (n + 1)), 0, INFINITE)
    = Ok (visited',
          map Some kept ++ repeat None (Z.to_nat (n + 1) - length kept),
          Z.of_nat (length kept), wrap (path_cost cities kept)).
Proof.
  intros Hm Hr kept.
  assert (Hn : 0 < n).
  { assert (Hx : In x (l ++ [x])) by (apply in_or_app; right; simpl; auto).
    apply Hr in Hx. lia. }
  split; [apply firsts_NoDup|].
  assert (Hin : forall c, In c (firsts [] l) <-> In c l).
  { intros c. rewrite firsts_In. split; [intros [H _]; exact H | intros H; split; auto]. }
  split; [exact Hin|].
  assert (Hlen : (length (keep [] (l ++ [x])) <= Z.to_nat (n + 1))%nat).
  { rewrite keep_snoc, length_app. simpl.
    pose proof (NoDup_range_length n (firsts [] l) (firsts_NoDup [] l)) as H.
    assert (length (firsts [] l) <= Z.to_nat n)%nat; [|lia].
    apply H. intros c Hc. apply Hr. apply in_or_app. left. apply Hin. exact Hc. }
  destruct (shortcut_keep n cities Hm (l ++ [x]) [] [] (repeat UNVISITED (Z.to_nat n))
              (Z.to_nat (n + 1)) Hr) as [vis' E].
  { intros c []. }
  { rewrite repeat_length. lia. }
  { intros y Hy. split; [intros _ []|]. intros _. unfold unvis. apply rd_repeat. lia. }
  { exact Hlen. }
  exists vis'. cbn [app map length] in E. rewrite keep_snoc in E. exact E.
Qed.

Lemma shortcut_keeps_first_occurrences_witness :
  let kept := firsts [] [2; 0; 2; 1; 0] ++ [2] in
  NoDup (firsts [] [2; 0; 2; 1; 0]) /\
  (forall c, In c (firsts [] [2; 0; 2; 1; 0]) <-> In c [2; 0; 2; 1; 0]) /\
  exists visited',
    shortcut cities4 ([2; 0; 2; 1; 0] ++ [2])
      (repeat UNVISITED (Z.to_nat 4), repeat None (Z.to_nat (4 + 1)), 0, INFINITE)
    = Ok (visited',
          map Some kept ++ repeat None (Z.to_nat (4 + 1) - length kept),
          Z.of_nat (length kept), wrap (path_cost cities4 kept)).
Proof.
  destruct cities4_matrix as (H1 & _).
  apply (shortcut_keeps_first_occurrences 4 cities4 [2; 0; 2; 1; 0] 2 H1).
  intros c Hc. simpl in Hc. lia.
Defined.

(** ** The heuristic tour costs at most twice any tour *)

Lemma path_cost_app m l1 a l2 :
  path_cost m (l1 ++ a :: l2) = path_cost m (l1 ++ [a]) + path_cost m (a :: l2).
Proof.
  induction l1 as [|x l1 IH]; [simpl; lia|].
  destruct l1 as [|y l1'].
  - cbn [app]. rewrite path_cost_cons. simpl (path_cost m [x; a]). lia.
  - change ((x :: y :: l1') ++ a :: l2) with (x :: y :: (l1' ++ a :: l2)).
    change ((x :: y :: l1') ++ [a]) with (x :: y :: (l1' ++ [a])).
    rewrite !path_cost_cons.
    change (y :: l1' ++ a :: l2) with ((y :: l1') ++ a :: l2).
    change (y :: l1' ++ [a]) with ((y :: l1') ++ [a]).
    rewrite IH. lia.
Qed.

Lemma euler_ends t : exists w, euler t = w ++ [root t].
Proof.
  pose proof (euler_last t) as Hl.
  destruct (euler_head t) as [w Ew].
  assert (Hne : euler t <> []) by (rewrite Ew; discriminate).
  exists (removelast (euler t)).
  rewrite (app_removelast_last 0 Hne) at 1. now rewrite Hl.
Qed.

(* there and back: the walk below a child, entered from v and left to v *)
Lemma path_cost_child m v c rest :
  path_cost m (v :: (euler c ++ [v]) ++ rest)
  = dist m v (root c) + path_cost m (euler c) + dist m (root c) v
    + path_cost m (v :: rest).
Proof.
  rewrite <- app_assoc. cbn [app].
  change (v :: euler c ++ v :: rest) with ((v :: euler c) ++ v :: rest).
  rewrite path_cost_app.
  destruct (euler_ends c) as [w Ew]. destruct (euler_head c) as [u Eu].
  assert (E1 : path_cost m ((v :: euler c) ++ [v])
               = path_cost m (v :: euler c) + dist m (root c) v).
  { rewrite Ew. change ((v :: w ++ [root c]) ++ [v]) with (v :: (w ++ [root c]) ++ [v]).
    rewrite <- app_assoc. cbn [app].
    change (v :: w ++ [root c; v]) with ((v :: w) ++ [root c; v]).
    rewrite path_cost_snoc. reflexivity. }
  rewrite E1. rewrite Eu at 1. rewrite path_cost_cons. rewrite <- Eu. lia.
Qed.

Lemma euler_cost n m t :
  symmetric n m -> (forall x, In x (nodes t) -> 0 <= x < n) ->
  path_cost m (euler t) = 2 * total_weight m (tree_edges t).
Proof.
  intros Hs. induction t as [v cs IH] using rtree_induction. intros Hr.
  cbn [euler tree_edges].
  assert (Hv : 0 <= v < n) by (apply Hr; simpl; auto).
  assert (Hcs : forall c, In c cs -> forall x, In x (nodes c) -> 0 <= x < n).
  { intros c Hc x Hx. apply Hr. cbn [nodes]. right. apply in_flat_map. eauto. }
  clear Hr. induction cs as [|c cs IHcs]; [reflexivity|].
  cbn [flat_map]. rewrite path_cost_child.
  inversion IH as [|c' cs' IHc IHrest]. subst c' cs'.
  rewrite IHcs by (auto; intros; eapply Hcs; simpl; eauto).
  rewrite IHc by (apply Hcs; simpl; auto).
  assert (Hc : 0 <= root c < n).
  { apply (Hcs c); [simpl; auto|]. destruct c. simpl. auto. }
  cbn [app]. rewrite total_weight_cons.
  rewrite (dist_norm n) by auto.
  rewrite total_weight_app.
  rewrite (Hs (root c) v) by auto. lia.
Qed.

Lemma norm_ends a b x y : norm a b = (x, y) -> (x = a /\ y = b) \/ (x = b /\ y = a).
Proof.
  unfold norm. destruct (a <? b); intros E; inversion E; auto.
Qed.

Lemma root_in_nodes t : In (root t) (nodes t).
Proof. destruct t. simpl. auto. Qed.

Lemma tree_edges_ends t :
  forall x y, In (x, y) (tree_edges t) -> In x (nodes t) /\ In y (nodes t).
Proof.
  induction t as [v cs IH] using rtree_induction. intros x y H.
  cbn [tree_edges nodes] in *. apply in_flat_map in H.
  destruct H as (c & Hc & [E|H]).
  - assert (Hrc : In (root c) (flat_map nodes cs))
      by (apply in_flat_map; exists c; split; [auto | apply root_in_nodes]).
    apply norm_ends in E. destruct E as [[-> ->]|[-> ->]]; simpl; auto.
  - rewrite Forall_forall in IH. destruct (IH c Hc x y H) as [Hx Hy].
    split; right; apply in_flat_map; eauto.
Qed.

Lemma tree_edges_length t : S (length (tree_edges t)) = length (nodes t).
Proof.
  induction t as [v cs IH] using rtree_induction.
  cbn [tree_edges nodes length]. f_equal.
  induction cs as [|c cs IHcs]; [reflexivity|].
  inversion IH as [|c' cs' IHc IHrest]. subst c' cs'.
  cbn [flat_map]. rewrite !length_app. cbn [length]. rewrite IHcs by auto. lia.
Qed.

Lemma NoDup_app_l {A} (l1 l2 : list A) : NoDup (l1 ++ l2) -> NoDup l1.
Proof.
  induction l1 as [|x l1 IH]; [constructor|].
  cbn [app]. intros H. inversion H as [|x' l' Hx Hnd]. subst.
  constructor; [|auto]. intros Hin. apply Hx. apply in_or_app. auto.
Qed.

Lemma NoDup_app_r {A} (l1 l2 : list A) : NoDup (l1 ++ l2) -> NoDup l2.
Proof.
  induction l1 as [|x l1 IH]; [auto|].
  cbn [app]. intros H. inversion H. auto.
Qed.

Lemma NoDup_app_disjoint {A} (l1 l2 : list A) x :
  NoDup (l1 ++ l2) -> In x l1 -> In x l2 -> False.
Proof.
  induction l1 as [|y l1 IH]; [intros _ []|].
  cbn [app]. intros H [->|Hx] Hx2; inversion H as [|y' l' Hy Hnd]; subst.
  - apply Hy. apply in_or_app. auto.
  - eapply IH; eauto.
Qed.

Lemma tree_edges_NoDup t : NoDup (nodes t) -> NoDup (tree_edges t).
Proof.
  induction t as [v cs IH] using rtree_induction. intros Hnd.
  cbn [nodes tree_edges] in *.
  inversion Hnd as [|v' l' Hv Hcs]. subst v' l'. clear Hnd.
  induction cs as [|c cs IHcs]; [constructor|].
  inversion IH as [|c' cs' IHc IHrest]. subst c' cs'.
  cbn [flat_map] in *.
  assert (Hv' : ~ In v (flat_map nodes cs))
    by (intros H; apply Hv; apply in_or_app; auto).
  specialize (IHcs IHrest Hv' (NoDup_app_r _ _ Hcs)).
  specialize (IHc (NoDup_app_l _ _ Hcs)).
  assert (Hrest_ends : forall x y,
            In (x, y) (flat_map (fun c => norm v (root c) :: tree_edges c) cs) ->
            (In x (flat_map nodes cs) \/ x = v) /\ (In y (flat_map nodes cs) \/ y = v) /\
            (In x (flat_map nodes cs) \/ In y (flat_map nodes cs))).
  { intros x y H. apply in_flat_map in H. destruct H as (c0 & Hc0 & [E|H]).
    - assert (Hrc : In (root c0) (flat_map nodes cs))
        by (apply in_flat_map; exists c0; split; [auto | apply root_in_nodes]).
      apply norm_ends in E. destruct E as [[-> ->]|[-> ->]]; auto.
    - apply tree_edges_ends in H. destruct H as [Hx Hy].
      assert (In x (flat_map nodes cs)) by (apply in_flat_map; eauto).
      assert (In y (flat_map nodes cs)) by (apply in_flat_map; eauto).
      auto. }
  cbn [app]. constructor.
  - (* the edge to the child is new *)
    intros H. apply in_app_or in H.
    assert (Hvc : ~ In v (nodes c)) by (intros Hin; apply Hv; apply in_or_app; auto).
    destruct (norm v (root c)) as [x y] eqn:En.
    apply norm_ends in En.
    destruct H as [H|H].
    + apply tree_edges_ends in H. destruct H as [Hx Hy].
      destruct En as [[-> ->]|[-> ->]]; contradiction.
    + destruct (Hrest_ends x y H) as (Hx & Hy & _).
      assert (Hrc : In (root c) (nodes c)) by apply root_in_nodes.
      destruct En as [[-> ->]|[-> ->]].
      * destruct Hy as [Hy|Ev]; [|rewrite Ev in Hrc; contradiction].
        exact (NoDup_app_disjoint _ _ _ Hcs Hrc Hy).
      * destruct Hx as [Hx|Ev]; [|rewrite Ev in Hrc; contradiction].
        exact (NoDup_app_disjoint _ _ _ Hcs Hrc Hx).
  - apply NoDup_app_intro; [exact IHc | exact IHcs |].
    intros [x y] H1 H2. apply tree_edges_ends in H1. destruct H1 as [Hx Hy].
    destruct (Hrest_ends x y H2) as (_ & _ & [H|H]).
    + exact (NoDup_app_disjoint _ _ _ Hcs Hx H).
    + exact (NoDup_app_disjoint _ _ _ Hcs Hy H).
Qed.

Lemma tree_edges_marked n g t :
  symmetric n g -> dfs_tree n g t -> NoDup (nodes t) ->
  incl (tree_edges t) (edge_list n g).
Proof.
  intros Hs. induction t as [v cs IH] using rtree_induction. intros Ht Hnd [x y] H.
  inversion Ht as [v' cs' Hcs Hadj _ [Ev Ec]]. subst v' cs'.
  cbn [tree_edges nodes] in *. apply in_flat_map in H.
  destruct H as (c & Hc & [E|H]).
  - destruct (Hadj c Hc) as (Hvr & Hcr & Hd).
    assert (Hne : v <> root c).
    { intros Eq. inversion Hnd as [|v' l' Hv _]. apply Hv.
      apply in_flat_map. exists c. split; [auto|]. rewrite Eq. apply root_in_nodes. }
    unfold edge_list. apply filter_In.
    pose proof (dist_norm n g v (root c) Hs Hvr Hcr) as Hdn. rewrite E in Hdn.
    cbn [fst snd] in *. split.
    + apply all_pairs_In. destruct (norm_cases v (root c) Hne) as [[Hlt En]|[Hlt En]];
        rewrite En in E; inversion E; subst; lia.
    + rewrite Hdn, Hd. reflexivity.
  - rewrite Forall_forall in IH, Hcs. apply (IH c Hc); auto.
    inversion Hnd as [|v' l' _ Hl]. subst.
    clear - Hl Hc. induction cs as [|c0 cs IHcs]; [destruct Hc|].
    cbn [flat_map] in Hl. destruct Hc as [->|Hc].
    + eapply NoDup_app_l; eauto.
    + apply IHcs; auto. eapply NoDup_app_r; eauto.
Qed.

(* the tree of calls uses every marked edge *)
Lemma tree_edges_perm n g t :
  tree_matrix n g -> dfs_tree n g t -> Permutation (nodes t) (zrange n) ->
  Permutation (tree_edges t) (edge_list n g).
Proof.
  intros (Hg & Hs & Hlen & Hconn) Ht Hperm.
  assert (Hnd : NoDup (nodes t)).
  { eapply Permutation_NoDup; [symmetry; exact Hperm | apply zrange_NoDup]. }
  apply NoDup_Permutation_bis.
  - apply tree_edges_NoDup. exact Hnd.
  - pose proof (tree_edges_length t) as Hl.
    rewrite (Permutation_length Hperm), zrange_length in Hl. lia.
  - apply tree_edges_marked; auto.
Qed.

Lemma path_edges_cons a b t :
  path_edges (a :: b :: t) = norm a b :: path_edges (b :: t).
Proof. reflexivity. Qed.

Lemma path_edges_ends l :
  forall x y, In (x, y) (path_edges l) -> In x l /\ In y l.
Proof.
  induction l as [|a l IH]; [intros x y []|].
  destruct l as [|b l']; [intros x y []|].
  intros x y H. rewrite path_edges_cons in H. destruct H as [E|H].
  - apply norm_ends in E. destruct E as [[-> ->]|[-> ->]]; simpl; auto.
  - destruct (IH x y H). split; right; auto.
Qed.

Lemma path_edges_NoDup l : NoDup l -> NoDup (path_edges l).
Proof.
  induction l as [|a l IH]; [constructor|].
  destruct l as [|b l']; [constructor|].
  intros Hnd. inversion Hnd as [|a' l0 Ha Hnd']. subst.
  rewrite path_edges_cons. constructor; [|apply IH; exact Hnd'].
  intros H. destruct (norm a b) as [x y] eqn:En.
  apply path_edges_ends in H. destruct H as [Hx Hy].
  apply norm_ends in En. destruct En as [[-> ->]|[-> ->]]; contradiction.
Qed.

Lemma path_edges_length l : length (path_edges l) = (length l - 1)%nat.
Proof.
  induction l as [|a l IH]; [reflexivity|].
  destruct l as [|b l']; [reflexivity|].
  rewrite path_edges_cons. cbn [length] in *. rewrite IH. lia.
Qed.

Lemma path_edges_weight n m l :
  symmetric n m -> (forall x, In x l -> 0 <= x < n) ->
  total_weight m (path_edges l) = path_cost m l.
Proof.
  intros Hs. induction l as [|a l IH]; [reflexivity|].
  destruct l as [|b l']; [reflexivity|].
  intros Hr. rewrite path_edges_cons, total_weight_cons, path_cost_cons.
  rewrite (dist_norm n) by (auto; apply Hr; simpl; auto).
  rewrite IH by (intros x Hx; apply Hr; simpl; auto). reflexivity.
Qed.

Lemma ladj_norm es a b : ladj (norm a b :: es) a b.
Proof.
  unfold ladj, norm. destruct (a <? b); simpl; auto.
Qed.

Lemma path_edges_reach a l x :
  In x (a :: l) -> reach (ladj (path_edges (a :: l))) a x.
Proof.
  revert a. induction l as [|b l IH]; intros a [<-|Hx]; try apply reach_refl.
  - destruct Hx.
  - rewrite path_edges_cons. apply reach_trans with b.
    + apply reach_one. apply ladj_norm.
    + apply (reach_mono (ladj (path_edges (b :: l)))).
      * intros u v [H|H]; apply reach_one; [left | right]; right; exact H.
      * apply IH. exact Hx.
Qed.

(* a tour through all cities, without its closing edge, is a spanning tree *)
Lemma path_spanning_tree n cities pi :
  0 < n -> positive_off_diagonal n cities -> cities_perm n pi ->
  spanning_tree n cities (path_edges (0 :: pi)).
Proof.
  intros Hn Hpos Hp.
  assert (Hperm : Permutation (0 :: pi) (zrange n)).
  { unfold cities_perm in Hp. unfold zrange.
    replace (Z.to_nat n) with (S (Z.to_nat (n - 1))) by lia.
    simpl. apply perm_skip. exact Hp. }
  assert (Hnd : NoDup (0 :: pi)).
  { eapply Permutation_NoDup; [symmetry; exact Hperm | apply zrange_NoDup]. }
  assert (Hr : forall x, In x (0 :: pi) <-> 0 <= x < n).
  { intros x. rewrite <- zrange_In. split; apply Permutation_in; auto.
    symmetry. exact Hperm. }
  split; [apply path_edges_NoDup; exact Hnd|]. split.
  { intros u v H.
    assert (Huv : In u (0 :: pi) /\ In v (0 :: pi)) by (apply path_edges_ends; exact H).
    destruct Huv as [Hu Hv]. apply Hr in Hu. apply Hr in Hv.
    assert (Hlt : u < v).
    { clear - H Hnd. revert H Hnd. generalize (0 :: pi). intros l.
      induction l as [|a l IH]; [intros []|].
      destruct l as [|b l']; [intros []|].
      rewrite path_edges_cons. intros [E|H] Hnd.
      - assert (a <> b).
        { intros ->. inversion Hnd as [|? ? Ha _]. apply Ha. simpl. auto. }
        destruct (norm_cases a b H) as [[Hlt En]|[Hlt En]];
          rewrite En in E; inversion E; subst; lia.
      - apply IH; auto. inversion Hnd. auto. }
    split; [lia|]. split; [lia|].
    assert (0 < dist cities u v) by (apply Hpos; lia).
    unfold INFINITE. lia. }
  split.
  { rewrite path_edges_length, (Permutation_length Hperm), zrange_length. lia. }
  split; [exact Hn|]. intros v Hv. apply path_edges_reach. apply Hr. exact Hv.
Qed.

(* leaving out cities of a path does not make it longer *)
Lemma firsts_cost n m :
  nonnegative n m -> triangle n m ->
  forall l seen x z,
    0 <= x < n -> 0 <= z < n -> (forall c, In c l -> 0 <= c < n) ->
    path_cost m (x :: firsts seen l ++ [z]) <= path_cost m (x :: l ++ [z]).
Proof.
  intros Hnn Htri. induction l as [|c l IH]; intros seen x z Hx Hz Hr.
  - simpl. lia.
  - assert (Hc : 0 <= c < n) by (apply Hr; simpl; auto).
    assert (Hr' : forall c0, In c0 l -> 0 <= c0 < n) by (intros; apply Hr; simpl; auto).
    cbn [firsts]. destruct (existsb (Z.eqb c) seen).
    + eapply Z.le_trans; [apply IH; auto|].
      cbn [app]. rewrite (path_cost_cons m x c).
      destruct (l ++ [z]) as [|y t] eqn:E; [destruct l; discriminate|].
      rewrite !path_cost_cons.
      assert (Hy : 0 <= y < n).
      { assert (In y (l ++ [z])) by (rewrite E; simpl; auto).
        apply in_app_or in H. destruct H as [H|[<-|[]]]; auto. }
      pose proof (Htri x c y Hx Hc Hy). lia.
    + cbn [app]. rewrite !path_cost_cons.
      specialize (IH (c :: seen) c z Hc Hz Hr'). lia.
Qed.

(* the three phases of getHeuristicTour, with what each one hands on *)
Lemma getHeuristicTour_phases (n : Z) (cities : list (list Z)) :
  matrix n cities -> symmetric n cities -> connected n (has_edge n cities) ->
  2 <= n ->
  exists v mst vis t l,
    prim_loop n cities (mst_init n) = Ok (v, mst) /\
    tree_matrix n mst /\
    (forall T, spanning_tree n cities T ->
               total_weight cities (edge_list n mst) <= total_weight cities T) /\
    dfs (S (Z.to_nat n)) 0 n mst (repeat UNVISITED (Z.to_nat n), [])
    = Ok (vis, euler t) /\
    dfs_tree n mst t /\ Permutation (nodes t) (zrange n) /\
    euler t = 0 :: l ++ [0] /\
    (forall c, In c l -> 0 <= c < n) /\
    cities_perm n (firsts [0] l) /\
    getHeuristicTour n cities
    = Ok (mkResult (wrap (cycle_cost cities (0 :: firsts [0] l)))
            (map Some (0 :: firsts [0] l ++ [0])) (n + 1)).
Proof.
  intros Hm Hs Hc Hn.
  destruct (prim_loop_tree n cities Hm Hs Hc) as (v & mst & Eprim & Htree).
  change (matrix n mst /\ symmetric n mst /\
          Z.of_nat (length (edge_list n mst)) = n - 1 /\ connected n (joined n mst))
    with (tree_matrix n mst) in Htree.
  destruct (prim_loop_minimum n cities Hm Hs Hc) as (v' & mst' & Eprim' & _ & Hmin).
  rewrite Eprim in Eprim'. inversion Eprim'. subst v' mst'. clear Eprim'.
  destruct (dfs_walk_spec n mst Htree)
    as (vis & walk & t & Edfs & _ & Ew & Hroot & Ht & Hperm).
  subst walk.
  assert (Hnl : length (nodes t) = Z.to_nat n).
  { rewrite (Permutation_length Hperm). apply zrange_length. }
  destruct (euler_returns t) as [l El]; [lia|]. rewrite Hroot in El.
  change ((0 :: l) ++ [0]) with (0 :: l ++ [0]) in El.
  assert (Hin : forall c, In c (0 :: l) <-> 0 <= c < n).
  { intros c. rewrite <- zrange_In. split.
    - intros H. eapply Permutation_in; [exact Hperm|]. apply euler_nodes.
      rewrite El. change (0 :: l ++ [0]) with ((0 :: l) ++ [0]).
      apply in_or_app. auto.
    - intros H. eapply Permutation_in in H; [|symmetry; exact Hperm].
      apply euler_nodes in H. rewrite El in H.
      change (0 :: l ++ [0]) with ((0 :: l) ++ [0]) in H.
      apply in_app_or in H. destruct H as [H|[<-|[]]]; simpl; auto. }
  assert (Hl : forall c, In c l -> 0 <= c < n) by (intros c H; apply Hin; simpl; auto).
  assert (Hfirsts : firsts [] (0 :: l) = 0 :: firsts [0] l) by reflexivity.
  assert (Hpo : Permutation (0 :: firsts [0] l) (zrange n)).
  { rewrite <- Hfirsts. apply NoDup_Permutation.
    - apply firsts_NoDup.
    - apply zrange_NoDup.
    - intros c. rewrite firsts_In, zrange_In, <- Hin. split; [intros [H _]; exact H|].
      intros H. split; [exact H | intros []]. }
  assert (Hkeep : keep [] (euler t) = 0 :: firsts [0] l ++ [0]).
  { rewrite El. change (0 :: l ++ [0]) with ((0 :: l) ++ [0]).
    rewrite keep_snoc, Hfirsts. reflexivity. }
  assert (Hkl : length (keep [] (euler t)) = Z.to_nat (n + 1)).
  { rewrite Hkeep. change (0 :: firsts [0] l ++ [0]) with ((0 :: firsts [0] l) ++ [0]).
    rewrite length_app, (Permutation_length Hpo), zrange_length. simpl. lia. }
  destruct (shortcut_keep n cities Hm (euler t) [] [] (repeat UNVISITED (Z.to_nat n))
              (Z.to_nat (n + 1))) as [vis' Erun].
  { intros c Hc'. apply euler_nodes in Hc'.
    eapply Permutation_in in Hc'; [|exact Hperm]. apply zrange_In in Hc'. exact Hc'. }
  { intros c []. }
  { rewrite repeat_length. lia. }
  { intros x Hx. split; [intros _ []|]. intros _. apply rd_repeat. lia. }
  { lia. }
  cbn [app map length] in Erun. rewrite Hkl, Nat.sub_diag in Erun.
  cbn [repeat] in Erun. rewrite app_nil_r in Erun. rewrite Hkeep in Erun.
  exists v, mst, vis, t, l.
  split; [exact Eprim|]. split; [exact Htree|]. split; [exact Hmin|].
  split; [exact Edfs|]. split; [exact Ht|]. split; [exact Hperm|].
  split; [exact El|]. split; [exact Hl|].
  split; [apply zrange_cities_perm; [lia | exact Hpo]|].
  unfold getHeuristicTour. fold (mst_init n). rewrite Eprim. cbn [bind].
  rewrite Edfs. cbn [bind].
  change (wrap (path_cost cities [])) with INFINITE in Erun.
  change (Z.of_nat 0) with 0 in Erun.
  rewrite Erun. cbn [bind]. reflexivity.
Qed.

Lemma path_cost_ext n m l z :
  nonnegative n m -> (forall x, In x (l ++ [z]) -> 0 <= x < n) ->
  path_cost m l <= path_cost m (l ++ [z]).
Proof.
  intros Hnn. induction l as [|a l IH]; intros Hr; [simpl; lia|].
  destruct l as [|b l'].
  - simpl. assert (0 <= dist m a z) by (apply Hnn; apply Hr; simpl; auto). lia.
  - change ((a :: b :: l') ++ [z]) with (a :: b :: (l' ++ [z])).
    rewrite !path_cost_cons.
    change (b :: l' ++ [z]) with ((b :: l') ++ [z]).
    assert (path_cost m (b :: l') <= path_cost m ((b :: l') ++ [z])); [|lia].
    apply IH. intros x Hx. apply Hr. simpl. right. exact Hx.
Qed.

Lemma cities_line4_matrix :
  matrix 4 cities_line4 /\ symmetric 4 cities_line4 /\ nonnegative 4 cities_line4 /\
  positive_off_diagonal 4 cities_line4 /\ fits_int 4 cities_line4 /\
  triangle 4 cities_line4.
Proof.
  split; [matrix_shape|].
  split; [unfold symmetric; matrix_entries|].
  split; [unfold nonnegative; matrix_entries|].
  split; [unfold positive_off_diagonal; matrix_entries|].
  split; [unfold fits_int; matrix_entries|].
  intros a b c Ha Hb Hc.
  index_cases a Ha; index_cases b Hb; index_cases c Hc; vm_compute; discriminate.
Qed.

(** X13: on an adjacency matrix that marks a spanning tree of the n cities,
    the walk of dfs goes along every marked edge once in each direction:
    for a symmetric distance matrix the distances between consecutive
    entries of the walk add up to twice the total weight of the marked
    edges. *)
Theorem dfs_walk_twice_tree (n : Z) (g cities : list (list Z)) :
  tree_matrix n g -> symmetric n cities ->
  exists visited walk,
    dfs (S (Z.to_nat n)) 0 n g (repeat UNVISITED (Z.to_nat n), []) = Ok (visited, walk) /\
    path_cost cities walk = 2 * total_weight cities (edge_list n g).
Proof.
  intros Hg Hs.
  destruct (dfs_walk_spec n g Hg) as (vis & walk & t & Edfs & _ & Ew & _ & Ht & Hperm).
  exists vis, walk. split; [exact Edfs|]. subst walk.
  rewrite (euler_cost n cities t Hs).
  - f_equal. apply total_weight_perm. apply (tree_edges_perm n g t Hg Ht Hperm).
  - intros x Hx. apply zrange_In. eapply Permutation_in; eauto.
Qed.

Lemma dfs_walk_twice_tree_witness :
  exists visited walk,
    dfs (S (Z.to_nat 4)) 0 4 star4 (repeat UNVISITED (Z.to_nat 4), []) = Ok (visited, walk) /\
    path_cost cities4 walk = 2 * total_weight cities4 (edge_list 4 star4).
Proof.
  destruct cities4_matrix as (_ & H2 & _).
  apply (dfs_walk_twice_tree 4 star4 cities4 star4_tree H2).
Defined.

Section Approximation.

Variable n : Z.
Variable cities : list (list Z).
Hypothesis Hn : 2 <= n.
Hypothesis Hm : matrix n cities.
Hypothesis Hs : symmetric n cities.
Hypothesis Hnn : nonnegative n cities.
Hypothesis Hpos : positive_off_diagonal n cities.
Hypothesis Hfit : fits_int n cities.

Lemma tree_below_tour mst pi :
  (forall T, spanning_tree n cities T ->
             total_weight cities (edge_list n mst) <= total_weight cities T) ->
  cities_perm n pi ->
  total_weight cities (edge_list n mst) <= cycle_cost cities (0 :: pi).
Proof.
  intros Hmin Hp.
  assert (Hn0 : 0 < n) by lia.
  assert (Hr : forall x, In x (0 :: pi) -> 0 <= x < n).
  { intros x [<-|Hx]; [lia|]. apply (cities_perm_range n) in Hx; auto. lia. }
  eapply Z.le_trans; [apply (Hmin _ (path_spanning_tree n cities pi Hn0 Hpos Hp))|].
  rewrite (path_edges_weight n) by auto.
  unfold cycle_cost. cbn [firstn]. apply (path_cost_ext n); auto.
  intros x Hx. apply in_app_or in Hx. destruct Hx as [Hx|[<-|[]]]; [auto | lia].
Qed.

Lemma heuristic_within_twice_tree :
  triangle n cities ->
  exists v mst o,
    prim_loop n cities (mst_init n) = Ok (v, mst) /\
    (forall T, spanning_tree n cities T ->
               total_weight cities (edge_list n mst) <= total_weight cities T) /\
    cities_perm n o /\
    getHeuristicTour n cities
    = Ok (mkResult (cycle_cost cities (0 :: o)) (map Some (0 :: o ++ [0])) (n + 1)) /\
    cycle_cost cities (0 :: o) <= 2 * total_weight cities (edge_list n mst).
Proof.
  intros Htri.
  assert (Hn0 : 0 < n) by lia.
  destruct (getHeuristicTour_phases n cities Hm Hs (positive_connected n cities Hn0 Hpos) Hn)
    as (v & mst & vis & t & l & Eprim & Htree & Hmin & Edfs & Ht & Hperm & El & Hl & Hp & Erun).
  exists v, mst, (firsts [0] l).
  split; [exact Eprim|]. split; [exact Hmin|]. split; [exact Hp|].
  pose proof (cycle_cost_bounds n cities (firsts [0] l) Hn Hnn Hpos Hfit Hp) as Hb.
  rewrite wrap_id in Erun by (unfold in_int; lia).
  split; [exact Erun|].
  assert (Hcost : path_cost cities (euler t) = 2 * total_weight cities (edge_list n mst)).
  { rewrite (euler_cost n cities t Hs).
    - f_equal. apply total_weight_perm. apply (tree_edges_perm n mst t Htree Ht Hperm).
    - intros x Hx. apply zrange_In. eapply Permutation_in; eauto. }
  rewrite <- Hcost, El. unfold cycle_cost. cbn [firstn app].
  apply (firsts_cost n); auto; lia.
Qed.

End Approximation.

(** X14: for n >= 2 and a symmetric nonnegative matrix with positive
    distances between distinct cities that satisfy the triangle inequality
    (and are small enough for n of them to add up to an int), the cost
    returned by
    getHeuristicTour is at most twice the total weight of the tree built by
    the Prim-style loop; that tree weighs no more than any cycle through
    all cities, so the cost is at most twice the cost of every such cycle. *)
Theorem heuristic_within_twice (n : Z) (cities : list (list Z)) :
  2 <= n -> matrix n cities -> symmetric n cities -> nonnegative n cities ->
  positive_off_diagonal n cities -> fits_int n cities -> triangle n cities ->
  exists v mst rh,
    prim_loop n cities (mst_init n) = Ok (v, mst) /\
    getHeuristicTour n cities = Ok rh /\
    rh.(cost) <= 2 * total_weight cities (edge_list n mst) /\
    forall pi, cities_perm n pi ->
      total_weight cities (edge_list n mst) <= cycle_cost cities (0 :: pi) /\
      rh.(cost) <= 2 * cycle_cost cities (0 :: pi).
Proof.
  intros Hn Hm Hs Hnn Hpos Hfit Htri.
  destruct (heuristic_within_twice_tree n cities Hn Hm Hs Hnn Hpos Hfit Htri)
    as (v & mst & o & Eprim & Hmin & Hp & Erun & Hle).
  exists v, mst. eexists. split; [exact Eprim|]. split; [exact Erun|].
  cbn [cost]. split; [exact Hle|].
  intros pi Hpi.
  pose proof (tree_below_tour n cities Hn Hs Hnn Hpos mst pi Hmin Hpi) as H.
  split; [exact H | lia].
Qed.

Lemma heuristic_within_twice_witness :
  exists v mst rh,
    prim_loop 4 cities_line4 (mst_init 4) = Ok (v, mst) /\
    getHeuristicTour 4 cities_line4 = Ok rh /\
    rh.(cost) <= 2 * total_weight cities_line4 (edge_list 4 mst) /\
    forall pi, cities_perm 4 pi ->
      total_weight cities_line4 (edge_list 4 mst) <= cycle_cost cities_line4 (0 :: pi) /\
      rh.(cost) <= 2 * cycle_cost cities_line4 (0 :: pi).
Proof.
  destruct cities_line4_matrix as (H1 & H2 & H3 & H4 & H5 & H6).
  apply (heuristic_within_twice 4 cities_line4); auto. lia.
Defined.

(** X15: for 3 <= n <= 13 and a symmetric nonnegative matrix with positive
    distances between distinct cities that satisfy the triangle inequality
    (and are small enough for n of them to add up to an int), the cost
    returned by
    getHeuristicTour lies between the cost returned by getOptimalTour and
    twice that cost. *)
Theorem heuristic_at_most_twice_optimal (n : Z) (cities : list (list Z)) :
  3 <= n <= 13 -> matrix n cities -> symmetric n cities -> nonnegative n cities ->
  positive_off_diagonal n cities -> fits_int n cities -> triangle n cities ->
  exists ro rh,
    getOptimalTour n cities = Ok ro /\ getHeuristicTour n cities = Ok rh /\
    ro.(cost) <= rh.(cost) <= 2 * ro.(cost).
Proof.
  intros Hn Hm Hs Hnn Hpos Hfit Htri.
  assert (Hn2 : 2 <= n) by lia.
  destruct (heuristic_within_twice_tree n cities Hn2 Hm Hs Hnn Hpos Hfit Htri)
    as (v & mst & o & Eprim & Hmin & Hp & Erun & Hle).
  destruct (optimal_minimal_spec n cities Hn Hm Hs Hnn Hpos Hfit)
    as (c & pi & Eopt & Hpi & Ec & Hcmin).
  eexists. eexists. split; [exact Eopt|]. split; [exact Erun|]. cbn [cost].
  split; [apply Hcmin; exact Hp|].
  pose proof (tree_below_tour n cities Hn2 Hs Hnn Hpos mst pi Hmin Hpi) as H.
  rewrite Ec. lia.
Qed.

Lemma heuristic_at_most_twice_optimal_witness :
  exists ro rh,
    getOptimalTour 4 cities_line4 = Ok ro /\ getHeuristicTour 4 cities_line4 = Ok rh /\
    ro.(cost) <= rh.(cost) <= 2 * ro.(cost).
Proof.
  destruct cities_line4_matrix as (H1 & H2 & H3 & H4 & H5 & H6).
  apply (heuristic_at_most_twice_optimal 4 cities_line4); auto. lia.
Defined.

(** ** Results on loadCitiesFromFile *)



Section LoadSafe.

Variable n : nat.
Let nr_cities := Z.of_nat n.





End LoadSafe.




Lemma last_cons_default {A} (l : list A) : forall x d, last (x :: l) d = last l x.
Proof.
  induction l as [|y l IH]; intros x d; [reflexivity|].
  change (last (x :: y :: l) d) with (last (y :: l) d).
  rewrite (IH y d), (IH y x). reflexivity.
Qed.

Lemma repeat_pred {A} (x : A) k : (0 < k)%nat -> repeat x k = x :: repeat x (k - 1).
Proof.
  destruct k; [lia|]. intros _. cbn [repeat]. now rewrite Nat.sub_succ, Nat.sub_0_r.
Qed.

Section LoadRows.

Variable N : nat.
Let n := Z.of_nat N.

Lemma layout_step rows cur v :
  (length rows < N)%nat -> (length cur < N)%nat ->
  wr2 (layout N rows cur) (Z.of_nat (length rows)) (Z.of_nat (length cur)) (Some v)
  = Ok (layout N rows (cur ++ [v])).
Proof.
  intros Hr Hc. unfold layout, wr2.
  rewrite rd_app_at by (now rewrite length_map). cbn [bind].
  replace (N - length cur)%nat with (S (N - length cur - 1)) by lia.
  cbn [repeat].
  rewrite wr_app_at by (now rewrite length_map). cbn [bind].
  rewrite wr_app_at by (now rewrite length_map).
  rewrite map_app, <- app_assoc, length_app. cbn [map app length].
  replace (N - (length cur + 1))%nat with (N - length cur - 1)%nat by lia.
  reflexivity.
Qed.

Lemma layout_full rows cur :
  length cur = N -> (length rows + 1 < N)%nat ->
  layout N rows cur = layout N (rows ++ [cur]) [].
Proof.
  intros Hc Hr. unfold layout.
  rewrite Hc, Nat.sub_diag. cbn [repeat map length app]. rewrite app_nil_r.
  rewrite map_app, <- app_assoc, length_app. cbn [map app length].
  rewrite Nat.sub_0_r.
  replace (N - length rows - 1)%nat with (S (N - (length rows + 1) - 1)) by lia.
  reflexivity.
Qed.


Lemma load_step_in_row rows cur z val :
  (length rows < N)%nat -> (length cur < N)%nat ->
  load_step n (Matched z)
    (layout N rows cur, val, Z.of_nat (length rows), Z.of_nat (length cur))
  = Ok (Next (layout N rows (cur ++ [z]), Some z,
              Z.of_nat (length rows), Z.of_nat (length cur) + 1)).
Proof.
  intros Hr Hc. unfold load_step.
  destruct (Z.eqb_spec (Z.of_nat (length cur)) n) as [E|_]; [unfold n in E; lia|].
  rewrite layout_step by auto. reflexivity.
Qed.

Lemma load_step_new_row rows cur z val :
  length cur = N -> (length rows + 1 < N)%nat ->
  load_step n (Matched z)
    (layout N rows cur, val, Z.of_nat (length rows), Z.of_nat (length cur))
  = Ok (Next (layout N (rows ++ [cur]) [z], Some z,
              Z.of_nat (length (rows ++ [cur])), 1)).
Proof.
  intros Hc Hr. unfold load_step.
  destruct (Z.eqb_spec (Z.of_nat (length cur)) n) as [_|E]; [|unfold n in E; lia].
  destruct (Z.geb_spec (Z.of_nat (length rows) + 1) n) as [E|_]; [unfold n in E; lia|].
  rewrite layout_full by auto.
  pose proof (layout_step (rows ++ [cur]) [] z) as H.
  rewrite length_app in H. cbn [length app] in H.
  replace (Z.of_nat (length rows + 1)) with (Z.of_nat (length rows) + 1) in H by lia.
  change (Z.of_nat 0) with 0 in H.
  rewrite H by lia. cbn [bind].
  rewrite length_app. cbn [length].
  replace (Z.of_nat (length rows + 1)) with (Z.of_nat (length rows) + 1) by lia.
  reflexivity.
Qed.

(* the numbers that complete the current row *)
Lemma load_row rows rest : forall more cur val,
  (length rows < N)%nat -> (length cur + length more <= N)%nat ->
  load_loop n (map Matched more ++ rest)
    (layout N rows cur, val, Z.of_nat (length rows), Z.of_nat (length cur))
  = load_loop n rest
      (layout N rows (cur ++ more), last (map Some more) val,
       Z.of_nat (length rows), Z.of_nat (length (cur ++ more))).
Proof.
  induction more as [|z more IH]; intros cur val Hr Hc.
  - cbn [map app last]. rewrite app_nil_r. reflexivity.
  - cbn [map app length] in *. cbn [load_loop].
    rewrite load_step_in_row by lia. cbn [bind].
    replace (Z.of_nat (length cur) + 1) with (Z.of_nat (length (cur ++ [z])))
      by (rewrite length_app; simpl; lia).
    rewrite IH by (rewrite ?length_app; simpl; lia).
    rewrite <- app_assoc. cbn [app].
    rewrite (last_cons_default (map Some more) (Some z) val). reflexivity.
Qed.

(* the state after the full rows [rows] and the cells [cur] of the next *)
Lemma load_rows : forall rows cur rest,
  cur <> [] -> (length cur <= N)%nat -> (length rows < N)%nat ->
  (forall r, In r rows -> length r = N) ->
  load_loop n (map Matched (concat rows ++ cur) ++ rest)
    (repeat (repeat None N) N, None, 0, 0)
  = load_loop n rest
      (layout N rows cur, last (map Some cur) None,
       Z.of_nat (length rows), Z.of_nat (length cur)).
Proof.
  induction rows as [|r rows IH] using rev_ind; intros cur rest Hne Hc Hr Hfull.
  - cbn [concat app].
    assert (E0 : repeat (repeat (@None Z) N) N = layout N [] []).
    { unfold layout. cbn [map length app]. rewrite !Nat.sub_0_r.
      apply repeat_pred. simpl in Hr. lia. }
    rewrite E0.
    apply (load_row [] rest cur [] None); simpl; lia.
  - rewrite length_app in Hr. cbn [length] in Hr.
    assert (Hrl : length r = N) by (apply Hfull; apply in_or_app; simpl; auto).
    assert (Hfull' : forall r0, In r0 rows -> length r0 = N)
      by (intros; apply Hfull; apply in_or_app; auto).
    rewrite concat_app. cbn [concat]. rewrite app_nil_r.
    rewrite map_app, <- app_assoc.
    assert (Hrne : r <> []) by (intros ->; simpl in Hrl; lia).
    rewrite (IH r (map Matched cur ++ rest) Hrne) by (auto; lia).
    destruct cur as [|z cur']; [contradiction|].
    cbn [map app load_loop].
    rewrite load_step_new_row by (auto; lia). cbn [bind].
    pose proof (load_row (rows ++ [r]) rest cur' [z] (Some z)) as H.
    cbn [length] in H. change (Z.of_nat 1) with 1 in H.
    rewrite H by (rewrite ?length_app; simpl in *; lia).
    cbn [app].
    rewrite (last_cons_default (map Some cur') (Some z) None). reflexivity.
Qed.


End LoadRows.



(** X18: when the file ends after fewer than n*n numbers, the calls giving
    the full rows [rows] and then the first cells [cur] of the next row,
    loadCitiesFromFile returns the array with exactly these cells assigned:
    the rest of the row and the rows below are never assigned. *)
Theorem load_short_file (nr_cities : Z) (rows : list (list Z)) (cur : list Z) :
  (forall r, In r rows -> Z.of_nat (length r) = nr_cities) ->
  Z.of_nat (length rows) < nr_cities -> Z.of_nat (length cur) < nr_cities ->
  loadCitiesFromFile nr_cities (Some (map Matched (concat rows ++ cur)))
  = Ok (Array (layout (Z.to_nat nr_cities) rows cur)).
Proof.
  intros Hfull Hr Hc. unfold loadCitiesFromFile.
  set (N := Z.to_nat nr_cities).
  assert (En : nr_cities = Z.of_nat N) by (unfold N; lia).
  assert (Hfull' : forall r, In r rows -> length r = N).
  { intros r H. apply Hfull in H. lia. }
  rewrite En at 1.
  destruct cur as [|z cur'].
  - rewrite app_nil_r.
    induction rows as [|r rows' _] using rev_ind.
    + cbn [concat map app load_loop bind]. f_equal. f_equal.
      unfold layout. cbn [map length app]. rewrite !Nat.sub_0_r.
      apply repeat_pred. simpl in Hr. lia.
    + rewrite length_app in Hr. cbn [length] in Hr.
      assert (Hrl : length r = N) by (apply Hfull'; apply in_or_app; simpl; auto).
      rewrite concat_app. cbn [concat]. rewrite app_nil_r.
      rewrite <- (app_nil_r (map Matched (concat rows' ++ r))).
      rewrite (load_rows N rows' r [])
        by (try (intros ->; simpl in Hrl); try lia;
            intros; apply Hfull'; apply in_or_app; auto).
      cbn [load_loop bind]. rewrite layout_full by lia. reflexivity.
  - rewrite <- (app_nil_r (map Matched (concat rows ++ z :: cur'))).
    rewrite (load_rows N rows (z :: cur') [])
      by (try discriminate; try lia; auto).
    reflexivity.
Qed.

Lemma load_short_file_witness :
  loadCitiesFromFile 3 (Some (map Matched (concat [[1; 2; 3]] ++ [4])))
  = Ok (Array (layout (Z.to_nat 3) [[1; 2; 3]] [4])).
Proof.
  apply (load_short_file 3 [[1; 2; 3]] [4]).
  - intros r [<-|[]]. reflexivity.
  - simpl. lia.
  - simpl. lia.
Defined.

Lemma load_step_val n z st st' :
  load_step n (Matched z) st = Ok (Next st') ->
  exists cities i j, st' = (cities, Some z, i, j).
Proof.
  destruct st as [[[cities val] i] j]. unfold load_step.
  destruct (j =? n); [destruct (i + 1 >=? n); [discriminate|]|].
  - destruct (wr2 cities (i + 1) 0 (Some z)); cbn [bind]; [|discriminate].
    intros E. inversion E. eauto.
  - destruct (wr2 cities i j (Some z)); cbn [bind]; [|discriminate].
    intros E. inversion E. eauto.
Qed.

Lemma load_loop_eof n v rest : forall vs st,
  load_loop n (map Matched (vs ++ [v]) ++ AtEof :: rest) st
  = load_loop n (map Matched (vs ++ [v; v]) ++ rest) st.
Proof.
  induction vs as [|u vs IH]; intros st.
  - cbn [map app load_loop].
    destruct (load_step n (Matched v) st) as [[st'|st']|e] eqn:E; cbn [bind]; auto.
    destruct (load_step_val n v st st' E) as (cities & i & j & ->). reflexivity.
  - cbn [map app load_loop].
    destruct (load_step n (Matched u) st) as [[st'|st']|e]; cbn [bind]; auto.
Qed.

Lemma upd_same {A} (x : A) : forall l i, nth_error l i = Some x -> upd i x l = l.
Proof.
  induction l as [|h t IH]; intros [|i] H; simpl in *; try discriminate.
  - congruence.
  - now rewrite IH.
Qed.

Lemma wr_same {A} (a : list A) i x : rd a i = Ok x -> wr a i x = Ok a.
Proof.
  intros H. apply rd_Ok_iff in H. destruct H as [Hi Hn].
  assert (Hlt : (Z.to_nat i < length a)%nat) by (apply nth_error_Some; congruence).
  rewrite wr_Ok by lia. now rewrite upd_same.
Qed.

Lemma wr2_same {A} (m : list (list A)) i j x : rd2 m i j = Ok x -> wr2 m i j x = Ok m.
Proof.
  unfold rd2, wr2. destruct (rd m i) as [row|e] eqn:E; cbn [bind]; [|discriminate].
  intros H. rewrite (wr_same row j x H). cbn [bind]. apply wr_same. exact E.
Qed.

(** X19: a call of fscanf that finds the end of the file returns EOF, which
    the loop treats like a number read: after at least one number, the last
    number read is stored once more in the next cell (or ends the loop when
    the array is full); in an empty file the first call stores val, which
    was never assigned, and no cell of the array holds a value. *)
Theorem load_eof_repeats_last (nr_cities : Z) (vs : list Z) (v : Z) (rest : list fscanf_result) :
  loadCitiesFromFile nr_cities (Some (map Matched (vs ++ [v]) ++ AtEof :: rest))
  = loadCitiesFromFile nr_cities (Some (map Matched (vs ++ [v; v]) ++ rest)) /\
  (0 <= nr_cities ->
   loadCitiesFromFile nr_cities (Some [AtEof])
   = Ok (Array (repeat (repeat None (Z.to_nat nr_cities)) (Z.to_nat nr_cities)))).
Proof.
  split.
  - unfold loadCitiesFromFile. rewrite load_loop_eof. reflexivity.
  - intros Hn. unfold loadCitiesFromFile. cbn [load_loop load_step].
    destruct (Z.eqb_spec 0 nr_cities) as [<-|Hne].
    + reflexivity.
    + rewrite wr2_same; [reflexivity|].
      unfold rd2. rewrite rd_repeat by lia. cbn [bind]. apply rd_repeat. lia.
Qed.

Lemma load_eof_repeats_last_witness :
  loadCitiesFromFile 3 (Some [AtEof])
  = Ok (Array (repeat (repeat None (Z.to_nat 3)) (Z.to_nat 3))).
Proof.
  destruct (load_eof_repeats_last 3 [] 0 []) as [_ H]. apply H. lia.
Defined.

(** ** Ties in the scan of the Prim-style loop *)

Section ScanOrder.

Variable n : Z.
Variable cities : list (list Z).
Variable v : list Z.
Hypothesis Hm : matrix n cities.
Hypothesis v_range : forall x, In x v -> 0 <= x < n.

Lemma first_lightest_next k st :
  first_lightest n cities v k n st -> first_lightest n cities v (S k) 0 st.
Proof.
  destruct st as [[c2|] e]; cbn [first_lightest].
  - intros (k1 & c1 & Hk1 & Ee & Hc & Hsc & Hmin).
    exists k1, c1. split; [exact Hk1|]. split; [exact Ee|]. split; [exact Hc|].
    split; [unfold scanned_before in *; lia|].
    intros i a b Hi Hs Hab. apply Hmin; auto.
    destruct Hab as (_ & Hb & _). unfold scanned_before in *. lia.
  - intros [Ee Hno]. split; [exact Ee|].
    intros i a b Hi Hs Hab. apply (Hno i a b); auto.
    destruct Hab as (_ & Hb & _). unfold scanned_before in *. lia.
Qed.

Lemma scan_row k vp1 st :
  nth_error v k = Some vp1 ->
  first_lightest n cities v k 0 st ->
  exists st',
    for_range 0 n (fun j st =>
      let '(_, e) := st in
      w <- rd2 cities vp1 j ;;
      if w =? INFINITE then Ok st
      else if negb (found_in v j) && ((e.(weight) =? INFINITE) || (w <? e.(weight)))
           then Ok (Some j, mkEdge (Some vp1) (Some j) w)
           else Ok st) st
    = Ok st' /\
    first_lightest n cities v (S k) 0 st'.
Proof.
  intros Hk Hst.
  assert (Hvp1 : In vp1 v) by (eapply nth_error_In; eauto).
  pose proof (v_range _ Hvp1) as Hr1.
  assert (Hn0 : 0 <= n) by lia.
  destruct (for_range_inv (fun j st => first_lightest n cities v k j st) 0 n
    (fun j st =>
      let '(_, e) := st in
      w <- rd2 cities vp1 j ;;
      if w =? INFINITE then Ok st
      else if negb (found_in v j) && ((e.(weight) =? INFINITE) || (w <? e.(weight)))
           then Ok (Some j, mkEdge (Some vp1) (Some j) w)
           else Ok st) st Hn0 Hst) as [st' [E I]].
  - intros j [vn e] Hj Hinv.
    rewrite (rd2_dist n) by auto. cbn [bind].
    assert (Hcross : crossing n cities v vp1 j <->
                     dist cities vp1 j <> INFINITE /\ found_in v j = false).
    { unfold crossing. split.
      - intros (_ & _ & Hnin & Hd). split; auto.
        destruct (found_in v j) eqn:Ef; auto. apply found_in_spec in Ef. contradiction.
      - intros [Hd Hf]. repeat split; auto; try lia.
        intros Hin. apply found_in_spec in Hin. congruence. }
    (* a pair looked at by now is the new pair or was looked at before *)
    assert (Hsplit : forall i a b, nth_error v i = Some a ->
              scanned_before k (j + 1) i b ->
              scanned_before k j i b \/ (i = k /\ a = vp1 /\ b = j)).
    { intros i a b Hi Hs. unfold scanned_before in *.
      destruct Hs as [Hs|[-> Hs]]; [auto|].
      destruct (Z.eq_dec b j) as [->|]; [|left; right; lia].
      right. split; [auto|]. split; [congruence | auto]. }
    assert (Hkeep : ~ crossing n cities v vp1 j ->
                    first_lightest n cities v k (j + 1) (vn, e)).
    { intros Hnc. destruct vn as [c2|]; cbn [first_lightest] in *.
      - destruct Hinv as (k1 & c1 & Hk1 & Ee & Hc & Hsc & Hmin).
        exists k1, c1. split; [exact Hk1|]. split; [exact Ee|]. split; [exact Hc|].
        split; [unfold scanned_before in *; lia|].
        intros i a b Hi Hs Hab.
        destruct (Hsplit i a b Hi Hs) as [Hs'|(-> & -> & ->)]; [auto | contradiction].
      - destruct Hinv as [Ee Hno]. split; [exact Ee|].
        intros i a b Hi Hs Hab.
        destruct (Hsplit i a b Hi Hs) as [Hs'|(-> & -> & ->)];
          [apply (Hno i a b); auto | contradiction]. }
    destruct (Z.eqb_spec (dist cities vp1 j) INFINITE) as [Ew|Ew].
    { eexists. split; [reflexivity|]. apply Hkeep. intros H. apply Hcross in H. tauto. }
    destruct (found_in v j) eqn:Ef; cbn [negb andb].
    { eexists. split; [reflexivity|]. apply Hkeep. intros H. apply Hcross in H.
      destruct H. congruence. }
    assert (Hcj : crossing n cities v vp1 j) by (apply Hcross; auto).
    destruct vn as [c2|]; cbn [first_lightest] in Hinv.
    + destruct Hinv as (k1 & c1 & Hk1 & Ee & Hc & Hsc & Hmin). subst e. cbn [weight].
      assert (Hw : dist cities c1 c2 <> INFINITE) by (destruct Hc as (_ & _ & _ & H); auto).
      destruct (Z.eqb_spec (dist cities c1 c2) INFINITE) as [|_]; [contradiction|].
      cbn [orb].
      destruct (Z.ltb_spec (dist cities vp1 j) (dist cities c1 c2)) as [Hlt|Hge].
      * eexists. split; [reflexivity|]. cbn [first_lightest]. exists k, vp1.
        split; [exact Hk|]. split; [reflexivity|]. split; [exact Hcj|].
        split; [unfold scanned_before; lia|].
        intros i a b Hi Hs Hab.
        destruct (Hsplit i a b Hi Hs) as [Hs'|(-> & -> & ->)].
        -- destruct (Hmin i a b Hi Hs' Hab) as [Hle _]. lia.
        -- split; [lia|]. unfold scanned_before. lia.
      * eexists. split; [reflexivity|]. cbn [first_lightest]. exists k1, c1.
        split; [exact Hk1|]. split; [reflexivity|]. split; [exact Hc|].
        split; [unfold scanned_before in *; lia|].
        intros i a b Hi Hs Hab.
        destruct (Hsplit i a b Hi Hs) as [Hs'|(-> & -> & ->)]; [auto|].
        split; [lia|]. unfold scanned_before in *. lia.
    + destruct Hinv as [Ee Hno]. subst e. cbn [weight]. rewrite Z.eqb_refl. cbn [orb].
      eexists. split; [reflexivity|]. cbn [first_lightest]. exists k, vp1.
      split; [exact Hk|]. split; [reflexivity|]. split; [exact Hcj|].
      split; [unfold scanned_before; lia|].
      intros i a b Hi Hs Hab.
      destruct (Hsplit i a b Hi Hs) as [Hs'|(-> & -> & ->)].
      * exfalso. apply (Hno i a b); auto.
      * split; [lia|]. unfold scanned_before. lia.
  - exists st'. split; [exact E|]. apply first_lightest_next. exact I.
Qed.

Lemma prim_scan_order :
  exists st, prim_scan n cities v = Ok st /\
             first_lightest n cities v (length v) 0 st.
Proof.
  unfold prim_scan.
  destruct (for_list_inv
    (fun pre st => first_lightest n cities v (length pre) 0 st)
    v
    (fun vp1 st =>
       for_range 0 n (fun j st =>
         let '(_, e) := st in
         w <- rd2 cities vp1 j ;;
         if w =? INFINITE then Ok st
         else if negb (found_in v j) && ((e.(weight) =? INFINITE) || (w <? e.(weight)))
              then Ok (Some j, mkEdge (Some vp1) (Some j) w)
              else Ok st) st)
    (None, mkEdge None None INFINITE)) as [st [E I]].
  - cbn [first_lightest length]. split; [reflexivity|].
    intros i a b _ Hs (_ & Hb & _). unfold scanned_before in Hs. lia.
  - intros pre x suf s E Hs.
    destruct (scan_row (length pre) x s) as [s' [E' Hs']]; auto.
    + rewrite E. rewrite nth_error_app2 by lia. now rewrite Nat.sub_diag.
    + exists s'. split; [exact E'|]. rewrite length_app. simpl.
      replace (length pre + 1)%nat with (S (length pre)) by lia. exact Hs'.
  - exists st. auto.
Qed.

End ScanOrder.

(** X12: one scan of the Prim-style loop over the vertex list v either finds
    no edge from v to a city outside v, and assigns neither v_new->city nor
    e, or ends with the lightest such edge; among the equally light ones it
    holds the one looked at first, the vertices of v being taken in list
    order and, for each, the cities in increasing index. *)
Theorem prim_scan_first_lightest (n : Z) (cities : list (list Z)) (v : list Z) :
  matrix n cities -> (forall x, In x v -> 0 <= x < n) ->
  (exists e, prim_scan n cities v = Ok (None, e) /\
             e = mkEdge None None INFINITE /\
             forall a b, ~ crossing n cities v a b) \/
  (exists k1 c1 c2,
     prim_scan n cities v
     = Ok (Some c2, mkEdge (Some c1) (Some c2) (dist cities c1 c2)) /\
     nth_error v k1 = Some c1 /\ crossing n cities v c1 c2 /\
     forall i a b, nth_error v i = Some a -> crossing n cities v a b ->
       dist cities c1 c2 <= dist cities a b /\
       (scanned_before k1 c2 i b -> dist cities c1 c2 < dist cities a b)).
Proof.
  intros Hm Hr.
  destruct (prim_scan_order n cities v Hm Hr) as ([[c2|] e] & E & H);
    cbn [first_lightest] in H.
  - right. destruct H as (k1 & c1 & Hk1 & -> & Hc & _ & Hmin).
    exists k1, c1, c2. split; [exact E|]. split; [exact Hk1|]. split; [exact Hc|].
    intros i a b Hi Hab. apply Hmin; auto.
    left. apply nth_error_Some. congruence.
  - left. destruct H as [-> Hno]. eexists. split; [exact E|]. split; [reflexivity|].
    intros a b Hab. pose proof Hab as (Ha & _).
    apply In_nth_error in Ha. destruct Ha as [i Hi].
    apply (Hno i a b); auto. left. apply nth_error_Some. congruence.
Qed.

Lemma prim_scan_first_lightest_witness :
  (exists e, prim_scan 4 cities4 [0; 1] = Ok (None, e) /\
             e = mkEdge None None INFINITE /\
             forall a b, ~ crossing 4 cities4 [0; 1] a b) \/
  (exists k1 c1 c2,
     prim_scan 4 cities4 [0; 1]
     = Ok (Some c2, mkEdge (Some c1) (Some c2) (dist cities4 c1 c2)) /\
     nth_error [0; 1] k1 = Some c1 /\ crossing 4 cities4 [0; 1] c1 c2 /\
     forall i a b, nth_error [0; 1] i = Some a -> crossing 4 cities4 [0; 1] a b ->
       dist cities4 c1 c2 <= dist cities4 a b /\
       (scanned_before k1 c2 i b -> dist cities4 c1 c2 < dist cities4 a b)).
Proof.
  destruct cities4_matrix as (H1 & _).
  apply (prim_scan_first_lightest 4 cities4 [0; 1] H1).
  intros x Hx. simpl in Hx. lia.
Defined.
